(** * Traffic-Light-Controller: a shallow embedding of the controller and
      the proofs of its specification.

    The C++ program (one translation unit) is embedded class by class.
    Every member function becomes a computation in a small monad [M S A]
    that threads the object it is called on ([S]), the process environment
    ([World]: the clock, the console, the lamp history) and the ways a C++
    call can end ([Outcome]: normal return, a thrown exception, undefined
    behaviour). A [while] loop whose number of iterations is not known
    beforehand is given a number of iterations it may use (fuel), and the
    call ends in [OutOfFuel] if they do not suffice.

    Modelling conventions, used throughout:
    - [int] is a 32-bit two's-complement integer; arithmetic wraps
      ([Int.wrap]), which is what the usual targets do on signed overflow.
    - [double] is IEEE 754 binary64 with round-to-nearest-even, taken from
      the executable specification [SpecFloat] of the Standard Library.
    - time is logical: [std::this_thread::sleep_for] advances the clock by
      exactly the requested duration and computation takes no time. The
      clock counts milliseconds.
    - [std::queue] is a list with its front at the head; [std::vector] is a
      list indexed from zero, an index out of range is undefined behaviour;
      [std::map] is a [gmap]. *)

From Stdlib Require Import ZArith NArith List String Bool Lia.
From Stdlib Require Import Floats.SpecFloat.
From stdpp Require Import base option list gmap strings.

Local Open Scope Z_scope.

(** ** Machine integers *)

Module Int.
Definition min_int : Z := - 2 ^ 31.
Definition max_int : Z := 2 ^ 31 - 1.

Definition in_range (z : Z) : Prop := min_int <= z <= max_int.

(** Reduction of a mathematical integer to the [int] it is stored as. *)
Definition wrap (z : Z) : Z := (z + 2 ^ 31) mod 2 ^ 32 - 2 ^ 31.

Definition add (a b : Z) : Z := wrap (a + b).
Definition sub (a b : Z) : Z := wrap (a - b).
Definition mul (a b : Z) : Z := wrap (a * b).
(** [a / b] on [int]: the quotient truncated towards zero. *)
Definition div (a b : Z) : Z := wrap (Z.quot a b).
End Int.

(** [std::clamp(v, lo, hi)] *)
Definition clamp (v lo hi : Z) : Z :=
  if v <? lo then lo else if hi <? v then hi else v.

(** ** Doubles *)

Module Double.
Definition prec : Z := 53.
Definition emax : Z := 1024.

Definition double : Type := spec_float.

(** Conversion of an integer to [double] (exact below [2^53]). *)
Definition of_Z (z : Z) : double := binary_normalize prec emax z 0 false.

Definition add : double -> double -> double := SFadd prec emax.
Definition mul : double -> double -> double := SFmul prec emax.
Definition div : double -> double -> double := SFdiv prec emax.
(** [x > y] *)
Definition gt (x y : double) : bool := SFltb y x.
End Double.
Abbreviation double := Double.double.

(** ** The enumerations *)

Inductive Direction := NORTH | EAST | SOUTH | WEST.
Inductive LightState := RED | YELLOW | GREEN.
Inductive PedestrianState := DONT_WALK | WALK.

Global Instance Direction_eq_dec : EqDecision Direction.
Proof. solve_decision. Defined.
Global Instance LightState_eq_dec : EqDecision LightState.
Proof. solve_decision. Defined.
Global Instance PedestrianState_eq_dec : EqDecision PedestrianState.
Proof. solve_decision. Defined.

(** The enumerator values: [NORTH = 0, EAST, SOUTH, WEST]. *)
Definition Direction_to_int (d : Direction) : Z :=
  match d with NORTH => 0 | EAST => 1 | SOUTH => 2 | WEST => 3 end.

(** [static_cast<Direction>(i)]; no enumerator has another value. *)
Definition Direction_of_int (i : Z) : option Direction :=
  match i with
  | 0 => Some NORTH | 1 => Some EAST | 2 => Some SOUTH | 3 => Some WEST
  | _ => None
  end.

Definition allDirections : list Direction := [NORTH; EAST; SOUTH; WEST].

Global Instance Direction_countable : Countable Direction.
Proof.
  refine (inj_countable' (fun d => Z.to_nat (Direction_to_int d))
            (fun n => match n with
                      | O => NORTH | 1%nat => EAST | 2%nat => SOUTH | _ => WEST
                      end) _).
  intros []; reflexivity.
Defined.

(** ** The process environment *)

(** What is streamed into [std::cout], one item per [<<]. *)
Inductive token :=
| Text (s : string)
| Num (z : Z)
| Real (x : double)
| Fixed
| SetPrecision (n : Z).

(** A lamp command: at logical time [at_time] the light with index
    [lamp] was switched to [colour]. The history is only ever appended to
    and never read by the program. *)
Record LampEvent := { at_time : Z; lamp : Z; colour : LightState }.

Record World := {
  clock : Z;                  (* std::chrono::system_clock, milliseconds *)
  console : list token;       (* std::cout *)
  lamps : list LampEvent      (* history of the writes to lightStates *)
}.

Definition ticks_per_second : Z := 1000.

(** The line feed that the source writes as a backslash followed by n. *)
Definition LF : string := String (Ascii.ascii_of_nat 10) EmptyString.

(** ** Outcomes and the monad of member functions *)

Inductive exception :=
| runtime_error (what : string)
| out_of_range (what : string).

Inductive Outcome (S A : Type) :=
| Returns (a : A) (s : S) (w : World)
| Throws (e : exception) (s : S) (w : World)
| Undefined
| OutOfFuel.
Arguments Returns {S A} a s w.
Arguments Throws {S A} e s w.
Arguments Undefined {S A}.
Arguments OutOfFuel {S A}.

Definition M (S A : Type) : Type := S -> World -> Outcome S A.

Definition ret {S A} (a : A) : M S A := fun s w => Returns a s w.

Definition bind {S A B} (m : M S A) (k : A -> M S B) : M S B :=
  fun s w =>
    match m s w with
    | Returns a s' w' => k a s' w'
    | Throws e s' w' => Throws e s' w'
    | Undefined => Undefined
    | OutOfFuel => OutOfFuel
    end.

Declare Scope prog_scope.
Delimit Scope prog_scope with prog.
Bind Scope prog_scope with M.
Notation "'let*' x := m 'in' k" := (bind m (fun x => k))
  (at level 10, x name, m at level 100, k at level 200) : prog_scope.
Notation "m ;; k" := (bind m (fun _ => k))
  (at level 100, k at level 200, right associativity) : prog_scope.
Local Open Scope prog_scope.

Definition get {S} : M S S := fun s w => Returns s s w.
Definition gets {S A} (f : S -> A) : M S A := fun s w => Returns (f s) s w.
Definition modify {S} (f : S -> S) : M S unit := fun s w => Returns tt (f s) w.
Definition throw {S A} (e : exception) : M S A := fun s w => Throws e s w.
Definition when {S} (b : bool) (m : M S unit) : M S unit :=
  if b then m else ret tt.

(** [std::chrono::system_clock::now()] *)
Definition system_clock_now {S} : M S Z := fun s w => Returns (clock w) s w.

(** [std::this_thread::sleep_for(ms)] *)
Definition sleep_for {S} (ms : Z) : M S unit :=
  fun s w =>
    Returns tt s {| clock := clock w + ms; console := console w; lamps := lamps w |}.

(** [std::cout << t1 << t2 << ...] *)
Definition cout {S} (ts : list token) : M S unit :=
  fun s w =>
    Returns tt s {| clock := clock w; console := console w ++ ts; lamps := lamps w |}.

(** A member function of a sub-object, reached through [view]; [view]
    fails where the C++ access is undefined. *)
Record Lens (S T : Type) := {
  view : S -> option T;
  update : T -> S -> S
}.
Arguments view {S T} _ _.
Arguments update {S T} _ _ _.

Definition call {S T A} (l : Lens S T) (m : M T A) : M S A :=
  fun s w =>
    match view l s with
    | None => Undefined
    | Some t =>
        match m t w with
        | Returns a t' w' => Returns a (update l t' s) w'
        | Throws e t' w' => Throws e (update l t' s) w'
        | Undefined => Undefined
        | OutOfFuel => OutOfFuel
        end
    end.

(** A member function called on a local object, on a temporary or on an
    argument: the object is not part of the state of the caller. *)
Definition call_on {S T A} (t : T) (m : M T A) : M S A :=
  fun s w =>
    match m t w with
    | Returns a _ w' => Returns a s w'
    | Throws e _ w' => Throws e s w'
    | Undefined => Undefined
    | OutOfFuel => OutOfFuel
    end.

(** A [for] loop whose body runs once for each element of [xs]. *)
Fixpoint for_each {S X} (xs : list X) (body : X -> M S unit) : M S unit :=
  match xs with
  | [] => ret tt
  | x :: xs' => body x;; for_each xs' body
  end.

(** ** class Vehicle *)

Module Vehicle.
Record t := mk {
  id : Z;
  emergency : bool;
  arrivalTime : Z           (* a time point of the clock *)
}.

(** [Vehicle(vehicleId, isEmergency)] *)
Definition new {S} (vehicleId : Z) (isEmergency : bool) : M S t :=
  let* now := system_clock_now in
  ret {| id := vehicleId; emergency := isEmergency; arrivalTime := now |}.

Definition getId : M t Z := gets id.
Definition isEmergencyVehicle : M t bool := gets emergency.

(** [duration_cast<seconds>(now - arrivalTime).count()], returned as [int] *)
Definition getWaitingTime : M t Z :=
  let* now := system_clock_now in
  let* arrival := gets arrivalTime in
  ret (Int.wrap (Z.quot (now - arrival) ticks_per_second)).
End Vehicle.
Abbreviation Vehicle := Vehicle.t.

(** ** class PedestrianSignal *)

Module PedestrianSignal.
Record t := mk {
  state : PedestrianState;
  request : bool
}.

(** [PedestrianSignal()] *)
Definition new : t := {| state := DONT_WALK; request := false |}.

Definition requestCrossing : M t unit :=
  modify (fun p => {| state := state p; request := true |}).
Definition grantCrossing : M t unit :=
  modify (fun p => {| state := WALK; request := request p |});;
  modify (fun p => {| state := state p; request := false |}).
Definition endCrossing : M t unit :=
  modify (fun p => {| state := DONT_WALK; request := request p |}).

Definition isRequested : M t bool := gets request.
Definition getState : M t PedestrianState := gets state.
End PedestrianSignal.
Abbreviation PedestrianSignal := PedestrianSignal.t.

(** ** class TrafficLane *)

Module TrafficLane.
Record t := mk {
  direction : Direction;
  vehicles : list Vehicle;   (* std::queue<Vehicle>, front first *)
  trafficDensity : Z
}.

Definition set_vehicles (q : list Vehicle) (l : t) : t :=
  {| direction := direction l; vehicles := q; trafficDensity := trafficDensity l |}.
Definition set_trafficDensity (d : Z) (l : t) : t :=
  {| direction := direction l; vehicles := vehicles l; trafficDensity := d |}.

(** [TrafficLane(dir)] *)
Definition new (dir : Direction) : t :=
  {| direction := dir; vehicles := []; trafficDensity := 5 |}.

Definition addVehicle (vehicle : Vehicle) : M t unit :=
  modify (fun l => set_vehicles (vehicles l ++ [vehicle]) l).

Definition hasVehicles : M t bool :=
  let* q := gets vehicles in
  ret (negb (bool_decide (q = []))).

(** [vehicles.size()] converted to [int] *)
Definition getQueueLength : M t Z :=
  let* q := gets vehicles in
  ret (Int.wrap (Z.of_nat (length q))).

Definition processVehicle : M t Vehicle :=
  let* q := gets vehicles in
  match q with
  | [] => throw (runtime_error "No vehicles to process")
  | v :: rest => modify (set_vehicles rest);; ret v
  end.

(** The loop of [getTotalWaitTime] over its local copy [temp]. *)
Fixpoint getTotalWaitTime_loop (temp : list Vehicle) (total : Z) : M t Z :=
  match temp with
  | [] => ret total
  | front :: temp' =>
      let* wt := call_on front Vehicle.getWaitingTime in
      getTotalWaitTime_loop temp' (Int.add total wt)
  end.

Definition getTotalWaitTime : M t Z :=
  let total := 0 in
  let* temp := gets vehicles in
  getTotalWaitTime_loop temp total.

Definition getAverageWaitTime : M t double :=
  let* q := gets vehicles in
  if bool_decide (q = []) then ret (Double.of_Z 0)
  else
    let* total := getTotalWaitTime in
    let* q := gets vehicles in
    ret (Double.div (Double.of_Z total) (Double.of_Z (Z.of_nat (length q)))).

Definition getDirection : M t Direction := gets direction.

Definition setTrafficDensity (d : Z) : M t unit :=
  modify (set_trafficDensity (clamp d 0 10)).

Definition getTrafficDensity : M t Z := gets trafficDensity.

(** The loop of [hasEmergencyVehicle] over its local copy [temp]. *)
Fixpoint hasEmergencyVehicle_loop (temp : list Vehicle) : M t bool :=
  match temp with
  | [] => ret false
  | front :: temp' =>
      let* e := call_on front Vehicle.isEmergencyVehicle in
      if e then ret true else hasEmergencyVehicle_loop temp'
  end.

Definition hasEmergencyVehicle : M t bool :=
  let* temp := gets vehicles in
  hasEmergencyVehicle_loop temp.
End TrafficLane.
Abbreviation TrafficLane := TrafficLane.t.

(** ** class TrafficSignal *)

Module TrafficSignal.
Record t := mk {
  lightStates : list LightState;     (* std::vector<LightState> *)
  currentGreenDirection : Z;
  baseGreenTime : Z;
  yellowTime : Z;
  minGreenTime : Z;
  maxGreenTime : Z
}.

Definition set_lightStates (ls : list LightState) (s : t) : t :=
  {| lightStates := ls; currentGreenDirection := currentGreenDirection s;
     baseGreenTime := baseGreenTime s; yellowTime := yellowTime s;
     minGreenTime := minGreenTime s; maxGreenTime := maxGreenTime s |}.
Definition set_currentGreenDirection (d : Z) (s : t) : t :=
  {| lightStates := lightStates s; currentGreenDirection := d;
     baseGreenTime := baseGreenTime s; yellowTime := yellowTime s;
     minGreenTime := minGreenTime s; maxGreenTime := maxGreenTime s |}.

(** [TrafficSignal()] *)
Definition new : t :=
  {| lightStates := replicate 4 RED; currentGreenDirection := -1;
     baseGreenTime := 20; yellowTime := 3; minGreenTime := 10; maxGreenTime := 60 |}.

(** [lightStates[i] = v]; the write is recorded in the lamp history. *)
Definition write_light (i : Z) (v : LightState) : M t unit :=
  fun s w =>
    if (0 <=? i) && (i <? Z.of_nat (length (lightStates s))) then
      Returns tt (set_lightStates (<[Z.to_nat i := v]> (lightStates s)) s)
        {| clock := clock w; console := console w;
           lamps := lamps w ++ [{| at_time := clock w; lamp := i; colour := v |}] |}
    else Undefined.

(** [lightStates[i]] as an rvalue *)
Definition read_light (i : Z) : M t LightState :=
  fun s w =>
    if 0 <=? i then
      match lightStates s !! Z.to_nat i with
      | Some v => Returns v s w
      | None => Undefined
      end
    else Undefined.

Definition changeLight (newGreenDir : Direction) : M t unit :=
  let* cur := gets currentGreenDirection in
  when (0 <=? cur) (write_light cur RED);;
  write_light (Direction_to_int newGreenDir) GREEN;;
  modify (set_currentGreenDirection (Direction_to_int newGreenDir)).

Definition setYellow : M t unit :=
  let* cur := gets currentGreenDirection in
  when (0 <=? cur) (write_light cur YELLOW).

Definition getLightState (dir : Direction) : M t LightState :=
  read_light (Direction_to_int dir).
Definition getCurrentGreenDirection : M t Z := gets currentGreenDirection.
Definition getYellowTime : M t Z := gets yellowTime.

Definition calculateAdaptiveGreenTime (lane : TrafficLane) : M t Z :=
  let* base := gets baseGreenTime in
  let* len := call_on lane TrafficLane.getQueueLength in
  let* density := call_on lane TrafficLane.getTrafficDensity in
  let time := Int.add (Int.add base (Int.mul len 2)) (Int.mul density 2) in
  let* lo := gets minGreenTime in
  let* hi := gets maxGreenTime in
  ret (clamp time lo hi).
End TrafficSignal.
Abbreviation TrafficSignal := TrafficSignal.t.

(** ** class IntersectionController *)

Module IntersectionController.
Record t := mk {
  lanes : list TrafficLane;                            (* std::vector<TrafficLane> *)
  pedestrianSignals : gmap Direction PedestrianSignal; (* std::map *)
  signal : TrafficSignal;
  rng : nat -> N;        (* std::mt19937: the outputs still to come *)
  vehicleCounter : Z;
  totalVehiclesProcessed : Z;
  totalWaitTime : Z;
  cycleCounter : Z
}.

Definition set_lanes (x : list TrafficLane) (c : t) : t :=
  mk x (pedestrianSignals c) (signal c) (rng c) (vehicleCounter c)
     (totalVehiclesProcessed c) (totalWaitTime c) (cycleCounter c).
Definition set_pedestrianSignals (x : gmap Direction PedestrianSignal) (c : t) : t :=
  mk (lanes c) x (signal c) (rng c) (vehicleCounter c)
     (totalVehiclesProcessed c) (totalWaitTime c) (cycleCounter c).
Definition set_signal (x : TrafficSignal) (c : t) : t :=
  mk (lanes c) (pedestrianSignals c) x (rng c) (vehicleCounter c)
     (totalVehiclesProcessed c) (totalWaitTime c) (cycleCounter c).
Definition set_rng (x : nat -> N) (c : t) : t :=
  mk (lanes c) (pedestrianSignals c) (signal c) x (vehicleCounter c)
     (totalVehiclesProcessed c) (totalWaitTime c) (cycleCounter c).
Definition set_vehicleCounter (x : Z) (c : t) : t :=
  mk (lanes c) (pedestrianSignals c) (signal c) (rng c) x
     (totalVehiclesProcessed c) (totalWaitTime c) (cycleCounter c).
Definition set_totalVehiclesProcessed (x : Z) (c : t) : t :=
  mk (lanes c) (pedestrianSignals c) (signal c) (rng c) (vehicleCounter c)
     x (totalWaitTime c) (cycleCounter c).
Definition set_totalWaitTime (x : Z) (c : t) : t :=
  mk (lanes c) (pedestrianSignals c) (signal c) (rng c) (vehicleCounter c)
     (totalVehiclesProcessed c) x (cycleCounter c).
Definition set_cycleCounter (x : Z) (c : t) : t :=
  mk (lanes c) (pedestrianSignals c) (signal c) (rng c) (vehicleCounter c)
     (totalVehiclesProcessed c) (totalWaitTime c) x.

(** [lanes[i]] *)
Definition lane_at (i : Z) : Lens t TrafficLane :=
  {| view := fun c => if 0 <=? i then lanes c !! Z.to_nat i else None;
     update := fun l c => set_lanes (<[Z.to_nat i := l]> (lanes c)) c |}.

(** [pedestrianSignals[d]]: a missing entry is default-constructed. *)
Definition ped_at (d : Direction) : Lens t PedestrianSignal :=
  {| view := fun c => Some (default PedestrianSignal.new (pedestrianSignals c !! d));
     update := fun p c => set_pedestrianSignals (<[d := p]> (pedestrianSignals c)) c |}.

(** [pedestrianSignals.at(d)] on the const map *)
Definition ped_at_const (d : Direction) : M t PedestrianSignal :=
  let* m := gets pedestrianSignals in
  match m !! d with
  | Some p => ret p
  | None => throw (out_of_range "map::at")
  end.

(** The keys of the map in the order a range-based [for] visits them. *)
Definition ped_keys (c : t) : list Direction :=
  filter (fun d => is_Some (pedestrianSignals c !! d)) allDirections.

Definition signal_ : Lens t TrafficSignal :=
  {| view := fun c => Some (signal c);
     update := fun s c => set_signal s c |}.

(** [IntersectionController()]; [entropy] is what the generator seeded
    from [std::random_device] is going to output. *)
Definition new (entropy : nat -> N) : t :=
  let c0 := mk [] ∅ TrafficSignal.new (fun _ => 0%N) 0 0 0 0 in
  let c4 :=
    foldl (fun c d =>
             set_pedestrianSignals (<[d := PedestrianSignal.new]> (pedestrianSignals c))
               (set_lanes (lanes c ++ [TrafficLane.new d]) c))
          c0 allDirections in
  set_rng entropy c4.

(** [rng()] *)
Definition rng_next : M t N :=
  let* g := gets rng in
  modify (set_rng (fun n => g (S n)));;
  ret (g O).

(** [std::uniform_int_distribution<int>(a, b)(rng)]. How the library maps
    generator outputs to the range is implementation-defined; here one
    output is consumed and reduced into [[a, b]]. *)
Definition uniform_int (a b : Z) : M t Z :=
  let* r := rng_next in
  ret (a + Z.of_N r mod (b - a + 1)).

Definition directionToString (d : Direction) : string :=
  match d with
  | NORTH => "North"
  | EAST => "East"
  | SOUTH => "South"
  | WEST => "West"
  end.

(** [directionToString(static_cast<Direction>(i))] *)
Definition directionToString_int (i : Z) : string :=
  match Direction_of_int i with
  | Some d => directionToString d
  | None => "Unknown"
  end.

Definition generateTraffic : M t unit :=
  let* n := gets (fun c => length (lanes c)) in
  for_each (seq 0 n) (fun i =>
    let lane := lane_at (Z.of_nat i) in
    let* dc := uniform_int 0 20 in
    (if dc =? 0 then
       let* r := rng_next in
       call lane (TrafficLane.setTrafficDensity (Int.wrap (Z.of_N (r mod 11))))
     else ret tt);;
    let* density := call lane TrafficLane.getTrafficDensity in
    let arrivalThreshold := Int.sub 10 density in
    let* a := uniform_int 0 10 in
    if arrivalThreshold <=? a then
      let* e := uniform_int 0 20 in
      let isEmergency := e =? 0 in
      modify (fun c => set_vehicleCounter (Int.add (vehicleCounter c) 1) c);;
      let* vid := gets vehicleCounter in
      let* v := Vehicle.new vid isEmergency in
      call lane (TrafficLane.addVehicle v)
    else ret tt);;
  let* keys := gets ped_keys in
  for_each keys (fun dir =>
    let* p := uniform_int 0 15 in
    when (p =? 0) (call (ped_at dir) PedestrianSignal.requestCrossing)).

(** The first loop of [findNextGreenDirection], over the lanes at the
    indices [idx]; [Some d] is its [return d]. *)
Fixpoint findNextGreenDirection_emergency (idx : list nat)
  : M t (option Direction) :=
  match idx with
  | [] => ret None
  | i :: rest =>
      let lane := lane_at (Z.of_nat i) in
      let* e := call lane TrafficLane.hasEmergencyVehicle in
      if e then
        let* d := call lane TrafficLane.getDirection in
        cout [Text "Emergency vehicle detected on ";
              Text (directionToString d); Text ("!" +:+ LF)];;
        let* d := call lane TrafficLane.getDirection in
        ret (Some d)
      else findNextGreenDirection_emergency rest
  end.

(** The second loop of [findNextGreenDirection], over the lanes at the
    indices [idx]. *)
Fixpoint findNextGreenDirection_score (idx : list nat)
    (maxScore : double) (best : Direction) : M t Direction :=
  match idx with
  | [] => ret best
  | i :: rest =>
      let lane := lane_at (Z.of_nat i) in
      let* hv := call lane TrafficLane.hasVehicles in
      if hv then
        let* len := call lane TrafficLane.getQueueLength in
        let* avg := call lane TrafficLane.getAverageWaitTime in
        let* density := call lane TrafficLane.getTrafficDensity in
        let score :=
          Double.mul (Double.mul (Double.of_Z len) avg)
            (Double.add (Double.of_Z 1)
               (Double.div (Double.of_Z density) (Double.of_Z 10))) in
        if Double.gt score maxScore then
          let* d := call lane TrafficLane.getDirection in
          findNextGreenDirection_score rest score d
        else findNextGreenDirection_score rest maxScore best
      else findNextGreenDirection_score rest maxScore best
  end.

Definition findNextGreenDirection : M t Direction :=
  let* n := gets (fun c => length (lanes c)) in
  let* r := findNextGreenDirection_emergency (seq 0 n) in
  match r with
  | Some d => ret d
  | None =>
      let maxScore := Double.of_Z (-1) in
      let best := NORTH in
      let* n := gets (fun c => length (lanes c)) in
      findNextGreenDirection_score (seq 0 n) maxScore best
  end.

(** The [while] loop of [processVehicles]; returns [passed]. The loop
    is given [fuel] iterations. *)
Fixpoint processVehicles_loop (fuel : nat) (dir : Direction)
    (canPass passed : Z) : M t Z :=
  match fuel with
  | O => fun _ _ => OutOfFuel
  | S fuel' =>
      let lane := lane_at (Direction_to_int dir) in
      let* continue :=
        (if passed <? canPass then call lane TrafficLane.hasVehicles
         else ret false) in
      if continue then
        let* v := call lane TrafficLane.processVehicle in
        let* vid := call_on v Vehicle.getId in
        let* em := call_on v Vehicle.isEmergencyVehicle in
        let* wt := call_on v Vehicle.getWaitingTime in
        cout [Text "Vehicle #"; Num vid;
              Text (if em then " (EMERGENCY)" else "");
              Text " passed from "; Text (directionToString dir);
              Text " after waiting "; Num wt; Text ("s" +:+ LF)];;
        modify (fun c => set_totalVehiclesProcessed
                           (Int.add (totalVehiclesProcessed c) 1) c);;
        let* wt := call_on v Vehicle.getWaitingTime in
        modify (fun c => set_totalWaitTime (Int.add (totalWaitTime c) wt) c);;
        processVehicles_loop fuel' dir canPass (Int.add passed 1)
      else ret passed
  end.

Definition processVehicles (fuel : nat) (dir : Direction) (greenTime : Z)
  : M t unit :=
  let canPass := Int.div greenTime 2 in
  let passed := 0 in
  let* passed := processVehicles_loop fuel dir canPass passed in
  cout [Text "Total vehicles passed: "; Num passed; Text LF].

Definition displayQueueStatus : M t unit :=
  cout [Text (LF +:+ "--- Queue Status ---" +:+ LF)];;
  let* n := gets (fun c => length (lanes c)) in
  for_each (seq 0 n) (fun i =>
    let lane := lane_at (Z.of_nat i) in
    let* d := call lane TrafficLane.getDirection in
    let* len := call lane TrafficLane.getQueueLength in
    let* avg := call lane TrafficLane.getAverageWaitTime in
    let* density := call lane TrafficLane.getTrafficDensity in
    cout [Text (directionToString d); Text ": "; Num len;
          Text " vehicles, Avg Wait: "; Fixed; SetPrecision 1;
          Real avg; Text "s, Density: "; Num density;
          Text ", Ped Request: "];;
    let* p := ped_at_const d in
    let* req := call_on p PedestrianSignal.isRequested in
    cout [Text (if req then "Yes" else "No"); Text LF]).

Definition displayStats : M t unit :=
  cout [Text (LF +:+ "--- Statistics ---" +:+ LF)];;
  let* n := gets totalVehiclesProcessed in
  cout [Text "Total Vehicles Processed: "; Num n; Text LF];;
  when (negb (n =? 0))
    (let* total := gets totalWaitTime in
     let* n := gets totalVehiclesProcessed in
     cout [Text "Average Wait Time: "; Fixed; SetPrecision 2;
           Real (Double.div (Double.of_Z total) (Double.of_Z n)); Text ("s" +:+ LF)]).

Definition processCycle (fuel : nat) : M t unit :=
  modify (fun c => set_cycleCounter (Int.add (cycleCounter c) 1) c);;
  let* n := gets cycleCounter in
  cout [Text (LF +:+ "=== Traffic Cycle #"); Num n; Text (" ===" +:+ LF)];;
  generateTraffic;;
  displayQueueStatus;;
  let* nextDir := findNextGreenDirection in
  let* cur := call signal_ TrafficSignal.getCurrentGreenDirection in
  when (0 <=? cur)
    (call signal_ TrafficSignal.setYellow;;
     let* cur := call signal_ TrafficSignal.getCurrentGreenDirection in
     cout [Text "Yellow light for "; Text (directionToString_int cur); Text LF];;
     let* y := call signal_ TrafficSignal.getYellowTime in
     sleep_for (y * ticks_per_second));;
  call signal_ (TrafficSignal.changeLight nextDir);;
  let* lane := call (lane_at (Direction_to_int nextDir)) get in
  let* greenTime := call signal_ (TrafficSignal.calculateAdaptiveGreenTime lane) in
  cout [Text "Green light for "; Text (directionToString nextDir);
        Text " ("; Num greenTime; Text ("s)" +:+ LF)];;
  let* req := call (ped_at nextDir) PedestrianSignal.isRequested in
  when req
    (call (ped_at nextDir) PedestrianSignal.grantCrossing;;
     cout [Text "Pedestrians WALK on "; Text (directionToString nextDir); Text LF];;
     sleep_for (3 * ticks_per_second);;
     call (ped_at nextDir) PedestrianSignal.endCrossing);;
  processVehicles fuel nextDir greenTime;;
  displayStats;;
  sleep_for 500.

(** The loop of [main]: [cycles] calls of [processCycle]. *)
Fixpoint run (fuel : nat) (cycles : nat) : M t unit :=
  match cycles with
  | O => ret tt
  | S n => processCycle fuel;; run fuel n
  end.

(** [main]: a controller and its twenty cycles. *)
Definition main (fuel : nat) (entropy : nat -> N) (w : World)
  : Outcome t unit :=
  let controller := new entropy in
  let cycles := 20%nat in
  run fuel cycles controller w.
End IntersectionController.
Abbreviation IntersectionController := IntersectionController.t.

(** * Vocabulary of the specification *)

(** How a call left the object it ran on, whether it returned or threw. *)
Definition final_state {S A} (o : Outcome S A) : option S :=
  match o with
  | Returns _ s _ => Some s
  | Throws _ s _ => Some s
  | Undefined => None
  | OutOfFuel => None
  end.

(** A call whose result is discarded. *)
Definition void {S A} (m : M S A) : M S unit := let* _ := m in ret tt.

(** What [Vehicle::getWaitingTime] returns while the clock shows [now]. *)
Definition waitingTime (now : Z) (v : Vehicle) : Z :=
  Int.wrap (Z.quot (now - Vehicle.arrivalTime v) ticks_per_second).

Definition sum_Z (zs : list Z) : Z := foldr Z.add 0 zs.

(** The waiting times of the vehicles of a lane, front first. *)
Definition waits (now : Z) (l : TrafficLane) : list Z :=
  map (waitingTime now) (TrafficLane.vehicles l).

(** Some enqueued vehicle has the emergency flag. *)
Definition has_emergency (l : TrafficLane) : bool :=
  existsb Vehicle.emergency (TrafficLane.vehicles l).

(** The specification's [averageWaitTime]: 0 if empty, else the sum of the
    waiting times divided by their number. *)
Definition spec_averageWaitTime (ws : list Z) : double :=
  match ws with
  | [] => Double.of_Z 0
  | _ :: _ => Double.div (Double.of_Z (sum_Z ws)) (Double.of_Z (Z.of_nat (length ws)))
  end.

(** The specification's priority score:
    [queueLength * averageWaitTime * (1 + density/10)]. *)
Definition spec_score (now : Z) (l : TrafficLane) : double :=
  Double.mul
    (Double.mul (Double.of_Z (Z.of_nat (length (TrafficLane.vehicles l))))
                (spec_averageWaitTime (waits now l)))
    (Double.add (Double.of_Z 1)
       (Double.div (Double.of_Z (TrafficLane.trafficDensity l)) (Double.of_Z 10))).

(** The specification's adaptive green time:
    [baseGreenTime + 2*queueLength + 2*density], clamped. *)
Definition spec_greenTime (l : TrafficLane) : Z :=
  clamp (20 + 2 * Z.of_nat (length (TrafficLane.vehicles l))
         + 2 * TrafficLane.trafficDensity l) 10 60.

(** A lane in which the quantities the code stores in an [int] fit one:
    the number of vehicles, each waiting time and their sum; no vehicle
    arrived after [now]; the density is in its range. *)
Record lane_ok (now : Z) (l : TrafficLane) : Prop := {
  ok_length : Z.of_nat (length (TrafficLane.vehicles l)) <= Int.max_int;
  ok_density : 0 <= TrafficLane.trafficDensity l <= 10;
  ok_arrival : Forall (fun v => Vehicle.arrivalTime v <= now) (TrafficLane.vehicles l);
  ok_total :
    sum_Z (map (fun v => Z.quot (now - Vehicle.arrivalTime v) ticks_per_second)
               (TrafficLane.vehicles l)) <= Int.max_int
}.

(** *** Lanes *)

(** The public member functions of [TrafficLane]. *)
Inductive lane_op :=
| OpAddVehicle (v : Vehicle)
| OpHasVehicles
| OpGetQueueLength
| OpProcessVehicle
| OpGetTotalWaitTime
| OpGetAverageWaitTime
| OpGetDirection
| OpSetTrafficDensity (d : Z)
| OpGetTrafficDensity
| OpHasEmergencyVehicle.

Definition lane_call (op : lane_op) : M TrafficLane unit :=
  match op with
  | OpAddVehicle v => TrafficLane.addVehicle v
  | OpHasVehicles => void TrafficLane.hasVehicles
  | OpGetQueueLength => void TrafficLane.getQueueLength
  | OpProcessVehicle => void TrafficLane.processVehicle
  | OpGetTotalWaitTime => void TrafficLane.getTotalWaitTime
  | OpGetAverageWaitTime => void TrafficLane.getAverageWaitTime
  | OpGetDirection => void TrafficLane.getDirection
  | OpSetTrafficDensity d => TrafficLane.setTrafficDensity d
  | OpGetTrafficDensity => void TrafficLane.getTrafficDensity
  | OpHasEmergencyVehicle => void TrafficLane.hasEmergencyVehicle
  end.

(** The lanes that exist: constructed, then used through member functions. *)
Inductive lane_reachable : TrafficLane -> Prop :=
| lane_new dir : lane_reachable (TrafficLane.new dir)
| lane_after op l w l' :
    lane_reachable l ->
    final_state (lane_call op l w) = Some l' ->
    lane_reachable l'.

(** [n] calls of [processVehicle], collecting what they return. *)
Fixpoint processVehicle_times (n : nat) : M TrafficLane (list Vehicle) :=
  match n with
  | O => ret []
  | S n' =>
      let* v := TrafficLane.processVehicle in
      let* vs := processVehicle_times n' in
      ret (v :: vs)
  end.

(** *** Signals *)

(** The light of a direction, where the vector has one. *)
Definition light (s : TrafficSignal) (d : Direction) : option LightState :=
  TrafficSignal.lightStates s !! Z.to_nat (Direction_to_int d).

(** The directions whose light is green. *)
Definition greens (s : TrafficSignal) : list Direction :=
  filter (fun d => light s d = Some GREEN) allDirections.

Inductive signal_reachable : TrafficSignal -> Prop :=
| signal_new : signal_reachable TrafficSignal.new
| signal_changeLight d s w s' w' :
    signal_reachable s ->
    TrafficSignal.changeLight d s w = Returns tt s' w' ->
    signal_reachable s'
| signal_setYellow s w s' w' :
    signal_reachable s ->
    TrafficSignal.setYellow s w = Returns tt s' w' ->
    signal_reachable s'.

(** What every reachable signal satisfies: four lights, the green
    direction is none or one of them, only it can be green, and the
    configured times are the constructor's. *)
Record signal_inv (s : TrafficSignal) : Prop := {
  inv_lights : length (TrafficSignal.lightStates s) = 4%nat;
  inv_current : -1 <= TrafficSignal.currentGreenDirection s < 4;
  inv_green : forall d, light s d = Some GREEN ->
                        TrafficSignal.currentGreenDirection s = Direction_to_int d;
  inv_base : TrafficSignal.baseGreenTime s = 20;
  inv_yellow : TrafficSignal.yellowTime s = 3;
  inv_min : TrafficSignal.minGreenTime s = 10;
  inv_max : TrafficSignal.maxGreenTime s = 60
}.

(** *** Controllers *)

Inductive controller_reachable : IntersectionController -> Prop :=
| controller_new entropy : controller_reachable (IntersectionController.new entropy)
| controller_cycle fuel c w c' w' :
    controller_reachable c ->
    IntersectionController.processCycle fuel c w = Returns tt c' w' ->
    controller_reachable c'.

(** A lane that can stand at index [i] of the vector of lanes: its
    density is in range and its direction is the [i]-th one. *)
Definition lane_fits (i : nat) (l : TrafficLane) : Prop :=
  0 <= TrafficLane.trafficDensity l <= 10 /\
  allDirections !! i = Some (TrafficLane.direction l).

Record controller_inv (c : IntersectionController) : Prop := {
  inv_lanes : length (IntersectionController.lanes c) = 4%nat;
  inv_peds : forall d, is_Some (IntersectionController.pedestrianSignals c !! d);
  inv_signal : signal_inv (IntersectionController.signal c);
  inv_lane :
    forall i l, IntersectionController.lanes c !! i = Some l -> lane_fits i l
}.

(** The console lines of one vehicle passing in direction [dir]. *)
Definition passed_message (now : Z) (dir : Direction) (v : Vehicle) : list token :=
  [Text "Vehicle #"; Num (Vehicle.id v);
   Text (if Vehicle.emergency v then " (EMERGENCY)" else "");
   Text " passed from "; Text (IntersectionController.directionToString dir);
   Text " after waiting "; Num (waitingTime now v); Text ("s" +:+ LF)].

Definition emergency_message (d : Direction) : list token :=
  [Text "Emergency vehicle detected on ";
   Text (IntersectionController.directionToString d); Text ("!" +:+ LF)].

Definition with_console (ts : list token) (w : World) : World :=
  {| clock := clock w; console := console w ++ ts; lamps := lamps w |}.

(** What one call can do to a lane: nothing, a vehicle more at the tail,
    the head vehicle removed, or a new density. *)
Inductive lane_change (l : TrafficLane) : TrafficLane -> Prop :=
| change_none : lane_change l l
| change_push v :
    lane_change l (TrafficLane.set_vehicles (TrafficLane.vehicles l ++ [v]) l)
| change_pop v q :
    TrafficLane.vehicles l = v :: q ->
    lane_change l (TrafficLane.set_vehicles q l)
| change_density d :
    lane_change l (TrafficLane.set_trafficDensity (clamp d 0 10) l).

(** The state and the lamp commands of [changeLight]. *)
Definition after_changeLight (d : Direction) (s : TrafficSignal) : TrafficSignal :=
  let cur := TrafficSignal.currentGreenDirection s in
  let ls := if 0 <=? cur then <[Z.to_nat cur := RED]> (TrafficSignal.lightStates s)
            else TrafficSignal.lightStates s in
  TrafficSignal.set_currentGreenDirection (Direction_to_int d)
    (TrafficSignal.set_lightStates (<[Z.to_nat (Direction_to_int d) := GREEN]> ls) s).

Definition changeLight_commands (d : Direction) (s : TrafficSignal) (now : Z)
  : list LampEvent :=
  let cur := TrafficSignal.currentGreenDirection s in
  (if 0 <=? cur then [{| at_time := now; lamp := cur; colour := RED |}] else [])
  ++ [{| at_time := now; lamp := Direction_to_int d; colour := GREEN |}].

Definition after_setYellow (s : TrafficSignal) : TrafficSignal :=
  let cur := TrafficSignal.currentGreenDirection s in
  if 0 <=? cur
  then TrafficSignal.set_lightStates (<[Z.to_nat cur := YELLOW]> (TrafficSignal.lightStates s)) s
  else s.

Definition setYellow_commands (s : TrafficSignal) (now : Z) : list LampEvent :=
  let cur := TrafficSignal.currentGreenDirection s in
  if 0 <=? cur then [{| at_time := now; lamp := cur; colour := YELLOW |}] else [].

Definition with_lamps (es : list LampEvent) (w : World) : World :=
  {| clock := clock w; console := console w; lamps := lamps w ++ es |}.

Definition is_nan (x : double) : bool :=
  match x with S754_nan => true | _ => false end.

(** A double that is [+0], positive and finite, or [+inf]. *)
Definition nonneg (x : double) : bool :=
  match x with
  | S754_zero false | S754_finite false _ _ | S754_infinity false => true
  | _ => false
  end.


(** The score that the second loop of [findNextGreenDirection] computes
    for a lane while the clock shows [now]. *)
Definition lane_score (now : Z) (l : TrafficLane) : double :=
  let len := Int.wrap (Z.of_nat (length (TrafficLane.vehicles l))) in
  let avg :=
    match TrafficLane.vehicles l with
    | [] => Double.of_Z 0
    | _ :: _ =>
        Double.div (Double.of_Z (Int.wrap (sum_Z (waits now l))))
                   (Double.of_Z (Z.of_nat (length (TrafficLane.vehicles l))))
    end in
  Double.mul (Double.mul (Double.of_Z len) avg)
    (Double.add (Double.of_Z 1)
       (Double.div (Double.of_Z (TrafficLane.trafficDensity l)) (Double.of_Z 10))).

(** The direction the second loop of [findNextGreenDirection] ends with. *)
Fixpoint pick_best (now : Z) (ls : list TrafficLane) (maxScore : double)
    (best : Direction) : Direction :=
  match ls with
  | [] => best
  | lane :: rest =>
      if negb (bool_decide (TrafficLane.vehicles lane = [])) then
        if Double.gt (lane_score now lane) maxScore
        then pick_best now rest (lane_score now lane) (TrafficLane.direction lane)
        else pick_best now rest maxScore best
      else pick_best now rest maxScore best
  end.

Definition scenario_world : World := {| clock := 100000; console := []; lamps := [] |}.

(** A vehicle that has been waiting [wait] seconds in [scenario_world]. *)
Definition waiting (vid : Z) (isEmergency : bool) (wait : Z) : Vehicle :=
  {| Vehicle.id := vid; Vehicle.emergency := isEmergency;
     Vehicle.arrivalTime := 100000 - wait * 1000 |}.

Definition with_lanes (ls : list TrafficLane) : IntersectionController :=
  IntersectionController.set_lanes ls (IntersectionController.new (fun _ => 0%N)).

(** Scenario A: North holds three vehicles that waited 4, 10 and 2. *)
Definition scenario_A : IntersectionController :=
  with_lanes
    [TrafficLane.mk NORTH [waiting 1 false 4; waiting 2 false 10; waiting 3 false 2] 5;
     TrafficLane.new EAST; TrafficLane.new SOUTH; TrafficLane.new WEST].

(** Scenario B: East holds one emergency vehicle, North scores 100. *)
Definition scenario_B : IntersectionController :=
  with_lanes
    [TrafficLane.mk NORTH [waiting 1 false 50; waiting 2 false 50] 0;
     TrafficLane.mk EAST [waiting 3 true 0] 5;
     TrafficLane.new SOUTH; TrafficLane.new WEST].

(** The controller after the vehicles [passed] left the lane [lane] of
    direction [dir], which keeps the vehicles [rest]. *)
Definition drained (now : Z) (dir : Direction) (passed rest : list Vehicle)
    (lane : TrafficLane) (c : IntersectionController) : IntersectionController :=
  IntersectionController.mk
    (<[Z.to_nat (Direction_to_int dir) := TrafficLane.set_vehicles rest lane]>
       (IntersectionController.lanes c))
    (IntersectionController.pedestrianSignals c)
    (IntersectionController.signal c)
    (IntersectionController.rng c)
    (IntersectionController.vehicleCounter c)
    (fold_left (fun n _ => Int.add n 1) passed
               (IntersectionController.totalVehiclesProcessed c))
    (fold_left (fun t v => Int.add t (waitingTime now v)) passed
               (IntersectionController.totalWaitTime c))
    (IntersectionController.cycleCounter c).

(** [wp oof m s w Q]: the call [m] on [s] in [w] returns and its result
    satisfies [Q]; it neither throws nor is undefined. With [oof := True]
    it may also run out of fuel, with [oof := False] it may not. *)
Definition wp {S A} (oof : Prop) (m : M S A) (s : S) (w : World)
    (Q : A -> S -> World -> Prop) : Prop :=
  match m s w with
  | Returns a s' w' => Q a s' w'
  | Throws _ _ _ => False
  | Undefined => False
  | OutOfFuel => oof
  end.

(** The lamp commands of one cycle that starts at [now] with the signal
    [s] and turns [d] green: those of [setYellow], then, after the yellow
    hold if a direction was green, those of [changeLight]. *)
Definition cycle_commands (s : TrafficSignal) (d : Direction) (now : Z)
  : list LampEvent :=
  setYellow_commands s now
  ++ changeLight_commands d (after_setYellow s)
       (if 0 <=? TrafficSignal.currentGreenDirection s
        then now + TrafficSignal.yellowTime s * ticks_per_second
        else now).

(** *** Time *)

(** No vehicle of the lane arrived after [now]. *)
Definition lane_arrived (now : Z) (l : TrafficLane) : Prop :=
  Forall (fun v => Vehicle.arrivalTime v <= now) (TrafficLane.vehicles l).

(** No vehicle of the controller arrived after [now]. *)
Definition arrived (now : Z) (c : IntersectionController) : Prop :=
  Forall (lane_arrived now) (IntersectionController.lanes c).

(** From [c] in [w] to [c'] in [w'] the clock did not run backwards, and
    no vehicle of [c'] arrived after the clock of [w'] if none of [c]
    arrived after that of [w]. The yellow time, which the clock is
    advanced by, is to remain non-negative. *)
Definition time_passes (c : IntersectionController) (w : World)
    (c' : IntersectionController) (w' : World) : Prop :=
  0 <= TrafficSignal.yellowTime (IntersectionController.signal c) ->
  0 <= TrafficSignal.yellowTime (IntersectionController.signal c') /\
  clock w <= clock w' /\
  (arrived (clock w) c -> arrived (clock w') c').

(** A computation on the controller during which time only passes. *)
Definition forward {A} (m : M IntersectionController A) : Prop :=
  forall c w a c' w', m c w = Returns a c' w' -> time_passes c w c' w'.

(** A member function of a lane that lets no time pass and adds no vehicle. *)
Definition lane_keeps {A} (m : M TrafficLane A) : Prop :=
  forall l w a l' w',
    m l w = Returns a l' w' ->
    clock w' = clock w /\ TrafficLane.vehicles l' ⊆ TrafficLane.vehicles l.

(** A member function of the signal that lets no time pass and keeps the
    yellow time. *)
Definition signal_keeps {A} (m : M TrafficSignal A) : Prop :=
  forall s w a s' w',
    m s w = Returns a s' w' ->
    clock w' = clock w /\ TrafficSignal.yellowTime s' = TrafficSignal.yellowTime s.

(** A computation that lets no time pass, whatever it runs on. *)
Definition instant {S A} (m : M S A) : Prop :=
  forall s w a s' w', m s w = Returns a s' w' -> clock w' = clock w.

(** The statements of [processCycle] that precede the selection of the
    next green direction. *)
Definition cycle_prologue : M IntersectionController unit :=
  modify (fun c => IntersectionController.set_cycleCounter
                     (Int.add (IntersectionController.cycleCounter c) 1) c);;
  let* n := gets IntersectionController.cycleCounter in
  cout [Text (LF +:+ "=== Traffic Cycle #"); Num n; Text (" ===" +:+ LF)];;
  IntersectionController.generateTraffic;;
  IntersectionController.displayQueueStatus.

(** The controller and its environment between two cycles of a run. *)
Inductive system_reachable : IntersectionController -> World -> Prop :=
| system_new entropy w : system_reachable (IntersectionController.new entropy) w
| system_cycle fuel c w c' w' :
    system_reachable c w ->
    IntersectionController.processCycle fuel c w = Returns tt c' w' ->
    system_reachable c' w'.

(** What every reachable signal satisfies besides [signal_inv]: only the
    light of the current green direction can differ from red, and that one
    is green or yellow. *)
Record lights_inv (s : TrafficSignal) : Prop := {
  lights_others :
    forall d, Direction_to_int d <> TrafficSignal.currentGreenDirection s ->
              light s d = Some RED;
  lights_current :
    forall d, Direction_to_int d = TrafficSignal.currentGreenDirection s ->
              light s d = Some GREEN \/ light s d = Some YELLOW
}.

(** The body of the first loop of [generateTraffic], for the lane at
    index [i]. *)
Definition generateTraffic_lane (i : nat) : M IntersectionController unit :=
  let lane := IntersectionController.lane_at (Z.of_nat i) in
  let* dc := IntersectionController.uniform_int 0 20 in
  (if dc =? 0 then
     let* r := IntersectionController.rng_next in
     call lane (TrafficLane.setTrafficDensity (Int.wrap (Z.of_N (r mod 11))))
   else ret tt);;
  let* density := call lane TrafficLane.getTrafficDensity in
  let arrivalThreshold := Int.sub 10 density in
  let* a := IntersectionController.uniform_int 0 10 in
  if arrivalThreshold <=? a then
    let* e := IntersectionController.uniform_int 0 20 in
    let isEmergency := e =? 0 in
    modify (fun c => IntersectionController.set_vehicleCounter
                       (Int.add (IntersectionController.vehicleCounter c) 1) c);;
    let* vid := gets IntersectionController.vehicleCounter in
    let* v := Vehicle.new vid isEmergency in
    call lane (TrafficLane.addVehicle v)
  else ret tt.

(** The body of its second loop, for the pedestrian signal of [dir]. *)
Definition generateTraffic_ped (dir : Direction) : M IntersectionController unit :=
  let* p := IntersectionController.uniform_int 0 15 in
  when (p =? 0)
    (call (IntersectionController.ped_at dir) PedestrianSignal.requestCrossing).

(** What one pass of [generateTraffic] does to a lane while the vehicle
    counter is [n]: the density becomes (or stays) a number of [[0,10]],
    and either no vehicle arrives, which a density of 10 excludes, or one
    is appended that is constructed now and takes the next identifier. *)
Inductive arrival (now n : Z) (l : TrafficLane) : Z -> TrafficLane -> Prop :=
| arrival_none d :
    0 <= d < 10 ->
    arrival now n l n (TrafficLane.set_trafficDensity d l)
| arrival_one d e :
    0 <= d <= 10 ->
    arrival now n l (Int.add n 1)
      (TrafficLane.set_vehicles
         (TrafficLane.vehicles l ++ [Vehicle.mk (Int.add n 1) e now])
         (TrafficLane.set_trafficDensity d l)).

(** The same for the lanes in their order, the counter going from [n] to
    [n']. *)
Inductive arrivals (now : Z) : Z -> list TrafficLane -> Z -> list TrafficLane -> Prop :=
| arrivals_nil n : arrivals now n [] n []
| arrivals_cons n l n1 l' ls n' ls' :
    arrival now n l n1 l' ->
    arrivals now n1 ls n' ls' ->
    arrivals now n (l :: ls) n' (l' :: ls').

(** What [generateTraffic] does to the pedestrian signal of a direction:
    nothing, or it records a request. *)
Definition requested_more (p p' : option PedestrianSignal) : Prop :=
  match p, p' with
  | Some p, Some p' =>
      PedestrianSignal.state p' = PedestrianSignal.state p /\
      (PedestrianSignal.request p = true -> PedestrianSignal.request p' = true)
  | None, None => True
  | _, _ => False
  end.

(** The controller [c'] that [generateTraffic] makes of [c] at the
    instant [now]. *)
Record traffic_generated (now : Z) (c c' : IntersectionController) : Prop := {
  tg_lanes :
    arrivals now (IntersectionController.vehicleCounter c) (IntersectionController.lanes c)
             (IntersectionController.vehicleCounter c') (IntersectionController.lanes c');
  tg_peds :
    forall d, requested_more (IntersectionController.pedestrianSignals c !! d)
                             (IntersectionController.pedestrianSignals c' !! d);
  tg_signal : IntersectionController.signal c' = IntersectionController.signal c;
  tg_processed :
    IntersectionController.totalVehiclesProcessed c' =
    IntersectionController.totalVehiclesProcessed c;
  tg_wait :
    IntersectionController.totalWaitTime c' = IntersectionController.totalWaitTime c;
  tg_cycle :
    IntersectionController.cycleCounter c' = IntersectionController.cycleCounter c
}.

(** The direction that [findNextGreenDirection] returns on [c] at the
    instant [now]. *)
Definition selected (now : Z) (c : IntersectionController) : Direction :=
  match find has_emergency (IntersectionController.lanes c) with
  | Some l => TrafficLane.direction l
  | None => pick_best now (IntersectionController.lanes c) (Double.of_Z (-1)) NORTH
  end.

(** The green time that [calculateAdaptiveGreenTime] gives a lane with
    the configured times of the constructor. *)
Definition green_time (lane : TrafficLane) : Z :=
  clamp (Int.wrap (20 + 2 * Z.of_nat (length (TrafficLane.vehicles lane))
                   + 2 * TrafficLane.trafficDensity lane)) 10 60.

(** The number of vehicles that leave a lane in the cycle that selected it. *)
Definition leaving (lane : TrafficLane) : nat :=
  Z.to_nat (Z.min (Z.quot (green_time lane) 2)
                  (Z.of_nat (length (TrafficLane.vehicles lane)))).

(** The pedestrian signal of [d], as [pedestrianSignals[d]] finds it. *)
Definition ped_of (c : IntersectionController) (d : Direction) : PedestrianSignal :=
  default PedestrianSignal.new (IntersectionController.pedestrianSignals c !! d).

(** The time a cycle holds the yellow light, and the time it lets
    pedestrians cross in the direction [d]. *)
Definition yellow_hold (c : IntersectionController) : Z :=
  if 0 <=? TrafficSignal.currentGreenDirection (IntersectionController.signal c)
  then TrafficSignal.yellowTime (IntersectionController.signal c) * ticks_per_second
  else 0.

Definition crossing_hold (c : IntersectionController) (d : Direction) : Z :=
  if PedestrianSignal.request (ped_of c d) then 3 * ticks_per_second else 0.

(** A pedestrian signal after the cycle that selected its direction. *)
Definition crossed (p : PedestrianSignal) : PedestrianSignal :=
  if PedestrianSignal.request p
  then {| PedestrianSignal.state := DONT_WALK; PedestrianSignal.request := false |}
  else p.

(** The controller at the end of the cycle that started at [now], found
    the controller [c1] after the traffic was generated, selected [d] and
    so drained [lane]. *)
Definition cycle_end (now : Z) (d : Direction) (lane : TrafficLane)
    (c1 : IntersectionController) : IntersectionController :=
  drained (now + yellow_hold c1 + crossing_hold c1 d) d
    (take (leaving lane) (TrafficLane.vehicles lane))
    (drop (leaving lane) (TrafficLane.vehicles lane)) lane
    (IntersectionController.set_pedestrianSignals
       (<[d := crossed (ped_of c1 d)]> (IntersectionController.pedestrianSignals c1))
       (IntersectionController.set_signal
          (after_changeLight d (after_setYellow (IntersectionController.signal c1))) c1)).

(** No pedestrian signal of the controller shows WALK. *)
Definition peds_idle (c : IntersectionController) : Prop :=
  forall d p,
    IntersectionController.pedestrianSignals c !! d = Some p ->
    PedestrianSignal.state p = DONT_WALK.

(** The number of vehicles queued in the lanes [ls]. *)
Definition queued (ls : list TrafficLane) : Z :=
  sum_Z (map (fun l => Z.of_nat (length (TrafficLane.vehicles l))) ls).

(** The vehicles queued in the lanes [ls], lane after lane. *)
Definition queued_vehicles (ls : list TrafficLane) : list Vehicle :=
  concat (map TrafficLane.vehicles ls).

(** The identifiers of the vehicles [vs] are distinct and among the
    values 1 to [n] that the vehicle counter has taken. *)
Definition ids_fresh (n : Z) (vs : list Vehicle) : Prop :=
  Forall (fun v => 1 <= Vehicle.id v <= n) vs /\ NoDup (Vehicle.id <$> vs).


(** The selection of a cycle from [c] in [w]: [c1] is the controller as
    the statements of [processCycle] before the call of
    [findNextGreenDirection] leave it, and [d] is the direction that this
    call returns. *)
Definition cycle_selects (c : IntersectionController) (w : World)
    (c1 : IntersectionController) (d : Direction) : Prop :=
  exists w1 w2,
    cycle_prologue c w = Returns tt c1 w1 /\
    IntersectionController.findNextGreenDirection c1 w1 = Returns d c1 w2.

(** The random numbers of a run in which a vehicle arrives on every lane
    in every cycle. In the first cycle the vehicle of North is an
    emergency vehicle and pedestrians request North, East and South; in
    the second cycle the vehicle of East is an emergency vehicle. *)
Definition scenario_entropy (n : nat) : N :=
  match n with
  | 2%nat | 12%nat | 13%nat | 14%nat | 21%nat => 0%N
  | _ => 5%N
  end.

Definition scenario_run : IntersectionController :=
  IntersectionController.new scenario_entropy.

(** The controller and the world of that run after its first cycle. *)
Definition scenario_cycle2 : IntersectionController * World :=
  match IntersectionController.processCycle 31 scenario_run scenario_world with
  | Returns _ c w => (c, w)
  | _ => (scenario_run, scenario_world)
  end.

(** The same when the second cycle is about to select a direction. *)
Definition scenario_selection2 : IntersectionController * World :=
  match cycle_prologue scenario_cycle2.1 scenario_cycle2.2 with
  | Returns _ c w => (c, w)
  | _ => scenario_cycle2
  end.

(** * Proofs *)

(** ** Machine integers *)

Lemma wrap_id z : Int.in_range z -> Int.wrap z = z.
Proof.
  unfold Int.in_range, Int.min_int, Int.max_int, Int.wrap. intros H.
  rewrite Z.mod_small by lia. lia.
Qed.

Lemma wrap_range z : Int.in_range (Int.wrap z).
Proof.
  unfold Int.in_range, Int.min_int, Int.max_int, Int.wrap.
  pose proof (Z.mod_pos_bound (z + 2 ^ 31) (2 ^ 32) ltac:(lia)). lia.
Qed.

Lemma wrap_add_l a b : Int.wrap (Int.wrap a + b) = Int.wrap (a + b).
Proof.
  unfold Int.wrap. f_equal.
  replace ((a + 2 ^ 31) mod 2 ^ 32 - 2 ^ 31 + b + 2 ^ 31)
    with ((a + 2 ^ 31) mod 2 ^ 32 + b) by lia.
  rewrite Zplus_mod_idemp_l. f_equal. lia.
Qed.

Lemma wrap_add_r a b : Int.wrap (a + Int.wrap b) = Int.wrap (a + b).
Proof. rewrite Z.add_comm, wrap_add_l. f_equal. lia. Qed.

Lemma wrap_mul_l a b : Int.wrap (Int.wrap a * b) = Int.wrap (a * b).
Proof.
  unfold Int.wrap. f_equal.
  replace (((a + 2 ^ 31) mod 2 ^ 32 - 2 ^ 31) * b + 2 ^ 31)
    with ((a + 2 ^ 31) mod 2 ^ 32 * b + (2 ^ 31 - 2 ^ 31 * b)) by lia.
  rewrite <- Zplus_mod_idemp_l, Zmult_mod_idemp_l, Zplus_mod_idemp_l.
  f_equal. lia.
Qed.

Lemma clamp_bounds v lo hi : lo <= hi -> lo <= clamp v lo hi <= hi.
Proof. unfold clamp. intros H. repeat case_match; lia. Qed.

(** ** Lanes *)

Lemma getWaitingTime_run v w :
  Vehicle.getWaitingTime v w = Returns (waitingTime (clock w) v) v w.
Proof. reflexivity. Qed.

Lemma hasVehicles_run l w :
  TrafficLane.hasVehicles l w =
  Returns (negb (bool_decide (TrafficLane.vehicles l = []))) l w.
Proof. reflexivity. Qed.

Lemma getQueueLength_run l w :
  TrafficLane.getQueueLength l w =
  Returns (Int.wrap (Z.of_nat (length (TrafficLane.vehicles l)))) l w.
Proof. reflexivity. Qed.

Lemma addVehicle_run v l w :
  TrafficLane.addVehicle v l w =
  Returns tt (TrafficLane.set_vehicles (TrafficLane.vehicles l ++ [v]) l) w.
Proof. reflexivity. Qed.

Lemma setTrafficDensity_run d l w :
  TrafficLane.setTrafficDensity d l w =
  Returns tt (TrafficLane.set_trafficDensity (clamp d 0 10) l) w.
Proof. reflexivity. Qed.

Lemma processVehicle_front v q l w :
  TrafficLane.vehicles l = v :: q ->
  TrafficLane.processVehicle l w = Returns v (TrafficLane.set_vehicles q l) w.
Proof.
  intros Hq. unfold TrafficLane.processVehicle, bind, gets. now rewrite Hq.
Qed.

Lemma processVehicle_empty l w :
  TrafficLane.vehicles l = [] ->
  TrafficLane.processVehicle l w =
  Throws (runtime_error "No vehicles to process") l w.
Proof.
  intros Hq. unfold TrafficLane.processVehicle, bind, gets. now rewrite Hq.
Qed.

Lemma getTotalWaitTime_loop_run temp :
  forall total l w,
    TrafficLane.getTotalWaitTime_loop temp total l w =
    Returns (fold_left (fun acc v => Int.add acc (waitingTime (clock w) v)) temp total) l w.
Proof.
  induction temp as [|v temp IH]; intros total l w; [reflexivity|].
  cbn. unfold bind, call_on. cbn. now rewrite IH.
Qed.

Lemma fold_add_wrap now temp :
  forall total,
    Int.wrap total = total ->
    fold_left (fun acc v => Int.add acc (waitingTime now v)) temp total =
    Int.wrap (total + sum_Z (map (waitingTime now) temp)).
Proof.
  induction temp as [|v temp IH]; intros total Ht; cbn.
  - now rewrite Z.add_0_r.
  - rewrite IH.
    + unfold Int.add. rewrite wrap_add_l. f_equal. unfold sum_Z. lia.
    + unfold Int.add. apply wrap_id, wrap_range.
Qed.

Lemma getTotalWaitTime_run l w :
  TrafficLane.getTotalWaitTime l w =
  Returns (Int.wrap (sum_Z (waits (clock w) l))) l w.
Proof.
  unfold TrafficLane.getTotalWaitTime, bind, gets.
  rewrite getTotalWaitTime_loop_run, fold_add_wrap by reflexivity.
  reflexivity.
Qed.

Lemma getAverageWaitTime_run l w :
  TrafficLane.getAverageWaitTime l w =
  Returns
    (match TrafficLane.vehicles l with
     | [] => Double.of_Z 0
     | _ :: _ =>
         Double.div (Double.of_Z (Int.wrap (sum_Z (waits (clock w) l))))
                    (Double.of_Z (Z.of_nat (length (TrafficLane.vehicles l))))
     end) l w.
Proof.
  unfold TrafficLane.getAverageWaitTime, bind, gets.
  destruct (TrafficLane.vehicles l) as [|v q] eqn:Hq; [reflexivity|].
  rewrite bool_decide_eq_false_2 by discriminate.
  rewrite getTotalWaitTime_run. now rewrite Hq.
Qed.

Lemma hasEmergencyVehicle_loop_run temp :
  forall l w,
    TrafficLane.hasEmergencyVehicle_loop temp l w =
    Returns (existsb Vehicle.emergency temp) l w.
Proof.
  induction temp as [|v temp IH]; intros l w; [reflexivity|].
  cbn. unfold bind, call_on. cbn.
  destruct (Vehicle.emergency v); [reflexivity|apply IH].
Qed.

Lemma hasEmergencyVehicle_run l w :
  TrafficLane.hasEmergencyVehicle l w = Returns (has_emergency l) l w.
Proof.
  unfold TrafficLane.hasEmergencyVehicle, bind, gets.
  apply hasEmergencyVehicle_loop_run.
Qed.

Lemma lane_call_change op l w l' :
  final_state (lane_call op l w) = Some l' -> lane_change l l'.
Proof.
  destruct op; unfold lane_call, void, bind;
    rewrite ?hasVehicles_run, ?getQueueLength_run, ?getTotalWaitTime_run,
      ?getAverageWaitTime_run, ?hasEmergencyVehicle_run, ?addVehicle_run;
    try (cbn; intros [= <-]; constructor).
  destruct (TrafficLane.vehicles l) as [|v q] eqn:Hq.
  - rewrite processVehicle_empty by assumption. intros [= <-]. constructor.
  - rewrite (processVehicle_front v q) by assumption. intros [= <-].
    now apply change_pop with v.
Qed.

Lemma set_vehicles_same l : TrafficLane.set_vehicles (TrafficLane.vehicles l) l = l.
Proof. now destruct l. Qed.

Lemma for_each_addVehicle vs :
  forall l w,
    for_each vs TrafficLane.addVehicle l w =
    Returns tt (TrafficLane.set_vehicles (TrafficLane.vehicles l ++ vs) l) w.
Proof.
  induction vs as [|v vs IH]; intros l w; cbn [for_each].
  - unfold ret. now rewrite app_nil_r, set_vehicles_same.
  - unfold bind. rewrite addVehicle_run, IH. cbn. now rewrite <- app_assoc.
Qed.

Lemma processVehicle_times_run n :
  forall l w,
    (n <= length (TrafficLane.vehicles l))%nat ->
    processVehicle_times n l w =
    Returns (take n (TrafficLane.vehicles l))
            (TrafficLane.set_vehicles (drop n (TrafficLane.vehicles l)) l) w.
Proof.
  induction n as [|n IH]; intros l w Hn; cbn [processVehicle_times].
  - unfold ret. now rewrite drop_0, set_vehicles_same.
  - destruct (TrafficLane.vehicles l) as [|v q] eqn:Hq; [cbn in Hn; lia|].
    unfold bind. rewrite (processVehicle_front v q) by assumption.
    rewrite IH by (cbn in *; lia). reflexivity.
Qed.

(** C9. Vehicles leave a lane in the order they arrived: [addVehicle]
    appends at the tail, [processVehicle] removes and returns the head, no
    member function changes the queue in another way, any [n] calls of
    [processVehicle] after a run of arrivals return the first [n] vehicles
    in arrival order, and [processVehicle] on a lane without vehicles
    throws the runtime error and leaves the lane as it was. *)
Theorem lane_fifo_and_empty_queue :
  (forall v l w,
      TrafficLane.addVehicle v l w =
      Returns tt (TrafficLane.set_vehicles (TrafficLane.vehicles l ++ [v]) l) w) /\
  (forall v q l w,
      TrafficLane.vehicles l = v :: q ->
      TrafficLane.processVehicle l w = Returns v (TrafficLane.set_vehicles q l) w) /\
  (forall l w,
      TrafficLane.vehicles l = [] ->
      TrafficLane.processVehicle l w =
      Throws (runtime_error "No vehicles to process") l w) /\
  (forall op l w l',
      final_state (lane_call op l w) = Some l' ->
      TrafficLane.vehicles l' = TrafficLane.vehicles l \/
      (exists v, TrafficLane.vehicles l' = TrafficLane.vehicles l ++ [v]) \/
      (exists v, TrafficLane.vehicles l = v :: TrafficLane.vehicles l')) /\
  (forall arrivals n l w,
      (n <= length (TrafficLane.vehicles l ++ arrivals))%nat ->
      (for_each arrivals TrafficLane.addVehicle;; processVehicle_times n) l w =
      Returns (take n (TrafficLane.vehicles l ++ arrivals))
              (TrafficLane.set_vehicles (drop n (TrafficLane.vehicles l ++ arrivals)) l) w).
Proof.
  split; [exact addVehicle_run|].
  split; [exact processVehicle_front|].
  split; [exact processVehicle_empty|].
  split.
  - intros op l w l' H. destruct (lane_call_change _ _ _ _ H); cbn; eauto.
  - intros arrivals n l w Hn. unfold bind.
    rewrite for_each_addVehicle, processVehicle_times_run by exact Hn.
    reflexivity.
Qed.

(** C8. [getAverageWaitTime] returns 0 for an empty queue and otherwise
    the sum of the waiting times of the enqueued vehicles divided by their
    number; the lane it ran on (same vehicles, same order) and the
    environment are as before. The sum is the [int] that
    [getTotalWaitTime] accumulates, which is the exact sum whenever that
    fits an [int]. *)
Theorem getAverageWaitTime_spec l w :
  let ws := waits (clock w) l in
  TrafficLane.getAverageWaitTime l w =
    Returns
      (match ws with
       | [] => Double.of_Z 0
       | _ :: _ => Double.div (Double.of_Z (Int.wrap (sum_Z ws)))
                              (Double.of_Z (Z.of_nat (length ws)))
       end) l w /\
  (Int.in_range (sum_Z ws) ->
   TrafficLane.getAverageWaitTime l w = Returns (spec_averageWaitTime ws) l w).
Proof.
  cbv zeta. rewrite getAverageWaitTime_run. unfold waits, spec_averageWaitTime.
  destruct (TrafficLane.vehicles l) as [|v q]; cbn [map]; [easy|].
  cbn [length]. rewrite !length_map. split; [reflexivity|].
  intros Hr. now rewrite wrap_id.
Qed.

Lemma lane_change_density l l' :
  lane_change l l' ->
  0 <= TrafficLane.trafficDensity l <= 10 ->
  0 <= TrafficLane.trafficDensity l' <= 10.
Proof.
  intros [] Hd; cbn; try assumption. apply clamp_bounds. lia.
Qed.

Lemma lane_reachable_density l :
  lane_reachable l -> 0 <= TrafficLane.trafficDensity l <= 10.
Proof.
  induction 1 as [dir|op l w l' _ IH Hstep]; [cbn; lia|].
  eapply lane_change_density; [eapply lane_call_change|]; eassumption.
Qed.

(** ** Signals *)

Lemma write_light_run i v s w :
  0 <= i < Z.of_nat (length (TrafficSignal.lightStates s)) ->
  TrafficSignal.write_light i v s w =
  Returns tt
    (TrafficSignal.set_lightStates (<[Z.to_nat i := v]> (TrafficSignal.lightStates s)) s)
    {| clock := clock w; console := console w;
       lamps := lamps w ++ [{| at_time := clock w; lamp := i; colour := v |}] |}.
Proof.
  intros Hi. unfold TrafficSignal.write_light.
  replace (0 <=? i) with true by (symmetry; apply Z.leb_le; lia).
  replace (i <? _) with true by (symmetry; apply Z.ltb_lt; lia).
  reflexivity.
Qed.

Lemma Direction_to_int_range d : 0 <= Direction_to_int d < 4.
Proof. destruct d; cbn; lia. Qed.

Lemma Direction_to_int_inj d d' :
  Direction_to_int d = Direction_to_int d' -> d = d'.
Proof. destruct d, d'; cbn; congruence. Qed.

Lemma signal_inv_new : signal_inv TrafficSignal.new.
Proof.
  split; cbn; try reflexivity; try lia.
  intros []; cbn; discriminate.
Qed.

Lemma with_lamps_nil w : with_lamps [] w = w.
Proof. destruct w. unfold with_lamps. cbn. now rewrite app_nil_r. Qed.

Lemma changeLight_run d s w :
  signal_inv s ->
  TrafficSignal.changeLight d s w =
  Returns tt (after_changeLight d s) (with_lamps (changeLight_commands d s (clock w)) w).
Proof.
  intros [Hlen Hcur _ _ _ _ _].
  pose proof (Direction_to_int_range d) as Hd.
  unfold TrafficSignal.changeLight, after_changeLight, changeLight_commands, bind, gets, when.
  destruct (0 <=? TrafficSignal.currentGreenDirection s) eqn:Hc.
  - apply Z.leb_le in Hc.
    rewrite write_light_run by lia. rewrite write_light_run
      by (cbn [TrafficSignal.lightStates TrafficSignal.set_lightStates];
          rewrite length_insert; lia).
    unfold modify, with_lamps. cbn. now rewrite <- app_assoc.
  - unfold ret. rewrite write_light_run by lia. reflexivity.
Qed.

Lemma setYellow_run s w :
  signal_inv s ->
  TrafficSignal.setYellow s w =
  Returns tt (after_setYellow s) (with_lamps (setYellow_commands s (clock w)) w).
Proof.
  intros [Hlen Hcur _ _ _ _ _].
  unfold TrafficSignal.setYellow, after_setYellow, setYellow_commands, bind, gets, when.
  destruct (0 <=? TrafficSignal.currentGreenDirection s) eqn:Hc.
  - apply Z.leb_le in Hc. rewrite write_light_run by lia. reflexivity.
  - unfold ret. now rewrite with_lamps_nil.
Qed.

Lemma light_insert i v d (ls : list LightState) :
  length ls = 4%nat -> 0 <= i < 4 ->
  <[Z.to_nat i := v]> ls !! Z.to_nat (Direction_to_int d) =
  if decide (i = Direction_to_int d) then Some v else ls !! Z.to_nat (Direction_to_int d).
Proof.
  intros Hlen Hi. pose proof (Direction_to_int_range d).
  case_decide as Heq.
  - subst i. apply list_lookup_insert_eq. lia.
  - apply list_lookup_insert_ne. lia.
Qed.

Lemma signal_inv_changeLight d s : signal_inv s -> signal_inv (after_changeLight d s).
Proof.
  intros [Hlen Hcur Hgreen Hb Hy Hmin Hmax].
  pose proof (Direction_to_int_range d) as Hd.
  split; cbn; try assumption.
  - destruct (0 <=? _); now rewrite !length_insert.
  - lia.
  - intros d'. unfold light. cbn.
    destruct (0 <=? TrafficSignal.currentGreenDirection s) eqn:Hc.
    + apply Z.leb_le in Hc.
      rewrite light_insert by (rewrite ?length_insert; auto; lia).
      case_decide; [congruence|].
      rewrite light_insert by (auto; lia).
      case_decide; [discriminate|]. intros Hg. apply Hgreen in Hg. congruence.
    + apply Z.leb_gt in Hc.
      rewrite light_insert by (auto; lia).
      case_decide; [congruence|]. intros Hg. apply Hgreen in Hg.
      pose proof (Direction_to_int_range d'). lia.
Qed.

Lemma signal_inv_setYellow s : signal_inv s -> signal_inv (after_setYellow s).
Proof.
  intros [Hlen Hcur Hgreen Hb Hy Hmin Hmax]. unfold after_setYellow.
  destruct (0 <=? TrafficSignal.currentGreenDirection s) eqn:Hc; [|now split].
  apply Z.leb_le in Hc.
  split; cbn; try assumption.
  - now rewrite length_insert.
  - intros d'. unfold light. cbn.
    rewrite light_insert by (auto; lia).
    case_decide; [discriminate|]. apply Hgreen.
Qed.

Lemma signal_reachable_inv s : signal_reachable s -> signal_inv s.
Proof.
  induction 1 as [|d s w s' w' _ IH Hrun|s w s' w' _ IH Hrun].
  - apply signal_inv_new.
  - rewrite changeLight_run in Hrun by assumption.
    injection Hrun as <- _. now apply signal_inv_changeLight.
  - rewrite setYellow_run in Hrun by assumption.
    injection Hrun as <- _. now apply signal_inv_setYellow.
Qed.

Lemma greens_at_most_one s : signal_inv s -> (length (greens s) <= 1)%nat.
Proof.
  intros [Hlen Hcur Hgreen _ _ _ _].
  destruct s as [ls cur b y lo hi]. cbn in *.
  destruct ls as [|l0 [|l1 [|l2 [|l3 [|]]]]]; try discriminate.
  pose proof (Hgreen NORTH) as H0. pose proof (Hgreen EAST) as H1.
  pose proof (Hgreen SOUTH) as H2. pose proof (Hgreen WEST) as H3.
  unfold light, greens, allDirections in *. cbn in *.
  change (Z.to_nat 0) with 0%nat in *. change (Z.to_nat 1) with 1%nat in *.
  change (Z.to_nat 2) with 2%nat in *. change (Z.to_nat 3) with 3%nat in *.
  clear Hgreen.
  destruct l0, l1, l2, l3; cbn in *;
    repeat case_decide; try discriminate; cbn [length]; try lia;
    repeat match goal with
           | H : ?a = ?a -> _ |- _ => specialize (H eq_refl)
           end; lia.
Qed.

Lemma greens_after_changeLight d s :
  signal_inv s -> greens (after_changeLight d s) = [d].
Proof.
  intros Hs. pose proof (signal_inv_changeLight d s Hs) as [Hlen _ Hgreen _ _ _ _].
  assert (Hd : light (after_changeLight d s) d = Some GREEN).
  { destruct Hs as [Hl Hc _ _ _ _ _]. pose proof (Direction_to_int_range d).
    unfold light, after_changeLight. cbn.
    apply list_lookup_insert_eq. destruct (0 <=? _); rewrite ?length_insert; lia. }
  assert (Hother : forall d', d' <> d -> light (after_changeLight d s) d' <> Some GREEN).
  { intros d' Hne Hg. apply Hgreen in Hg. cbn in Hg.
    apply Direction_to_int_inj in Hg. congruence. }
  unfold greens, allDirections.
  destruct d; cbn [filter list_filter];
    repeat case_decide; try reflexivity; exfalso;
    match goal with
    | H : light _ _ = Some GREEN |- _ => revert H; apply Hother; discriminate
    | H : light _ _ <> Some GREEN |- _ => apply H; exact Hd
    end.
Qed.

(** C5. In every state reachable from the constructor's all-red state by
    calls of [changeLight] and [setYellow], at most one direction is
    green, and a call of [changeLight] returns with exactly one direction
    green, the requested one. *)
Theorem one_green_direction s (Hs : signal_reachable s) :
  (length (greens s) <= 1)%nat /\
  forall newGreenDir w,
    exists s' w',
      TrafficSignal.changeLight newGreenDir s w = Returns tt s' w' /\
      greens s' = [newGreenDir].
Proof.
  apply signal_reachable_inv in Hs. split.
  - now apply greens_at_most_one.
  - intros d w. eexists _, _. split.
    + now apply changeLight_run.
    + now apply greens_after_changeLight.
Qed.

Lemma one_green_direction_witness :
  (length (greens TrafficSignal.new) <= 1)%nat /\
  forall newGreenDir w,
    exists s' w',
      TrafficSignal.changeLight newGreenDir TrafficSignal.new w = Returns tt s' w' /\
      greens s' = [newGreenDir].
Proof. exact (one_green_direction TrafficSignal.new signal_new). Defined.

Lemma calculateAdaptiveGreenTime_run lane s w :
  TrafficSignal.calculateAdaptiveGreenTime lane s w =
  Returns
    (clamp
       (Int.add
          (Int.add (TrafficSignal.baseGreenTime s)
             (Int.mul (Int.wrap (Z.of_nat (length (TrafficLane.vehicles lane)))) 2))
          (Int.mul (TrafficLane.trafficDensity lane) 2))
       (TrafficSignal.minGreenTime s) (TrafficSignal.maxGreenTime s)) s w.
Proof. reflexivity. Qed.

Lemma green_time_no_overflow base len density :
  Int.add (Int.add base (Int.mul (Int.wrap len) 2)) (Int.mul density 2) =
  Int.wrap (base + 2 * len + 2 * density).
Proof.
  unfold Int.add, Int.mul.
  rewrite wrap_mul_l, wrap_add_r, wrap_add_l.
  replace (base + Int.wrap (len * 2) + density * 2)
    with (base + density * 2 + Int.wrap (len * 2)) by lia.
  rewrite wrap_add_r. f_equal. lia.
Qed.

(** C3. The configured times are 20, 3, 10 and 60, and for every lane
    [calculateAdaptiveGreenTime] returns the [int]
    [baseGreenTime + 2*queueLength + 2*density] clamped to
    [[minGreenTime, maxGreenTime]]: the result is always between 10 and
    60, and it is the clamped sum of the specification whenever that sum
    fits an [int]. The signal and the environment are left as they were. *)
Theorem adaptive_green_time s lane w (Hs : signal_reachable s) :
  (TrafficSignal.baseGreenTime s, TrafficSignal.yellowTime s,
   TrafficSignal.minGreenTime s, TrafficSignal.maxGreenTime s) = (20, 3, 10, 60) /\
  exists t,
    TrafficSignal.calculateAdaptiveGreenTime lane s w = Returns t s w /\
    10 <= t <= 60 /\
    t = clamp (Int.wrap (20 + 2 * Z.of_nat (length (TrafficLane.vehicles lane))
                         + 2 * TrafficLane.trafficDensity lane)) 10 60 /\
    (Int.in_range (20 + 2 * Z.of_nat (length (TrafficLane.vehicles lane))
                   + 2 * TrafficLane.trafficDensity lane) ->
     t = spec_greenTime lane).
Proof.
  apply signal_reachable_inv in Hs. destruct Hs as [_ _ _ Hb Hy Hlo Hhi].
  rewrite Hb, Hy, Hlo, Hhi. split; [reflexivity|].
  eexists. rewrite calculateAdaptiveGreenTime_run, green_time_no_overflow.
  rewrite Hb, Hlo, Hhi. split; [reflexivity|].
  split; [apply clamp_bounds; lia|]. split; [reflexivity|].
  intros Hr. unfold spec_greenTime. now rewrite wrap_id.
Qed.

Lemma adaptive_green_time_witness :
  exists t,
    TrafficSignal.calculateAdaptiveGreenTime
      (TrafficLane.mk NORTH [Vehicle.mk 1 false 0; Vehicle.mk 2 true 0; Vehicle.mk 3 false 0] 5)
      TrafficSignal.new {| clock := 0; console := []; lamps := [] |}
    = Returns t TrafficSignal.new {| clock := 0; console := []; lamps := [] |} /\
    t = 36.
Proof.
  destruct (adaptive_green_time TrafficSignal.new
              (TrafficLane.mk NORTH [Vehicle.mk 1 false 0; Vehicle.mk 2 true 0; Vehicle.mk 3 false 0] 5)
              {| clock := 0; console := []; lamps := [] |} signal_new)
    as [_ [t [Hrun [_ [Ht _]]]]].
  exists t. split; [exact Hrun|]. rewrite Ht. reflexivity.
Defined.

(** ** Doubles *)












Lemma nonneg_not_nan x : nonneg x = true -> is_nan x = false.
Proof. destruct x as [[]|[]| |[] m e]; try discriminate; reflexivity. Qed.








(** ** Choosing the next green direction *)

Lemma call_lane_run {A} i (m : M TrafficLane A) c w lane :
  0 <= i ->
  IntersectionController.lanes c !! Z.to_nat i = Some lane ->
  call (IntersectionController.lane_at i) m c w =
  match m lane w with
  | Returns a l' w' =>
      Returns a (IntersectionController.set_lanes
                   (<[Z.to_nat i := l']> (IntersectionController.lanes c)) c) w'
  | Throws e l' w' =>
      Throws e (IntersectionController.set_lanes
                  (<[Z.to_nat i := l']> (IntersectionController.lanes c)) c) w'
  | Undefined => Undefined
  | OutOfFuel => OutOfFuel
  end.
Proof.
  intros Hi Hl. unfold call. cbn [view update IntersectionController.lane_at].
  replace (0 <=? i) with true by (symmetry; apply Z.leb_le; lia).
  now rewrite Hl.
Qed.

Lemma set_lanes_insert_same c i l :
  IntersectionController.lanes c !! i = Some l ->
  IntersectionController.set_lanes (<[i := l]> (IntersectionController.lanes c)) c = c.
Proof.
  intros Hl. unfold IntersectionController.set_lanes.
  rewrite list_insert_id by exact Hl. now destruct c.
Qed.

(** A call on [lanes[i]] that returns the lane as it was leaves the
    controller as it was. *)
Lemma call_lane_pure {A} i (m : M TrafficLane A) c w l a w' :
  IntersectionController.lanes c !! i = Some l ->
  m l w = Returns a l w' ->
  call (IntersectionController.lane_at (Z.of_nat i)) m c w = Returns a c w'.
Proof.
  intros Hl Hm.
  rewrite (call_lane_run (Z.of_nat i) m c w l) by (rewrite ?Nat2Z.id; (lia || exact Hl)).
  rewrite Hm, Nat2Z.id. now rewrite set_lanes_insert_same.
Qed.

Lemma getDirection_run l w :
  TrafficLane.getDirection l w = Returns (TrafficLane.direction l) l w.
Proof. reflexivity. Qed.

Lemma getTrafficDensity_run l w :
  TrafficLane.getTrafficDensity l w = Returns (TrafficLane.trafficDensity l) l w.
Proof. reflexivity. Qed.

Lemma drop_cons_lookup {X} (xs : list X) k x rest :
  drop k xs = x :: rest -> xs !! k = Some x /\ drop (S k) xs = rest.
Proof.
  intros Hd.
  assert (Hx : xs !! k = Some x).
  { rewrite <- (Nat.add_0_r k), <- lookup_drop, Hd. reflexivity. }
  split; [exact Hx|].
  rewrite (drop_S _ _ _ Hx) in Hd. congruence.
Qed.

Lemma findNextGreenDirection_emergency_run c ls :
  forall k w,
    drop k (IntersectionController.lanes c) = ls ->
    IntersectionController.findNextGreenDirection_emergency (seq k (length ls)) c w =
    match find has_emergency ls with
    | Some l =>
        Returns (Some (TrafficLane.direction l)) c
                (with_console (emergency_message (TrafficLane.direction l)) w)
    | None => Returns None c w
    end.
Proof.
  induction ls as [|l ls IH]; intros k w Hd; [reflexivity|].
  apply drop_cons_lookup in Hd as [Hl Hd].
  cbn [length seq IntersectionController.findNextGreenDirection_emergency find].
  unfold bind at 1.
  rewrite (call_lane_pure k _ c w l _ _ Hl (hasEmergencyVehicle_run l w)).
  destruct (has_emergency l); [|now apply IH].
  unfold bind at 1.
  rewrite (call_lane_pure k _ c w l _ _ Hl (getDirection_run l w)).
  unfold bind at 1, cout at 1. unfold bind at 1.
  rewrite (call_lane_pure k _ c _ l _ _ Hl (getDirection_run l _)).
  reflexivity.
Qed.

Lemma findNextGreenDirection_score_run c ls :
  forall k maxScore best w,
    drop k (IntersectionController.lanes c) = ls ->
    IntersectionController.findNextGreenDirection_score (seq k (length ls))
      maxScore best c w =
    Returns (pick_best (clock w) ls maxScore best) c w.
Proof.
  induction ls as [|l ls IH]; intros k m b w Hd; [reflexivity|].
  apply drop_cons_lookup in Hd as [Hl Hd].
  cbn [length seq IntersectionController.findNextGreenDirection_score pick_best].
  unfold bind at 1.
  rewrite (call_lane_pure k _ c w l _ _ Hl (hasVehicles_run l w)).
  destruct (negb _); [|now apply IH].
  unfold bind at 1.
  rewrite (call_lane_pure k _ c w l _ _ Hl (getQueueLength_run l w)).
  unfold bind at 1.
  rewrite (call_lane_pure k _ c w l _ _ Hl (getAverageWaitTime_run l w)).
  unfold bind at 1.
  rewrite (call_lane_pure k _ c w l _ _ Hl (getTrafficDensity_run l w)).
  fold (lane_score (clock w) l).
  destruct (Double.gt _ m); [|now apply IH].
  unfold bind at 1.
  rewrite (call_lane_pure k _ c w l _ _ Hl (getDirection_run l w)).
  now apply IH.
Qed.

Lemma findNextGreenDirection_run c w :
  IntersectionController.findNextGreenDirection c w =
  match find has_emergency (IntersectionController.lanes c) with
  | Some l =>
      Returns (TrafficLane.direction l) c
              (with_console (emergency_message (TrafficLane.direction l)) w)
  | None =>
      Returns (pick_best (clock w) (IntersectionController.lanes c)
                         (Double.of_Z (-1)) NORTH) c w
  end.
Proof.
  unfold IntersectionController.findNextGreenDirection.
  unfold bind at 1. unfold gets at 1. unfold bind at 1.
  rewrite (findNextGreenDirection_emergency_run c _ O w (drop_0 _)).
  destruct (find _ _); [reflexivity|].
  unfold bind, gets.
  apply (findNextGreenDirection_score_run c _ O _ _ w (drop_0 _)).
Qed.

Lemma find_first_emergency pre l post :
  Forall (fun l' => has_emergency l' = false) pre ->
  has_emergency l = true ->
  find has_emergency (pre ++ l :: post) = Some l.
Proof.
  intros Hpre Hl. induction Hpre as [|l' pre Hl' _ IH]; cbn.
  - now rewrite Hl.
  - now rewrite Hl'.
Qed.









(** ** Draining the selected lane *)

Lemma processVehicles_loop_run fuel :
  forall dir canPass passed c w lane q k,
    IntersectionController.lanes c !! Z.to_nat (Direction_to_int dir) = Some lane ->
    TrafficLane.vehicles lane = q ->
    canPass <= Int.max_int -> 0 <= passed ->
    k = Z.to_nat (Z.min (canPass - passed) (Z.of_nat (length q))) ->
    IntersectionController.processVehicles_loop fuel dir canPass passed c w =
    if (k <? fuel)%nat then
      Returns (passed + Z.of_nat k)
              (drained (clock w) dir (take k q) (drop k q) lane c)
              (with_console (flat_map (passed_message (clock w) dir) (take k q)) w)
    else OutOfFuel.
Proof.
  induction fuel as [|fuel IH];
    intros dir canPass passed c w lane q k Hlane Hq Hmax Hpassed Hk; [reflexivity|].
  pose proof (Direction_to_int_range dir) as Hdir.
  cbn [IntersectionController.processVehicles_loop].
  unfold bind at 1.
  destruct (passed <? canPass) eqn:Hlt.
  - apply Z.ltb_lt in Hlt.
    rewrite (call_lane_run _ _ _ _ lane) by (assumption || lia).
    rewrite hasVehicles_run, Hq.
    destruct q as [|v rest].
    + (* the lane is empty *)
      cbn [length] in Hk. rewrite Z.min_r in Hk by lia.
      rewrite Nat2Z.id in Hk. subst k. cbn [Nat.ltb Nat.leb].
      rewrite bool_decide_eq_true_2 by reflexivity. cbn [negb].
      rewrite list_insert_id by exact Hlane.
      unfold ret, drained, with_console. cbn [take drop flat_map fold_left].
      rewrite app_nil_r, Z.add_0_r. rewrite <- Hq, set_vehicles_same.
      rewrite list_insert_id by exact Hlane.
      destruct c, w; reflexivity.
    + (* one vehicle passes *)
      rewrite bool_decide_eq_false_2 by discriminate. cbn [negb].
      rewrite list_insert_id by exact Hlane.
      unfold bind at 1.
      rewrite (call_lane_run _ _ _ _ lane)
        by (destruct c; cbn in *; (assumption || lia)).
      rewrite (processVehicle_front v rest) by assumption.
      set (lane1 := TrafficLane.set_vehicles rest lane).
      set (k' := Z.to_nat (Z.min (canPass - (passed + 1)) (Z.of_nat (length rest)))).
      assert (Hk' : k = S k') by (subst k k'; cbn [length]; lia).
      unfold bind at 1. unfold call_on at 1. cbn [Vehicle.getId gets].
      unfold bind at 1. unfold call_on at 1. cbn [Vehicle.isEmergencyVehicle gets].
      unfold bind at 1. unfold call_on at 1. rewrite getWaitingTime_run.
      unfold bind at 1. unfold cout at 1.
      unfold bind at 1. unfold modify at 1.
      unfold bind at 1. unfold call_on at 1. rewrite getWaitingTime_run.
      unfold bind at 1. unfold modify at 1.
      replace (Int.add passed 1) with (passed + 1)
        by (symmetry; apply wrap_id; unfold Int.in_range, Int.min_int, Int.max_int in *; lia).
      rewrite (IH dir canPass (passed + 1) _ _ lane1 rest k'); cycle 1.
      * cbn. apply list_lookup_insert_eq. eapply lookup_lt_Some, Hlane.
      * reflexivity.
      * exact Hmax.
      * lia.
      * reflexivity.
      * rewrite Hk'. change (S k' <? S fuel)%nat with (k' <? fuel)%nat.
        destruct (k' <? fuel)%nat; [|reflexivity].
        cbn [take drop flat_map fold_left clock].
        f_equal.
        -- lia.
        -- unfold drained. subst lane1.
           cbn [IntersectionController.lanes IntersectionController.set_lanes
                IntersectionController.set_totalVehiclesProcessed
                IntersectionController.set_totalWaitTime
                IntersectionController.pedestrianSignals IntersectionController.signal
                IntersectionController.rng IntersectionController.vehicleCounter
                IntersectionController.totalVehiclesProcessed
                IntersectionController.totalWaitTime IntersectionController.cycleCounter
                TrafficLane.set_vehicles TrafficLane.direction TrafficLane.vehicles
                TrafficLane.trafficDensity].
           rewrite list_insert_insert_eq. reflexivity.
        -- unfold with_console. cbn [clock console lamps]. f_equal.
           rewrite <- app_assoc. reflexivity.
  - apply Z.ltb_ge in Hlt.
    rewrite Z.min_l in Hk by lia.
    replace (Z.to_nat (canPass - passed)) with O in Hk by lia. subst k.
    cbn [Nat.ltb Nat.leb].
    unfold ret, drained, with_console. rewrite drop_0, take_0.
    cbn [flat_map fold_left].
    rewrite app_nil_r, Z.add_0_r, <- Hq, set_vehicles_same.
    rewrite list_insert_id by exact Hlane.
    destruct c, w; reflexivity.
Qed.

Lemma with_console_app ts us w :
  with_console us (with_console ts w) = with_console (ts ++ us) w.
Proof. unfold with_console. cbn. now rewrite app_assoc. Qed.

Lemma quot_2_in_range z : Int.in_range z -> Int.in_range (Z.quot z 2).
Proof.
  unfold Int.in_range, Int.min_int, Int.max_int.
  intros Hz. Z.to_euclidean_division_equations. lia.
Qed.

(** C4. [processVehicles(dir, greenTime)] with [canPass = greenTime / 2]
    (the quotient truncated towards zero) returns after the first [k]
    vehicles of the lane of [dir] left it, [k] being min(canPass, queue
    length) whenever [greenTime] is not negative (as every value of
    [calculateAdaptiveGreenTime] is) and 0 otherwise: they leave in the
    order of the queue (the console names them in that order), the lane
    keeps the others, each one adds 1 to [totalVehiclesProcessed] and its
    waiting time to [totalWaitTime], and nothing else of the controller
    changes. The call returns: [processVehicle] does not throw in it. *)
Theorem processVehicles_drains fuel dir greenTime c w lane
    (Hlane : IntersectionController.lanes c !! Z.to_nat (Direction_to_int dir) = Some lane)
    (Hgreen : Int.in_range greenTime)
    (Hfuel : (Z.to_nat (Z.min (Z.quot greenTime 2)
                              (Z.of_nat (length (TrafficLane.vehicles lane)))) < fuel)%nat) :
  let canPass := Z.quot greenTime 2 in
  let q := TrafficLane.vehicles lane in
  let k := Z.to_nat (Z.min canPass (Z.of_nat (length q))) in
  (0 <= greenTime ->
   Z.of_nat (length (take k q)) = Z.min canPass (Z.of_nat (length q))) /\
  IntersectionController.processVehicles fuel dir greenTime c w =
  Returns tt
    (drained (clock w) dir (take k q) (drop k q) lane c)
    (with_console
       (flat_map (passed_message (clock w) dir) (take k q)
        ++ [Text "Total vehicles passed: "; Num (Z.of_nat k); Text LF]) w).
Proof.
  intros canPass q k.
  pose proof (quot_2_in_range greenTime Hgreen) as Hcp. fold canPass in Hcp.
  split.
  - intros Hpos. assert (0 <= canPass) by (apply Z.quot_pos; lia).
    rewrite length_take. subst k. lia.
  - unfold IntersectionController.processVehicles, Int.div.
    rewrite wrap_id by exact Hcp.
    fold canPass. unfold bind.
    rewrite (processVehicles_loop_run fuel dir canPass 0 c w lane q k);
      try assumption; try reflexivity;
      try (unfold Int.in_range in Hcp; lia).
    replace (k <? fuel)%nat with true by (symmetry; apply Nat.ltb_lt; exact Hfuel).
    unfold cout. rewrite Z.add_0_l.
    change (Returns tt ?s {| clock := clock ?w0; console := console ?w0 ++ ?ts;
                             lamps := lamps ?w0 |})
      with (Returns (S:=IntersectionController) tt s (with_console ts w0)).
    now rewrite with_console_app.
Qed.

Lemma scenario_A_north :
  IntersectionController.lanes scenario_A !! Z.to_nat (Direction_to_int NORTH) =
  Some (TrafficLane.mk NORTH [waiting 1 false 4; waiting 2 false 10; waiting 3 false 2] 5).
Proof. reflexivity. Qed.

Lemma scenario_C_green_time : Int.in_range 36.
Proof. split; vm_compute; discriminate. Qed.

Lemma scenario_C_fuel :
  (Z.to_nat (Z.min (Z.quot 36 2)
      (Z.of_nat (length (TrafficLane.vehicles
         (TrafficLane.mk NORTH [waiting 1 false 4; waiting 2 false 10; waiting 3 false 2] 5)))))
   < 19)%nat.
Proof. vm_compute. lia. Qed.

(** Scenario C: green for 36, 18 may pass, the three present do. *)
Lemma processVehicles_drains_witness :
  (0 <= 36 ->
   Z.of_nat (length [waiting 1 false 4; waiting 2 false 10; waiting 3 false 2]) = 3) /\
  IntersectionController.processVehicles 19 NORTH 36 scenario_A scenario_world =
  Returns tt
    (drained 100000 NORTH [waiting 1 false 4; waiting 2 false 10; waiting 3 false 2] []
       (TrafficLane.mk NORTH [waiting 1 false 4; waiting 2 false 10; waiting 3 false 2] 5)
       scenario_A)
    (with_console
       (flat_map (passed_message 100000 NORTH)
                 [waiting 1 false 4; waiting 2 false 10; waiting 3 false 2]
        ++ [Text "Total vehicles passed: "; Num 3; Text LF]) scenario_world).
Proof.
  exact (processVehicles_drains 19 NORTH 36 scenario_A scenario_world _
           scenario_A_north scenario_C_green_time scenario_C_fuel).
Defined.

(** ** The cycle *)

Lemma wp_bind {S A B} oof (m : M S A) (k : A -> M S B) s w Q :
  wp oof m s w (fun a s' w' => wp oof (k a) s' w' Q) -> wp oof (bind m k) s w Q.
Proof. unfold wp, bind. now destruct (m s w). Qed.

Lemma wp_conseq {S A} oof (m : M S A) s w (Q Q' : A -> S -> World -> Prop) :
  wp oof m s w Q -> (forall a s' w', Q a s' w' -> Q' a s' w') -> wp oof m s w Q'.
Proof. unfold wp. destruct (m s w); auto. Qed.

Lemma wp_run {S A} oof (m : M S A) s w a s' w' (Q : A -> S -> World -> Prop) :
  m s w = Returns a s' w' -> Q a s' w' -> wp oof m s w Q.
Proof. unfold wp. now intros ->. Qed.

Lemma wp_returns {S A} (m : M S A) s w Q :
  wp False m s w Q -> exists a s' w', m s w = Returns a s' w' /\ Q a s' w'.
Proof. unfold wp. destruct (m s w); try easy. eauto. Qed.

Lemma wp_returned {S A} (m : M S A) s w a s' w' Q :
  wp True m s w Q -> m s w = Returns a s' w' -> Q a s' w'.
Proof. unfold wp. intros H E. now rewrite E in H. Qed.

Lemma wp_call_on {S T A} oof (t : T) (m : M T A) (s : S) w Q :
  wp oof m t w (fun a _ w' => Q a s w') -> wp oof (call_on t m) s w Q.
Proof. unfold wp, call_on. now destruct (m t w). Qed.

Lemma wp_when {S} oof (b : bool) (m : M S unit) s w Q :
  (b = true -> wp oof m s w Q) -> (b = false -> Q tt s w) -> wp oof (when b m) s w Q.
Proof. destruct b; cbn; auto. Qed.

Lemma wp_for_each {S X} oof (P : S -> World -> Prop) (xs : list X)
    (body : X -> M S unit) :
  (forall x s w, x ∈ xs -> P s w -> wp oof (body x) s w (fun _ s' w' => P s' w')) ->
  forall s w, P s w -> wp oof (for_each xs body) s w (fun _ s' w' => P s' w').
Proof.
  induction xs as [|x xs IH]; intros Hbody s w HP; cbn [for_each].
  - exact HP.
  - apply wp_bind. eapply wp_conseq; [apply Hbody; [left|exact HP]|].
    cbn beta. intros _ s' w' HP'. apply IH; [|exact HP'].
    intros y s2 w2 Hy. apply Hbody. now right.
Qed.

Lemma controller_inv_new entropy : controller_inv (IntersectionController.new entropy).
Proof.
  split.
  - reflexivity.
  - intros []; vm_compute; eauto.
  - apply signal_inv_new.
  - intros [|[|[|[|i]]]] l; cbn; intros [= <-]; split; cbn; (lia || reflexivity).
Qed.

Lemma inv_set_rng g c :
  controller_inv c -> controller_inv (IntersectionController.set_rng g c).
Proof. now intros []. Qed.

Lemma inv_set_vehicleCounter x c :
  controller_inv c -> controller_inv (IntersectionController.set_vehicleCounter x c).
Proof. now intros []. Qed.

Lemma inv_set_totalVehiclesProcessed x c :
  controller_inv c -> controller_inv (IntersectionController.set_totalVehiclesProcessed x c).
Proof. now intros []. Qed.

Lemma inv_set_totalWaitTime x c :
  controller_inv c -> controller_inv (IntersectionController.set_totalWaitTime x c).
Proof. now intros []. Qed.

Lemma inv_set_cycleCounter x c :
  controller_inv c -> controller_inv (IntersectionController.set_cycleCounter x c).
Proof. now intros []. Qed.

Lemma inv_set_signal s c :
  controller_inv c -> signal_inv s ->
  controller_inv (IntersectionController.set_signal s c).
Proof. now intros []. Qed.

Lemma inv_set_lane i l c :
  controller_inv c -> lane_fits i l ->
  controller_inv
    (IntersectionController.set_lanes (<[i := l]> (IntersectionController.lanes c)) c).
Proof.
  intros [Hlen Hped Hsig Hlane] Hl. split; cbn; try assumption.
  - now rewrite length_insert.
  - intros j l' Hj. destruct (decide (i = j)) as [->|Hne].
    + assert (Hlt : (j < length (IntersectionController.lanes c))%nat).
      { apply lookup_lt_Some in Hj. now rewrite length_insert in Hj. }
      rewrite list_lookup_insert_eq in Hj by exact Hlt. now injection Hj as <-.
    + rewrite list_lookup_insert_ne in Hj by exact Hne. now apply Hlane.
Qed.

Lemma inv_set_ped d p c :
  controller_inv c ->
  controller_inv
    (IntersectionController.set_pedestrianSignals
       (<[d := p]> (IntersectionController.pedestrianSignals c)) c).
Proof.
  intros [Hlen Hped Hsig Hden]. split; cbn; try assumption.
  intros d'. destruct (decide (d = d')) as [->|Hne].
  - rewrite lookup_insert_eq. eauto.
  - rewrite lookup_insert_ne by assumption. apply Hped.
Qed.

Lemma inv_lane_lookup c i :
  controller_inv c -> (i < 4)%nat ->
  exists l, IntersectionController.lanes c !! i = Some l /\ lane_fits i l.
Proof.
  intros [Hlen _ _ Hlane] Hi.
  destruct (lookup_lt_is_Some_2 (IntersectionController.lanes c) i) as [l Hl]; [lia|].
  exists l. split; [exact Hl|now apply Hlane].
Qed.

Lemma inv_density c :
  controller_inv c ->
  Forall (fun l => 0 <= TrafficLane.trafficDensity l <= 10)
         (IntersectionController.lanes c).
Proof.
  intros [_ _ _ Hlane]. apply Forall_lookup. intros i l Hl. now apply (Hlane i l).
Qed.

Lemma inv_directions c :
  controller_inv c ->
  map TrafficLane.direction (IntersectionController.lanes c) = allDirections.
Proof.
  intros [Hlen _ _ Hlane]. apply list_eq. intros i.
  rewrite list_lookup_fmap.
  destruct (IntersectionController.lanes c !! i) as [l|] eqn:Hl; cbn.
  - symmetry. now apply (Hlane i l).
  - apply lookup_ge_None in Hl. symmetry. apply lookup_ge_None. cbn. lia.
Qed.

Lemma uniform_int_run a b c w :
  IntersectionController.uniform_int a b c w =
  Returns (a + Z.of_N (IntersectionController.rng c O) mod (b - a + 1))
          (IntersectionController.set_rng
             (fun n => IntersectionController.rng c (S n)) c) w.
Proof. reflexivity. Qed.

Lemma rng_next_run c w :
  IntersectionController.rng_next c w =
  Returns (IntersectionController.rng c O)
          (IntersectionController.set_rng
             (fun n => IntersectionController.rng c (S n)) c) w.
Proof. reflexivity. Qed.

Lemma call_ped_run {A} d (m : M PedestrianSignal A) c w :
  call (IntersectionController.ped_at d) m c w =
  match m (default PedestrianSignal.new (IntersectionController.pedestrianSignals c !! d)) w with
  | Returns a p' w' =>
      Returns a (IntersectionController.set_pedestrianSignals
                   (<[d := p']> (IntersectionController.pedestrianSignals c)) c) w'
  | Throws e p' w' =>
      Throws e (IntersectionController.set_pedestrianSignals
                  (<[d := p']> (IntersectionController.pedestrianSignals c)) c) w'
  | Undefined => Undefined
  | OutOfFuel => OutOfFuel
  end.
Proof. reflexivity. Qed.

Lemma call_signal_run {A} (m : M TrafficSignal A) c w :
  call IntersectionController.signal_ m c w =
  match m (IntersectionController.signal c) w with
  | Returns a s' w' => Returns a (IntersectionController.set_signal s' c) w'
  | Throws e s' w' => Throws e (IntersectionController.set_signal s' c) w'
  | Undefined => Undefined
  | OutOfFuel => OutOfFuel
  end.
Proof. reflexivity. Qed.

Lemma wp_call_lane {A} oof i (m : M TrafficLane A) c w l Q :
  0 <= i ->
  IntersectionController.lanes c !! Z.to_nat i = Some l ->
  wp oof m l w
     (fun a l' w' =>
        Q a (IntersectionController.set_lanes
               (<[Z.to_nat i := l']> (IntersectionController.lanes c)) c) w') ->
  wp oof (call (IntersectionController.lane_at i) m) c w Q.
Proof.
  intros Hi Hl. unfold wp. rewrite (call_lane_run i m c w l Hi Hl).
  now destruct (m l w).
Qed.

Lemma wp_call_ped {A} oof d (m : M PedestrianSignal A) c w Q :
  wp oof m (default PedestrianSignal.new (IntersectionController.pedestrianSignals c !! d)) w
     (fun a p' w' =>
        Q a (IntersectionController.set_pedestrianSignals
               (<[d := p']> (IntersectionController.pedestrianSignals c)) c) w') ->
  wp oof (call (IntersectionController.ped_at d) m) c w Q.
Proof. unfold wp. rewrite call_ped_run. now destruct (m _ w). Qed.

Lemma wp_call_signal {A} oof (m : M TrafficSignal A) c w Q :
  wp oof m (IntersectionController.signal c) w
     (fun a s' w' => Q a (IntersectionController.set_signal s' c) w') ->
  wp oof (call IntersectionController.signal_ m) c w Q.
Proof. unfold wp. rewrite call_signal_run. now destruct (m _ w). Qed.

Lemma wp_uniform_int oof a b c w (Q : Z -> IntersectionController -> World -> Prop) :
  (forall x g, Q x (IntersectionController.set_rng g c) w) ->
  wp oof (IntersectionController.uniform_int a b) c w Q.
Proof. intros H. eapply wp_run; [apply uniform_int_run|apply H]. Qed.

Lemma wp_rng_next oof c w (Q : N -> IntersectionController -> World -> Prop) :
  (forall x g, Q x (IntersectionController.set_rng g c) w) ->
  wp oof IntersectionController.rng_next c w Q.
Proof. intros H. eapply wp_run; [apply rng_next_run|apply H]. Qed.

(** A lane call in a controller that satisfies the invariant. *)
Lemma wp_call_lane_inv {A} oof i (m : M TrafficLane A) c w Q :
  controller_inv c -> 0 <= i < 4 ->
  (forall l,
      lane_fits (Z.to_nat i) l ->
      wp oof m l w
         (fun a l' w' =>
            Q a (IntersectionController.set_lanes
                   (<[Z.to_nat i := l']> (IntersectionController.lanes c)) c) w')) ->
  wp oof (call (IntersectionController.lane_at i) m) c w Q.
Proof.
  intros Hinv Hi H.
  destruct (inv_lane_lookup c (Z.to_nat i) Hinv ltac:(lia)) as (l & Hl & Hden).
  eapply wp_call_lane; [lia|exact Hl|]. now apply H.
Qed.

(** A lane fits where it stood after its queue or its density was set. *)
Ltac lane_still_fits :=
  match goal with
  | H : lane_fits ?i ?l |- lane_fits ?j _ =>
      let Hd := fresh in
      let Hdir := fresh in
      destruct H as [Hd Hdir]; split;
      [ first [ exact Hd | cbn; apply clamp_bounds; lia ]
      | first [ exact Hdir | rewrite Nat2Z.id in Hdir; exact Hdir ] ]
  end.

(** The invariant after one more field was set. *)
Ltac inv_step :=
  first [ assumption
        | apply inv_set_rng; inv_step
        | apply inv_set_vehicleCounter; inv_step
        | apply inv_set_cycleCounter; inv_step
        | apply inv_set_totalVehiclesProcessed; inv_step
        | apply inv_set_totalWaitTime; inv_step
        | apply inv_set_ped; inv_step
        | apply inv_set_lane; [ inv_step | lane_still_fits ] ].

(** The state of the goal becomes a variable that is only known to
    satisfy the invariant and to hold the signal it held. *)
Ltac forget_state :=
  match goal with
  | Hs : controller_inv ?s, Hsig : IntersectionController.signal ?s = _
    |- wp _ _ ?s1 _ _ =>
      let Hs1 := fresh "Hs" in
      let Hsig1 := fresh "Hsig" in
      let s' := fresh "s" in
      assert (Hs1 : controller_inv s1) by inv_step;
      assert (Hsig1 : IntersectionController.signal s1 = _) by exact Hsig;
      set (s' := s1) in *; clearbody s'; clear Hs Hsig
  end.

Ltac keep_inv :=
  split; [inv_step|split; [first [assumption|cbn; assumption]|reflexivity]].

(** What [generateTraffic] keeps: the invariant, the signal and the
    environment. *)
Lemma generateTraffic_wp oof c w :
  controller_inv c ->
  wp oof IntersectionController.generateTraffic c w
     (fun _ c' w' =>
        controller_inv c' /\
        IntersectionController.signal c' = IntersectionController.signal c /\
        w' = w).
Proof.
  intros Hinv.
  set (P := fun (c' : IntersectionController) (w' : World) =>
              controller_inv c' /\
              IntersectionController.signal c' = IntersectionController.signal c /\
              w' = w).
  assert (HP : P c w) by (split; [exact Hinv|split; reflexivity]).
  unfold IntersectionController.generateTraffic.
  apply wp_bind. unfold gets at 1, wp at 1.
  rewrite (inv_lanes c Hinv).
  apply wp_bind.
  eapply wp_conseq; [apply (wp_for_each oof P); [|exact HP]|].
  - (* one lane *)
    clear HP. intros i s w0 Hi (Hs & Hsig & ->).
    apply list_elem_of_In, in_seq in Hi.
    apply wp_bind, wp_uniform_int. intros dc g. forget_state.
    apply wp_bind.
    apply wp_conseq with (Q := fun _ s' w' => P s' w').
    + destruct (dc =? 0).
      * apply wp_bind, wp_rng_next. intros r g'. forget_state.
        apply wp_call_lane_inv; [assumption|lia|]. intros l Hl.
        eapply wp_run; [apply setTrafficDensity_run|].
        keep_inv.
      * keep_inv.
    + clear dependent s0. intros _ s0 w0 (Hs0 & Hsig0 & ->).
      apply wp_bind, wp_call_lane_inv; [assumption|lia|]. intros l Hl.
      eapply wp_run; [reflexivity|]. forget_state.
      apply wp_bind, wp_uniform_int. intros a g'. forget_state.
      destruct (_ <=? a).
      * apply wp_bind, wp_uniform_int. intros e g''. forget_state.
        apply wp_bind. eapply wp_run; [reflexivity|]. forget_state.
        apply wp_bind. eapply wp_run; [reflexivity|].
        apply wp_bind. eapply wp_run; [reflexivity|].
        apply wp_call_lane_inv; [assumption|lia|]. intros l' Hl'.
        eapply wp_run; [apply addVehicle_run|].
        keep_inv.
      * keep_inv.
  - (* the pedestrian requests *)
    cbn beta. clear HP. intros _ s w0 (Hs & Hsig & ->).
    apply wp_bind. eapply wp_run; [reflexivity|].
    eapply wp_conseq; [apply (wp_for_each oof P)|].
    + intros d s0 w0 _ (Hs0 & Hsig0 & ->).
      apply wp_bind, wp_uniform_int. intros p g. forget_state.
      apply wp_when; intros _.
      * apply wp_call_ped. eapply wp_run; [reflexivity|].
        keep_inv.
      * keep_inv.
    + keep_inv.
    + cbn beta. intros _ s' w' H. exact H.
Qed.

Lemma inv_drained now dir passed rest lane c :
  controller_inv c ->
  IntersectionController.lanes c !! Z.to_nat (Direction_to_int dir) = Some lane ->
  controller_inv (drained now dir passed rest lane c).
Proof.
  intros Hinv Hlane.
  pose proof (inv_lane c Hinv _ _ Hlane) as Hfits.
  pose proof (inv_set_lane (Z.to_nat (Direction_to_int dir))
                (TrafficLane.set_vehicles rest lane) c Hinv Hfits) as [Hlen Hped Hsig Hl].
  split; assumption.
Qed.

Lemma processVehicles_wp oof fuel dir greenTime c w :
  controller_inv c ->
  0 <= greenTime <= Int.max_int ->
  oof \/ (Z.to_nat (Z.quot greenTime 2) < fuel)%nat ->
  wp oof (IntersectionController.processVehicles fuel dir greenTime) c w
     (fun _ c' w' =>
        controller_inv c' /\
        IntersectionController.signal c' = IntersectionController.signal c /\
        lamps w' = lamps w).
Proof.
  intros Hinv Hg Hfuel.
  pose proof (Direction_to_int_range dir) as Hdir.
  destruct (inv_lane_lookup c (Z.to_nat (Direction_to_int dir)) Hinv ltac:(lia))
    as (lane & Hlane & _).
  assert (Hcp : 0 <= Z.quot greenTime 2) by (apply Z.quot_pos; lia).
  assert (Hcp' : Z.quot greenTime 2 <= Int.max_int).
  { pose proof (Z.quot_le_upper_bound greenTime 2 greenTime).
    unfold Int.max_int in *. lia. }
  unfold IntersectionController.processVehicles, Int.div.
  rewrite wrap_id by (unfold Int.in_range, Int.min_int, Int.max_int in *; lia).
  unfold wp, bind.
  rewrite (processVehicles_loop_run fuel dir _ 0 c w lane _ _ Hlane eq_refl Hcp'
             ltac:(lia) eq_refl).
  destruct (_ <? fuel)%nat eqn:Hk.
  - cbn. split; [now apply inv_drained|split; reflexivity].
  - destruct Hfuel as [Hoof|Hfuel]; [exact Hoof|].
    apply Nat.ltb_ge in Hk. lia.
Qed.

Lemma findNextGreenDirection_wp oof c w :
  wp oof IntersectionController.findNextGreenDirection c w
     (fun _ c' w' => c' = c /\ clock w' = clock w /\ lamps w' = lamps w).
Proof.
  unfold wp. rewrite findNextGreenDirection_run.
  destruct (find _ _); repeat split.
Qed.

Lemma displayStats_wp oof c w :
  wp oof IntersectionController.displayStats c w
     (fun _ c' w' => c' = c /\ clock w' = clock w /\ lamps w' = lamps w).
Proof.
  unfold IntersectionController.displayStats, wp, bind, cout, gets, when.
  destruct (negb _); repeat split.
Qed.

Lemma displayQueueStatus_wp oof c w :
  controller_inv c ->
  wp oof IntersectionController.displayQueueStatus c w
     (fun _ c' w' => c' = c /\ clock w' = clock w /\ lamps w' = lamps w).
Proof.
  intros Hinv.
  set (P := fun (c' : IntersectionController) (w' : World) =>
              c' = c /\ clock w' = clock w /\ lamps w' = lamps w).
  unfold IntersectionController.displayQueueStatus.
  apply wp_bind. eapply wp_run; [reflexivity|].
  apply wp_bind. eapply wp_run; [reflexivity|].
  apply (wp_for_each oof P); [|repeat split].
  intros i s w0 Hi (-> & Hclock & Hlamps).
  apply list_elem_of_In, in_seq in Hi.
  destruct (lookup_lt_is_Some_2 (IntersectionController.lanes c) i ltac:(lia))
    as [lane Hlane].
  apply wp_bind.
  eapply wp_run; [exact (call_lane_pure i _ c _ lane _ _ Hlane (getDirection_run _ _))|].
  apply wp_bind.
  eapply wp_run; [exact (call_lane_pure i _ c _ lane _ _ Hlane (getQueueLength_run _ _))|].
  apply wp_bind.
  eapply wp_run; [exact (call_lane_pure i _ c _ lane _ _ Hlane (getAverageWaitTime_run _ _))|].
  apply wp_bind.
  eapply wp_run; [exact (call_lane_pure i _ c _ lane _ _ Hlane (getTrafficDensity_run _ _))|].
  apply wp_bind. eapply wp_run; [reflexivity|].
  apply wp_bind.
  destruct (inv_peds c Hinv (TrafficLane.direction lane)) as [p Hp].
  eapply wp_run.
  { unfold IntersectionController.ped_at_const, bind, gets. rewrite Hp. reflexivity. }
  apply wp_bind, wp_call_on. eapply wp_run; [reflexivity|].
  eapply wp_run; [reflexivity|].
  repeat split; assumption.
Qed.

Lemma currentGreenDirection_after_setYellow s :
  TrafficSignal.currentGreenDirection (after_setYellow s) =
  TrafficSignal.currentGreenDirection s.
Proof. unfold after_setYellow. now destruct (0 <=? _). Qed.

(** The signal part of a cycle: yellow and its hold if a direction is
    green, then [changeLight]. *)
Lemma signal_phase_wp {B} oof nextDir c w (rest : M IntersectionController B) Q :
  controller_inv c ->
  (forall c' w',
      controller_inv c' ->
      lamps w' = lamps w ++ cycle_commands (IntersectionController.signal c) nextDir (clock w) ->
      wp oof rest c' w' Q) ->
  wp oof
    (let* cur := call IntersectionController.signal_ TrafficSignal.getCurrentGreenDirection in
     when (0 <=? cur)
       (call IntersectionController.signal_ TrafficSignal.setYellow;;
        let* cur := call IntersectionController.signal_ TrafficSignal.getCurrentGreenDirection in
        cout [Text "Yellow light for ";
              Text (IntersectionController.directionToString_int cur); Text LF];;
        let* y := call IntersectionController.signal_ TrafficSignal.getYellowTime in
        sleep_for (y * ticks_per_second));;
     call IntersectionController.signal_ (TrafficSignal.changeLight nextDir);;
     rest)
    c w Q.
Proof.
  intros Hinv Hrest. pose proof (inv_signal c Hinv) as Hsig.
  unfold cycle_commands.
  apply wp_bind, wp_call_signal. eapply wp_run; [reflexivity|].
  cbn [IntersectionController.signal IntersectionController.set_signal].
  apply wp_bind.
  apply wp_conseq with
    (Q := fun _ c' w' =>
            controller_inv c' /\
            IntersectionController.signal c' = after_setYellow (IntersectionController.signal c) /\
            clock w' = (if 0 <=? TrafficSignal.currentGreenDirection (IntersectionController.signal c)
                        then clock w + TrafficSignal.yellowTime (IntersectionController.signal c)
                                       * ticks_per_second
                        else clock w) /\
            lamps w' = lamps w ++ setYellow_commands (IntersectionController.signal c) (clock w)).
  - apply wp_when; intros Hcur.
    + apply wp_bind, wp_call_signal.
      eapply wp_run; [apply setYellow_run; exact Hsig|].
      cbn [IntersectionController.signal IntersectionController.set_signal].
      apply wp_bind, wp_call_signal. eapply wp_run; [reflexivity|].
      cbn [IntersectionController.signal IntersectionController.set_signal].
      apply wp_bind. eapply wp_run; [reflexivity|].
      apply wp_bind, wp_call_signal. eapply wp_run; [reflexivity|].
      cbn [IntersectionController.signal IntersectionController.set_signal].
      eapply wp_run; [reflexivity|].
      rewrite Hcur. cbn [clock lamps with_lamps].
      split; [|split; [reflexivity|split; [|reflexivity]]].
      * repeat apply inv_set_signal; try assumption; now apply signal_inv_setYellow.
      * unfold after_setYellow. now rewrite Hcur.
    + rewrite Hcur. unfold after_setYellow, setYellow_commands. rewrite Hcur.
      split; [|split; [reflexivity|split; [reflexivity|now rewrite app_nil_r]]].
      now apply inv_set_signal.
  - cbn beta. intros _ c1 w1 (Hinv1 & Hsig1 & Hclock1 & Hlamps1).
    apply wp_bind, wp_call_signal.
    eapply wp_run; [apply changeLight_run; exact (inv_signal c1 Hinv1)|].
    apply Hrest.
    + apply inv_set_signal; [assumption|].
      apply signal_inv_changeLight. exact (inv_signal c1 Hinv1).
    + unfold cycle_commands. cbn [lamps with_lamps].
      rewrite Hlamps1, Hsig1, Hclock1. now rewrite app_assoc.
Qed.

(** The state of the goal becomes a variable that is only known to
    satisfy the invariant. *)
Tactic Notation "forget_to_inv" ident(s') ident(Hs1) :=
  match goal with
  | |- wp _ _ ?s1 _ _ =>
      assert (Hs1 : controller_inv s1)
        by first [ inv_step
                 | apply inv_set_signal; [inv_step|apply inv_signal; assumption] ];
      set (s' := s1) in *; clearbody s'
  end.

(** The environment of the goal becomes a variable that is only known
    to have the lamp history [L]. *)
Tactic Notation "forget_world" ident(w') ident(Hw) constr(L) :=
  match goal with
  | |- wp _ _ _ ?w1 _ =>
      assert (Hw : lamps w1 = L) by (cbn [lamps]; assumption);
      set (w' := w1) in *; clearbody w'
  end.

(** One cycle keeps the invariant and commands the lamps as
    [cycle_commands] says. *)
Lemma processCycle_wp oof fuel c w :
  controller_inv c ->
  oof \/ (30 < fuel)%nat ->
  wp oof (IntersectionController.processCycle fuel) c w
     (fun _ c' w' =>
        controller_inv c' /\
        exists nextDir,
          lamps w' = lamps w ++ cycle_commands (IntersectionController.signal c) nextDir (clock w)).
Proof.
  intros Hinv Hfuel. unfold IntersectionController.processCycle.
  apply wp_bind. eapply wp_run; [reflexivity|].
  apply wp_bind. eapply wp_run; [reflexivity|].
  apply wp_bind. eapply wp_run; [reflexivity|].
  apply wp_bind. eapply wp_conseq; [apply generateTraffic_wp; inv_step|].
  cbn beta. intros _ c2 w2 (Hinv2 & Hsig2 & ->).
  apply wp_bind. eapply wp_conseq; [apply displayQueueStatus_wp; assumption|].
  cbn beta. intros _ c3 w3 (-> & Hclock3 & Hlamps3).
  apply wp_bind. eapply wp_conseq; [apply findNextGreenDirection_wp|].
  cbn beta. intros nextDir c4 w4 (-> & Hclock4 & Hlamps4).
  apply signal_phase_wp; [assumption|]. intros c5 w5 Hinv5 Hlamps5.
  rewrite Hlamps4, Hlamps3, Hclock4, Hclock3, Hsig2 in Hlamps5.
  cbn [lamps clock IntersectionController.signal
       IntersectionController.set_cycleCounter] in Hlamps5.
  clear dependent c2. clear dependent w3. clear dependent w4.
  set (L := lamps w ++ cycle_commands (IntersectionController.signal c) nextDir (clock w)) in *.
  assert (Hpost : forall (c' : IntersectionController) (w' : World),
             controller_inv c' -> lamps w' = L ->
             controller_inv c' /\
             exists d, lamps w' = lamps w ++ cycle_commands (IntersectionController.signal c) d (clock w)).
  { intros c' w' Hc' Hw'. split; [exact Hc'|]. exists nextDir. exact Hw'. }
  clearbody L. clear Hinv.
  pose proof (Direction_to_int_range nextDir) as Hdir.
  apply wp_bind, wp_call_lane_inv; [assumption|lia|]. intros lane Hlane.
  eapply wp_run; [reflexivity|]. forget_to_inv c6 Hinv6. clear dependent c5.
  apply wp_bind, wp_call_signal.
  eapply wp_run; [apply calculateAdaptiveGreenTime_run|].
  match goal with
  | |- context [clamp ?t ?lo ?hi] =>
      pose proof (clamp_bounds t lo hi) as Hgreen;
      set (greenTime := clamp t lo hi) in *; clearbody greenTime
  end.
  rewrite (inv_min _ (inv_signal _ Hinv6)), (inv_max _ (inv_signal _ Hinv6)) in Hgreen.
  specialize (Hgreen ltac:(lia)).
  forget_to_inv c7 Hinv7. clear dependent c6.
  apply wp_bind. eapply wp_run; [reflexivity|].
  forget_world w6 Hlamps6 L.
  apply wp_bind, wp_call_ped. eapply wp_run; [reflexivity|].
  forget_to_inv c8 Hinv8.
  apply wp_bind.
  apply wp_conseq with (Q := fun _ c' w' => controller_inv c' /\ lamps w' = L).
  - apply wp_when; intros _; [|now split].
    apply wp_bind, wp_call_ped. eapply wp_run; [reflexivity|].
    forget_to_inv c9 Hinv9.
    apply wp_bind. eapply wp_run; [reflexivity|].
    apply wp_bind. eapply wp_run; [reflexivity|].
    apply wp_call_ped. eapply wp_run; [reflexivity|].
    split; [inv_step|exact Hlamps6].
  - cbn beta.
    intros _ c10 w7 (Hinv10 & Hlamps7).
    apply wp_bind. eapply wp_conseq.
    + apply processVehicles_wp; [assumption|unfold Int.max_int; lia|].
      destruct Hfuel as [Hoof|Hfuel]; [now left|right].
      assert (Z.quot greenTime 2 <= 30) by (apply Z.quot_le_upper_bound; lia).
      lia.
    + cbn beta. intros _ c11 w8 (Hinv11 & _ & Hlamps8).
      apply wp_bind. eapply wp_conseq; [apply displayStats_wp|].
      cbn beta. intros _ c12 w9 (-> & _ & Hlamps9).
      eapply wp_run; [reflexivity|].
      apply Hpost; [assumption|]. cbn [lamps]. congruence.
Qed.

Lemma controller_reachable_inv c : controller_reachable c -> controller_inv c.
Proof.
  induction 1 as [entropy|fuel c w c' w' _ IH Hrun].
  - apply controller_inv_new.
  - pose proof (processCycle_wp True fuel c w IH ltac:(now left)) as Hwp.
    apply (wp_returned _ _ _ _ _ _ _ Hwp Hrun).
Qed.

Lemma cycle_commands_green s d now :
  signal_inv s ->
  cycle_commands s d now =
  if 0 <=? TrafficSignal.currentGreenDirection s then
    [ {| at_time := now; lamp := TrafficSignal.currentGreenDirection s; colour := YELLOW |};
      {| at_time := now + 3 * ticks_per_second;
         lamp := TrafficSignal.currentGreenDirection s; colour := RED |};
      {| at_time := now + 3 * ticks_per_second;
         lamp := Direction_to_int d; colour := GREEN |} ]
  else
    [ {| at_time := now; lamp := Direction_to_int d; colour := GREEN |} ].
Proof.
  intros Hs. unfold cycle_commands, setYellow_commands, changeLight_commands.
  rewrite currentGreenDirection_after_setYellow, (inv_yellow s Hs).
  destruct (0 <=? _); reflexivity.
Qed.

Lemma cycle_commands_red s d now pre e post :
  signal_inv s ->
  cycle_commands s d now = pre ++ e :: post ->
  colour e = RED ->
  pre = [ {| at_time := at_time e - TrafficSignal.yellowTime s * ticks_per_second;
             lamp := lamp e; colour := YELLOW |} ].
Proof.
  intros Hs. rewrite (cycle_commands_green s d now Hs), (inv_yellow s Hs).
  destruct (0 <=? _); intros Heq Hred.
  - destruct pre as [|e0 [|e1 [|e2 pre]]]; cbn in Heq.
    + injection Heq as <- _. discriminate.
    + injection Heq as <- <- _. cbn. do 2 f_equal. lia.
    + injection Heq as _ _ <- _. discriminate.
    + injection Heq as _ _ _ Heq. now destruct pre.
  - destruct pre as [|e0 pre]; cbn in Heq.
    + injection Heq as <- _. discriminate.
    + injection Heq as _ Heq. now destruct pre.
Qed.

(** C6. In every cycle of a controller, from the constructor on, the
    lamps are commanded as follows: if a direction is green, it is
    switched to yellow, and red comes [yellowTime] = 3 seconds of the
    logical clock later, with no lamp command in between; the new
    direction turns green at that instant. So every command to red is
    directly preceded by the command to yellow of the same lamp, given
    exactly [yellowTime] earlier. The cycle returns. *)
Theorem yellow_hold_before_red fuel c w
    (Hc : controller_reachable c) (Hfuel : (30 < fuel)%nat) :
  TrafficSignal.yellowTime (IntersectionController.signal c) = 3 /\
  exists c' w' nextDir,
    IntersectionController.processCycle fuel c w = Returns tt c' w' /\
    lamps w' = lamps w ++ cycle_commands (IntersectionController.signal c) nextDir (clock w) /\
    (0 <= TrafficSignal.currentGreenDirection (IntersectionController.signal c) ->
     cycle_commands (IntersectionController.signal c) nextDir (clock w) =
     [ {| at_time := clock w;
          lamp := TrafficSignal.currentGreenDirection (IntersectionController.signal c);
          colour := YELLOW |};
       {| at_time := clock w + 3 * ticks_per_second;
          lamp := TrafficSignal.currentGreenDirection (IntersectionController.signal c);
          colour := RED |};
       {| at_time := clock w + 3 * ticks_per_second;
          lamp := Direction_to_int nextDir; colour := GREEN |} ]) /\
    (forall pre e post,
        cycle_commands (IntersectionController.signal c) nextDir (clock w) = pre ++ e :: post ->
        colour e = RED ->
        pre = [ {| at_time := at_time e
                              - TrafficSignal.yellowTime (IntersectionController.signal c)
                                * ticks_per_second;
                   lamp := lamp e; colour := YELLOW |} ]).
Proof.
  apply controller_reachable_inv in Hc.
  pose proof (inv_signal c Hc) as Hs.
  split; [exact (inv_yellow _ Hs)|].
  destruct (wp_returns _ _ _ _ (processCycle_wp False fuel c w Hc ltac:(now right)))
    as ([] & c' & w' & Hrun & _ & nextDir & Hlamps).
  exists c', w', nextDir. split; [exact Hrun|]. split; [exact Hlamps|]. split.
  - intros Hcur. rewrite (cycle_commands_green _ _ _ Hs).
    now replace (0 <=? _) with true by (symmetry; apply Z.leb_le; exact Hcur).
  - intros pre e post. now apply cycle_commands_red.
Qed.

Lemma clamp_max_min d : clamp d 0 10 = Z.max 0 (Z.min d 10).
Proof.
  unfold clamp.
  destruct (Z.ltb_spec d 0); [lia|].
  destruct (Z.ltb_spec 10 d); lia.
Qed.

Lemma lane_call_density op l w l' :
  final_state (lane_call op l w) = Some l' ->
  TrafficLane.trafficDensity l' =
    match op with
    | OpSetTrafficDensity d => Z.max 0 (Z.min d 10)
    | _ => TrafficLane.trafficDensity l
    end.
Proof.
  destruct op; unfold lane_call, void, bind;
    rewrite ?hasVehicles_run, ?getQueueLength_run, ?getTotalWaitTime_run,
      ?getAverageWaitTime_run, ?hasEmergencyVehicle_run, ?addVehicle_run,
      ?setTrafficDensity_run;
    try (cbn; intros [= <-]; reflexivity).
  - destruct (TrafficLane.vehicles l) as [|v q] eqn:Hq.
    + rewrite processVehicle_empty by assumption. now intros [= <-].
    + rewrite (processVehicle_front v q) by assumption. now intros [= <-].
  - cbn. intros [= <-]. apply clamp_max_min.
Qed.

(** C7. The density of a lane is in [[0,10]] at all times.
    [setTrafficDensity(d)] returns and leaves a lane whose density, as a
    field and as [getTrafficDensity] then returns it, is
    [clamp(d, 0, 10)]: 0 for [d < 0], [d] itself for [0 <= d <= 10] and
    10 for [d > 10]; the direction and the queue are as they were. The
    constructor stores 5. Of the member functions only
    [setTrafficDensity] changes the density. Hence every lane that can
    exist has its density in range, and so have the lanes of every
    controller, from its constructor on through its cycles. *)
Theorem density_in_range :
  (forall d l w,
      exists l',
        TrafficLane.setTrafficDensity d l w = Returns tt l' w /\
        TrafficLane.getTrafficDensity l' w = Returns (Z.max 0 (Z.min d 10)) l' w /\
        TrafficLane.trafficDensity l' = Z.max 0 (Z.min d 10) /\
        (d < 0 -> TrafficLane.trafficDensity l' = 0) /\
        (0 <= d <= 10 -> TrafficLane.trafficDensity l' = d) /\
        (10 < d -> TrafficLane.trafficDensity l' = 10) /\
        0 <= TrafficLane.trafficDensity l' <= 10 /\
        TrafficLane.direction l' = TrafficLane.direction l /\
        TrafficLane.vehicles l' = TrafficLane.vehicles l) /\
  (forall d, clamp d 0 10 = Z.max 0 (Z.min d 10)) /\
  (forall dir w,
      TrafficLane.getTrafficDensity (TrafficLane.new dir) w =
        Returns 5 (TrafficLane.new dir) w) /\
  (forall op l w l',
      final_state (lane_call op l w) = Some l' ->
      TrafficLane.trafficDensity l' =
        match op with
        | OpSetTrafficDensity d => Z.max 0 (Z.min d 10)
        | _ => TrafficLane.trafficDensity l
        end) /\
  (forall l, lane_reachable l -> 0 <= TrafficLane.trafficDensity l <= 10) /\
  (forall c, controller_reachable c ->
             Forall (fun l => 0 <= TrafficLane.trafficDensity l <= 10)
                    (IntersectionController.lanes c)).
Proof.
  split; [|split; [|split; [|split; [|split]]]].
  - intros d l w. eexists. split; [apply setTrafficDensity_run|].
    rewrite getTrafficDensity_run.
    cbn [TrafficLane.trafficDensity TrafficLane.set_trafficDensity
         TrafficLane.direction TrafficLane.vehicles].
    rewrite clamp_max_min. repeat split; try reflexivity; lia.
  - exact clamp_max_min.
  - reflexivity.
  - exact lane_call_density.
  - exact lane_reachable_density.
  - intros c Hc. exact (inv_density c (controller_reachable_inv c Hc)).
Qed.

Lemma enough_fuel : (30 < 31)%nat.
Proof. lia. Qed.

(** The run of [scenario_entropy]: its first cycle returns and leaves
    North green. *)
Lemma scenario_cycle2_run :
  IntersectionController.processCycle 31 scenario_run scenario_world =
    Returns tt scenario_cycle2.1 scenario_cycle2.2.
Proof. vm_compute. reflexivity. Qed.

Lemma scenario_cycle2_reachable : controller_reachable scenario_cycle2.1.
Proof.
  eapply controller_cycle; [apply controller_new|exact scenario_cycle2_run].
Qed.

Lemma scenario_cycle2_green :
  TrafficSignal.currentGreenDirection (IntersectionController.signal scenario_cycle2.1) = 0 /\
  clock scenario_cycle2.2 = 103500.
Proof. split; vm_compute; reflexivity. Qed.

Lemma yellow_hold_before_red_witness :
  (TrafficSignal.currentGreenDirection (IntersectionController.signal scenario_cycle2.1) = 0 /\
   clock scenario_cycle2.2 = 103500) /\
  TrafficSignal.yellowTime (IntersectionController.signal scenario_cycle2.1) = 3 /\
  exists c' w' nextDir,
    IntersectionController.processCycle 31 scenario_cycle2.1 scenario_cycle2.2 =
      Returns tt c' w' /\
    lamps w' =
      lamps scenario_cycle2.2
      ++ cycle_commands (IntersectionController.signal scenario_cycle2.1)
           nextDir (clock scenario_cycle2.2) /\
    (0 <= TrafficSignal.currentGreenDirection
            (IntersectionController.signal scenario_cycle2.1) ->
     cycle_commands (IntersectionController.signal scenario_cycle2.1)
       nextDir (clock scenario_cycle2.2) =
     [ {| at_time := clock scenario_cycle2.2;
          lamp := TrafficSignal.currentGreenDirection
                    (IntersectionController.signal scenario_cycle2.1);
          colour := YELLOW |};
       {| at_time := clock scenario_cycle2.2 + 3 * ticks_per_second;
          lamp := TrafficSignal.currentGreenDirection
                    (IntersectionController.signal scenario_cycle2.1);
          colour := RED |};
       {| at_time := clock scenario_cycle2.2 + 3 * ticks_per_second;
          lamp := Direction_to_int nextDir; colour := GREEN |} ]) /\
    (forall pre e post,
        cycle_commands (IntersectionController.signal scenario_cycle2.1)
          nextDir (clock scenario_cycle2.2) = pre ++ e :: post ->
        colour e = RED ->
        pre = [ {| at_time := at_time e
                              - TrafficSignal.yellowTime
                                  (IntersectionController.signal scenario_cycle2.1)
                                * ticks_per_second;
                   lamp := lamp e; colour := YELLOW |} ]).
Proof.
  exact (conj scenario_cycle2_green
           (yellow_hold_before_red 31 scenario_cycle2.1 scenario_cycle2.2
              scenario_cycle2_reachable enough_fuel)).
Defined.

(** The second cycle of that run: North, green since the first cycle, is
    switched to yellow at 103500 and to red 3000 ms later, when East
    turns green. *)
Example scenario_cycle2_lamps :
  match IntersectionController.processCycle 31 scenario_cycle2.1 scenario_cycle2.2 with
  | Returns _ c w =>
      lamps w =
      [ {| at_time := 100000; lamp := 0; colour := GREEN |};
        {| at_time := 103500; lamp := 0; colour := YELLOW |};
        {| at_time := 106500; lamp := 0; colour := RED |};
        {| at_time := 106500; lamp := 1; colour := GREEN |} ] /\
      clock w = 110000
  | _ => False
  end.
Proof. vm_compute. split; reflexivity. Qed.

(** Three cycles from the constructor, a vehicle arriving on every lane
    in every cycle: each red comes 3000 ms after the yellow of the same
    lamp. *)
Example three_cycles_lamps :
  match IntersectionController.run 31 3 (IntersectionController.new (fun _ => 5%N))
          scenario_world with
  | Returns _ c w =>
      lamps w =
      [ {| at_time := 100000; lamp := 0; colour := GREEN |};
        {| at_time := 100500; lamp := 0; colour := YELLOW |};
        {| at_time := 103500; lamp := 0; colour := RED |};
        {| at_time := 103500; lamp := 0; colour := GREEN |};
        {| at_time := 104000; lamp := 0; colour := YELLOW |};
        {| at_time := 107000; lamp := 0; colour := RED |};
        {| at_time := 107000; lamp := 1; colour := GREEN |} ] /\
      TrafficSignal.lightStates (IntersectionController.signal c) = [RED; GREEN; RED; RED]
  | _ => False
  end.
Proof. vm_compute. split; reflexivity. Qed.

(** ** Time only passes *)

(** A vehicle takes the instant of its construction as its arrival time
    and the clock is only ever advanced, by the holds of a cycle. Hence no
    vehicle in a lane is from the future, and no waiting time is negative,
    at any point of a run. This is shown statement by statement: every
    member function of the controller is [forward]. *)

Lemma lane_arrived_mono now now' l :
  now <= now' -> lane_arrived now l -> lane_arrived now' l.
Proof.
  intros Hle Hl. eapply Forall_impl; [exact Hl|]. cbn beta. intros v Hv. lia.
Qed.

Lemma arrived_mono now now' c : now <= now' -> arrived now c -> arrived now' c.
Proof.
  intros Hle Hc. eapply Forall_impl; [exact Hc|].
  intros l. now apply lane_arrived_mono.
Qed.

Lemma time_passes_refl c w : time_passes c w c w.
Proof. intros Hy. split; [exact Hy|split; [lia|auto]]. Qed.

Lemma time_passes_trans c w c1 w1 c2 w2 :
  time_passes c w c1 w1 -> time_passes c1 w1 c2 w2 -> time_passes c w c2 w2.
Proof.
  intros H1 H2 Hy. destruct (H1 Hy) as (Hy1 & Hle1 & Ha1).
  destruct (H2 Hy1) as (Hy2 & Hle2 & Ha2).
  split; [exact Hy2|split; [lia|auto]].
Qed.

(** Time only passes where the lanes and the signal are left alone and
    the clock is not set back. *)
Lemma time_passes_frame c w c' w' :
  IntersectionController.lanes c' = IntersectionController.lanes c ->
  IntersectionController.signal c' = IntersectionController.signal c ->
  clock w <= clock w' ->
  time_passes c w c' w'.
Proof.
  intros Hl Hs Hle Hy. rewrite Hs. split; [exact Hy|split; [exact Hle|]].
  unfold arrived. rewrite Hl. now apply arrived_mono.
Qed.

Lemma forward_ret {A} (a : A) : forward (ret a).
Proof. intros c w a' c' w' [= <- <- <-]. apply time_passes_refl. Qed.

Lemma forward_bind {A B} (m : M IntersectionController A)
    (k : A -> M IntersectionController B) :
  forward m -> (forall a, forward (k a)) -> forward (bind m k).
Proof.
  intros Hm Hk c w b c' w'. unfold bind.
  destruct (m c w) as [a c1 w1| | |] eqn:Hrun; try discriminate.
  intros Hrun'. eapply time_passes_trans; [eapply Hm, Hrun|eapply Hk, Hrun'].
Qed.

Lemma forward_when b (m : M IntersectionController unit) :
  forward m -> forward (when b m).
Proof. destruct b; [auto|intros _; apply forward_ret]. Qed.

Lemma forward_for_each {X} (xs : list X) (body : X -> M IntersectionController unit) :
  (forall x, forward (body x)) -> forward (for_each xs body).
Proof.
  intros Hbody. induction xs as [|x xs IH]; cbn [for_each].
  - apply forward_ret.
  - apply forward_bind; auto.
Qed.

Lemma forward_gets {A} (f : IntersectionController -> A) : forward (gets f).
Proof. intros c w a c' w' [= <- <- <-]. apply time_passes_refl. Qed.

Lemma forward_cout ts : forward (cout ts).
Proof. intros c w a c' w' [= <- <- <-]. now apply time_passes_frame. Qed.

Lemma forward_sleep_for ms : 0 <= ms -> forward (sleep_for ms).
Proof.
  intros Hms c w a c' w' [= <- <- <-]. apply time_passes_frame; cbn; (reflexivity || lia).
Qed.

(** The counters are neither lanes nor signal. *)
Lemma forward_modify f :
  (forall c, IntersectionController.lanes (f c) = IntersectionController.lanes c /\
             IntersectionController.signal (f c) = IntersectionController.signal c) ->
  forward (modify f).
Proof.
  intros Hf c w a c' w' [= <- <- <-]. destruct (Hf c).
  now apply time_passes_frame.
Qed.

Lemma forward_rng_next : forward IntersectionController.rng_next.
Proof. intros c w a c' w' [= <- <- <-]. now apply time_passes_frame. Qed.

Lemma forward_uniform_int a b : forward (IntersectionController.uniform_int a b).
Proof. intros c w x c' w' [= <- <- <-]. now apply time_passes_frame. Qed.

Lemma forward_call_on {T A} (t : T) (m : M T A) : instant m -> forward (call_on t m).
Proof.
  intros Hm c w a c' w'. unfold call_on.
  destruct (m t w) as [a1 t1 w1| | |] eqn:Hrun; try discriminate.
  intros [= <- <- <-]. apply time_passes_frame; try reflexivity.
  rewrite (Hm _ _ _ _ _ Hrun). lia.
Qed.

Lemma forward_call_ped {A} d (m : M PedestrianSignal A) :
  instant m -> forward (call (IntersectionController.ped_at d) m).
Proof.
  intros Hm c w a c' w'. rewrite call_ped_run.
  destruct (m _ w) as [a1 t1 w1| | |] eqn:Hrun; try discriminate.
  intros [= <- <- <-]. apply time_passes_frame; try reflexivity.
  rewrite (Hm _ _ _ _ _ Hrun). lia.
Qed.

Lemma forward_ped_at_const d : forward (IntersectionController.ped_at_const d).
Proof.
  intros c w a c' w'. unfold IntersectionController.ped_at_const, bind, gets.
  destruct (_ !! d); [|discriminate].
  intros [= <- <- <-]. apply time_passes_refl.
Qed.

Lemma forward_call_signal {A} (m : M TrafficSignal A) :
  signal_keeps m -> forward (call IntersectionController.signal_ m).
Proof.
  intros Hm c w a c' w'. rewrite call_signal_run.
  destruct (m _ w) as [a1 s1 w1| | |] eqn:Hrun; try discriminate.
  intros [= <- <- <-]. destruct (Hm _ _ _ _ _ Hrun) as [Hclock Hy].
  intros Hy0. cbn [IntersectionController.signal IntersectionController.set_signal].
  rewrite Hy, Hclock. split; [exact Hy0|split; [lia|auto]].
Qed.

Lemma arrived_insert now i l c :
  arrived now c -> lane_arrived now l ->
  arrived now (IntersectionController.set_lanes
                 (<[i := l]> (IntersectionController.lanes c)) c).
Proof.
  unfold arrived. cbn [IntersectionController.lanes IntersectionController.set_lanes].
  intros Hc Hl. apply Forall_insert; assumption.
Qed.

Lemma forward_call_lane {A} i (m : M TrafficLane A) :
  lane_keeps m -> forward (call (IntersectionController.lane_at i) m).
Proof.
  intros Hm c w a c' w'. unfold call.
  destruct (view _ c) as [l|] eqn:Hview; [|discriminate].
  destruct (m l w) as [a1 l1 w1| | |] eqn:Hrun; try discriminate.
  intros [= <- <- <-]. destruct (Hm _ _ _ _ _ Hrun) as [Hclock Hsub].
  intros Hy. cbn [update IntersectionController.lane_at IntersectionController.signal
                  IntersectionController.set_lanes].
  rewrite Hclock. split; [exact Hy|split; [lia|]].
  intros Harr. apply arrived_insert; [exact Harr|].
  cbn [view IntersectionController.lane_at] in Hview.
  destruct (0 <=? i); [|discriminate].
  unfold arrived in Harr. rewrite Forall_lookup in Harr.
  specialize (Harr _ _ Hview). unfold lane_arrived in *.
  rewrite Forall_forall in *. intros v Hv. apply Harr, Hsub, Hv.
Qed.

Lemma lane_keeps_pure {A} (m : M TrafficLane A) (f : TrafficLane -> World -> A) :
  (forall l w, m l w = Returns (f l w) l w) -> lane_keeps m.
Proof. intros Hm l w a l' w'. rewrite Hm. now intros [= <- <- <-]. Qed.

Lemma lane_keeps_get : lane_keeps get.
Proof. now apply (lane_keeps_pure _ (fun l _ => l)). Qed.

Lemma lane_keeps_hasVehicles : lane_keeps TrafficLane.hasVehicles.
Proof. eapply lane_keeps_pure. intros. apply hasVehicles_run. Qed.

Lemma lane_keeps_getQueueLength : lane_keeps TrafficLane.getQueueLength.
Proof. eapply lane_keeps_pure. intros. apply getQueueLength_run. Qed.

Lemma lane_keeps_getAverageWaitTime : lane_keeps TrafficLane.getAverageWaitTime.
Proof.
  apply (lane_keeps_pure _ (fun l w =>
    match TrafficLane.vehicles l with
    | [] => Double.of_Z 0
    | _ :: _ =>
        Double.div (Double.of_Z (Int.wrap (sum_Z (waits (clock w) l))))
                   (Double.of_Z (Z.of_nat (length (TrafficLane.vehicles l))))
    end)).
  intros. apply getAverageWaitTime_run.
Qed.

Lemma lane_keeps_getDirection : lane_keeps TrafficLane.getDirection.
Proof. eapply lane_keeps_pure. intros. apply getDirection_run. Qed.

Lemma lane_keeps_getTrafficDensity : lane_keeps TrafficLane.getTrafficDensity.
Proof. eapply lane_keeps_pure. intros. apply getTrafficDensity_run. Qed.

Lemma lane_keeps_hasEmergencyVehicle : lane_keeps TrafficLane.hasEmergencyVehicle.
Proof. eapply lane_keeps_pure. intros. apply hasEmergencyVehicle_run. Qed.

Lemma lane_keeps_setTrafficDensity d : lane_keeps (TrafficLane.setTrafficDensity d).
Proof.
  intros l w a l' w'. rewrite setTrafficDensity_run. now intros [= <- <- <-].
Qed.

Lemma lane_keeps_processVehicle : lane_keeps TrafficLane.processVehicle.
Proof.
  intros l w a l' w'. destruct (TrafficLane.vehicles l) as [|v q] eqn:Hq.
  - now rewrite processVehicle_empty.
  - rewrite (processVehicle_front v q) by exact Hq. intros [= <- <- <-].
    split; [reflexivity|]. cbn [TrafficLane.vehicles TrafficLane.set_vehicles].
    set_solver.
Qed.

Lemma signal_keeps_pure {A} (m : M TrafficSignal A) (f : TrafficSignal -> A) :
  (forall s w, m s w = Returns (f s) s w) -> signal_keeps m.
Proof. intros Hm s w a s' w'. rewrite Hm. now intros [= <- <- <-]. Qed.

Lemma signal_keeps_gets {A} (f : TrafficSignal -> A) : signal_keeps (gets f).
Proof. now apply (signal_keeps_pure _ f). Qed.

Lemma signal_keeps_write_light i v : signal_keeps (TrafficSignal.write_light i v).
Proof.
  intros s w a s' w'. unfold TrafficSignal.write_light.
  destruct (_ && _); [|discriminate]. now intros [= <- <- <-].
Qed.

Lemma signal_keeps_setYellow : signal_keeps TrafficSignal.setYellow.
Proof.
  intros s w a s' w'. unfold TrafficSignal.setYellow, bind, gets, when.
  destruct (0 <=? _); [apply signal_keeps_write_light|now intros [= <- <- <-]].
Qed.

Lemma signal_keeps_changeLight d : signal_keeps (TrafficSignal.changeLight d).
Proof.
  intros s w a s' w'. unfold TrafficSignal.changeLight, bind, gets, when, modify.
  destruct ((if 0 <=? TrafficSignal.currentGreenDirection s
             then TrafficSignal.write_light (TrafficSignal.currentGreenDirection s) RED
             else ret tt) s w) as [[] s1 w1| | |] eqn:Hred; try discriminate.
  assert (Hk1 : clock w1 = clock w /\
                TrafficSignal.yellowTime s1 = TrafficSignal.yellowTime s).
  { destruct (0 <=? _); [eapply signal_keeps_write_light, Hred|].
    now injection Hred as <- <-. }
  destruct (TrafficSignal.write_light (Direction_to_int d) GREEN s1 w1)
    as [[] s2 w2| | |] eqn:Hgreen; try discriminate.
  destruct (signal_keeps_write_light _ _ _ _ _ _ _ Hgreen) as [Hc2 Hy2].
  intros [= <- <-]. cbn. destruct Hk1. split; congruence.
Qed.

Lemma forward_new_vehicle i vid isEmergency :
  forward (let* v := Vehicle.new vid isEmergency in
           call (IntersectionController.lane_at i) (TrafficLane.addVehicle v)).
Proof.
  intros c w a c' w'. cbv [bind Vehicle.new system_clock_now ret call].
  destruct (view _ c) as [l|] eqn:Hview; [|discriminate].
  rewrite addVehicle_run. intros [= <- <- <-]. intros Hy.
  split; [exact Hy|split; [lia|]]. intros Harr.
  cbn [update IntersectionController.lane_at].
  apply arrived_insert; [exact Harr|].
  cbn [view IntersectionController.lane_at] in Hview.
  destruct (0 <=? i); [|discriminate].
  unfold arrived in Harr. rewrite Forall_lookup in Harr.
  specialize (Harr _ _ Hview). unfold lane_arrived in *.
  cbn [TrafficLane.vehicles TrafficLane.set_vehicles].
  apply Forall_app. split; [exact Harr|].
  apply Forall_singleton. cbn. lia.
Qed.

Lemma forward_yellow_hold :
  forward (let* y := call IntersectionController.signal_ TrafficSignal.getYellowTime in
           sleep_for (y * ticks_per_second)).
Proof.
  intros c w a c' w' [= <- <- <-]. intros Hy.
  split; [destruct c; exact Hy|]. cbn [clock].
  assert (Hle : clock w <=
                clock w + TrafficSignal.yellowTime (IntersectionController.signal c)
                          * ticks_per_second) by (unfold ticks_per_second; lia).
  split; [exact Hle|]. intros Harr.
  apply (arrived_mono _ _ _ Hle) in Harr. destruct c; exact Harr.
Qed.

Lemma instant_getWaitingTime : instant Vehicle.getWaitingTime.
Proof. intros v w a v' w'. rewrite getWaitingTime_run. now intros [= _ _ <-]. Qed.

Lemma instant_gets {S A} (f : S -> A) : instant (gets f).
Proof. now intros s w a s' w' [= _ _ <-]. Qed.

Lemma instant_modify {S} (f : S -> S) : instant (modify f).
Proof. now intros s w a s' w' [= _ _ <-]. Qed.

Lemma instant_grantCrossing : instant PedestrianSignal.grantCrossing.
Proof. now intros s w a s' w' [= _ _ <-]. Qed.

(** One step through the text of a member function of the controller. *)
Ltac forward_step :=
  cbv zeta;
  match goal with
  | |- forward (bind (Vehicle.new _ _) _) => apply forward_new_vehicle
  | |- forward (bind (call IntersectionController.signal_ TrafficSignal.getYellowTime) _) =>
      apply forward_yellow_hold
  | |- forward (bind _ _) => apply forward_bind; [|intros ?]
  | |- forward (if ?b then _ else _) => destruct b
  | |- forward (match ?r with Some _ => _ | None => _ end) => destruct r
  | |- forward (ret _) => apply forward_ret
  | |- forward (gets _) => apply forward_gets
  | |- forward (cout _) => apply forward_cout
  | |- forward (when _ _) => apply forward_when
  | |- forward (for_each _ _) => apply forward_for_each; intros ?
  | |- forward (sleep_for _) => apply forward_sleep_for; unfold ticks_per_second; lia
  | |- forward (modify _) => apply forward_modify; intros ?; split; reflexivity
  | |- forward (IntersectionController.uniform_int _ _) => apply forward_uniform_int
  | |- forward IntersectionController.rng_next => apply forward_rng_next
  | |- forward (IntersectionController.ped_at_const _) => apply forward_ped_at_const
  | |- forward (call_on _ Vehicle.getWaitingTime) =>
      apply forward_call_on, instant_getWaitingTime
  | |- forward (call_on _ (gets _)) => apply forward_call_on, instant_gets
  | |- forward (call_on _ _) => apply forward_call_on, instant_gets
  | |- forward (call (IntersectionController.ped_at _) PedestrianSignal.grantCrossing) =>
      apply forward_call_ped, instant_grantCrossing
  | |- forward (call (IntersectionController.ped_at _) PedestrianSignal.isRequested) =>
      apply forward_call_ped, instant_gets
  | |- forward (call (IntersectionController.ped_at _) _) =>
      apply forward_call_ped, instant_modify
  | |- forward (call (IntersectionController.lane_at _) get) =>
      apply forward_call_lane, lane_keeps_get
  | |- forward (call (IntersectionController.lane_at _) TrafficLane.hasVehicles) =>
      apply forward_call_lane, lane_keeps_hasVehicles
  | |- forward (call (IntersectionController.lane_at _) TrafficLane.getQueueLength) =>
      apply forward_call_lane, lane_keeps_getQueueLength
  | |- forward (call (IntersectionController.lane_at _) TrafficLane.getAverageWaitTime) =>
      apply forward_call_lane, lane_keeps_getAverageWaitTime
  | |- forward (call (IntersectionController.lane_at _) TrafficLane.getDirection) =>
      apply forward_call_lane, lane_keeps_getDirection
  | |- forward (call (IntersectionController.lane_at _) TrafficLane.getTrafficDensity) =>
      apply forward_call_lane, lane_keeps_getTrafficDensity
  | |- forward (call (IntersectionController.lane_at _) TrafficLane.hasEmergencyVehicle) =>
      apply forward_call_lane, lane_keeps_hasEmergencyVehicle
  | |- forward (call (IntersectionController.lane_at _) TrafficLane.processVehicle) =>
      apply forward_call_lane, lane_keeps_processVehicle
  | |- forward (call (IntersectionController.lane_at _) (TrafficLane.setTrafficDensity _)) =>
      apply forward_call_lane, lane_keeps_setTrafficDensity
  | |- forward (call IntersectionController.signal_ TrafficSignal.setYellow) =>
      apply forward_call_signal, signal_keeps_setYellow
  | |- forward (call IntersectionController.signal_ (TrafficSignal.changeLight _)) =>
      apply forward_call_signal, signal_keeps_changeLight
  | |- forward (call IntersectionController.signal_
                  (TrafficSignal.calculateAdaptiveGreenTime _)) =>
      apply forward_call_signal;
      eapply signal_keeps_pure; intros; apply calculateAdaptiveGreenTime_run
  | |- forward (call IntersectionController.signal_ _) =>
      apply forward_call_signal, signal_keeps_gets
  end.

Lemma generateTraffic_forward : forward IntersectionController.generateTraffic.
Proof. unfold IntersectionController.generateTraffic. repeat forward_step. Qed.

Lemma displayQueueStatus_forward : forward IntersectionController.displayQueueStatus.
Proof. unfold IntersectionController.displayQueueStatus. repeat forward_step. Qed.

Lemma displayStats_forward : forward IntersectionController.displayStats.
Proof. unfold IntersectionController.displayStats. repeat forward_step. Qed.

Lemma findNextGreenDirection_forward :
  forward IntersectionController.findNextGreenDirection.
Proof.
  intros c w a c' w'. rewrite findNextGreenDirection_run.
  destruct (find _ _); intros [= <- <- <-]; now apply time_passes_frame.
Qed.

Lemma processVehicles_forward fuel dir greenTime :
  forward (IntersectionController.processVehicles fuel dir greenTime).
Proof.
  unfold IntersectionController.processVehicles. cbv zeta.
  apply forward_bind; [|intros ?; forward_step].
  generalize (Int.div greenTime 2), 0.
  induction fuel as [|fuel IH]; intros canPass passed;
    cbn [IntersectionController.processVehicles_loop].
  - intros c w a c' w' [=].
  - repeat first [apply IH | forward_step].
Qed.

Lemma processCycle_forward fuel : forward (IntersectionController.processCycle fuel).
Proof.
  unfold IntersectionController.processCycle.
  repeat first [ apply generateTraffic_forward
               | apply displayQueueStatus_forward
               | apply findNextGreenDirection_forward
               | apply processVehicles_forward
               | apply displayStats_forward
               | forward_step ].
Qed.

Lemma system_reachable_controller c w : system_reachable c w -> controller_reachable c.
Proof.
  induction 1 as [entropy w|fuel c w c' w' _ IH Hrun].
  - apply controller_new.
  - eapply controller_cycle; eassumption.
Qed.

Lemma yellowTime_nonneg c :
  controller_inv c -> 0 <= TrafficSignal.yellowTime (IntersectionController.signal c).
Proof. intros Hc. rewrite (inv_yellow _ (inv_signal c Hc)). lia. Qed.

(** Between two cycles no vehicle of the controller is from the future. *)
Lemma system_reachable_arrived c w : system_reachable c w -> arrived (clock w) c.
Proof.
  induction 1 as [entropy w|fuel c w c' w' Hreach IH Hrun].
  - repeat constructor.
  - apply (processCycle_forward fuel c w tt c' w' Hrun); [|exact IH].
    apply yellowTime_nonneg, controller_reachable_inv.
    eapply system_reachable_controller, Hreach.
Qed.

Lemma cycle_prologue_forward : forward cycle_prologue.
Proof.
  unfold cycle_prologue.
  repeat first [ apply generateTraffic_forward
               | apply displayQueueStatus_forward
               | forward_step ].
Qed.

Lemma cycle_prologue_wp oof c w :
  controller_inv c ->
  wp oof cycle_prologue c w (fun _ c' _ => controller_inv c').
Proof.
  intros Hinv. unfold cycle_prologue.
  apply wp_bind. eapply wp_run; [reflexivity|].
  apply wp_bind. eapply wp_run; [reflexivity|].
  apply wp_bind. eapply wp_run; [reflexivity|].
  apply wp_bind. eapply wp_conseq; [apply generateTraffic_wp; inv_step|].
  cbn beta. intros _ c2 w2 (Hinv2 & _ & _).
  eapply wp_conseq; [apply displayQueueStatus_wp; assumption|].
  cbn beta. now intros _ c3 w3 (-> & _ & _).
Qed.

Lemma bind_returns {S A B} (m : M S A) (k : A -> M S B) s w b s' w' :
  bind m k s w = Returns b s' w' ->
  exists a s1 w1, m s w = Returns a s1 w1 /\ k a s1 w1 = Returns b s' w'.
Proof. unfold bind. destruct (m s w); try discriminate. eauto. Qed.

Lemma bind_run {S A B} (m : M S A) (k : A -> M S B) s w a s1 w1 :
  m s w = Returns a s1 w1 -> bind m k s w = k a s1 w1.
Proof. unfold bind. now intros ->. Qed.

(** Every cycle that returns went through its prologue and selected a
    direction in the state the prologue left. *)
Lemma processCycle_prologue fuel c w c' w' :
  IntersectionController.processCycle fuel c w = Returns tt c' w' ->
  exists c1 w1 d w2,
    cycle_prologue c w = Returns tt c1 w1 /\
    IntersectionController.findNextGreenDirection c1 w1 = Returns d c1 w2.
Proof.
  unfold IntersectionController.processCycle. intros H.
  apply bind_returns in H as ([] & c1 & w1 & H1 & H).
  apply bind_returns in H as (n & c2 & w2 & H2 & H).
  apply bind_returns in H as ([] & c3 & w3 & H3 & H).
  apply bind_returns in H as ([] & c4 & w4 & H4 & H).
  apply bind_returns in H as ([] & c5 & w5 & H5 & H).
  apply bind_returns in H as (d & c6 & w6 & H6 & _).
  pose proof (wp_returned _ _ _ _ _ _ _ (findNextGreenDirection_wp True c5 w5) H6)
    as (-> & _).
  exists c5, w5, d, w6. split; [|exact H6].
  unfold cycle_prologue.
  rewrite (bind_run _ _ _ _ _ _ _ H1), (bind_run _ _ _ _ _ _ _ H2),
    (bind_run _ _ _ _ _ _ _ H3), (bind_run _ _ _ _ _ _ _ H4).
  exact H5.
Qed.

(** What [findNextGreenDirection] finds when a cycle of a run calls it: no
    vehicle is from the future, the densities are in range and the lanes
    are those of the four directions in their order. *)
Lemma lanes_at_selection c w c1 w1 :
  system_reachable c w ->
  cycle_prologue c w = Returns tt c1 w1 ->
  arrived (clock w1) c1 /\
  Forall (fun l => 0 <= TrafficLane.trafficDensity l <= 10)
         (IntersectionController.lanes c1) /\
  map TrafficLane.direction (IntersectionController.lanes c1) = allDirections.
Proof.
  intros Hreach Hrun.
  pose proof (controller_reachable_inv c (system_reachable_controller c w Hreach)) as Hinv.
  split.
  - apply (cycle_prologue_forward c w tt c1 w1 Hrun);
      [now apply yellowTime_nonneg|now apply system_reachable_arrived].
  - pose proof (wp_returned _ _ _ _ _ _ _ (cycle_prologue_wp True c w Hinv) Hrun) as Hinv1.
    split; [now apply inv_density|now apply inv_directions].
Qed.

(** At the selection the lanes are as [lane_ok] wants them, as far as
    the numbers the code keeps in an [int] fit one. *)
Lemma lane_ok_at_selection c w c1 w1 :
  system_reachable c w ->
  cycle_prologue c w = Returns tt c1 w1 ->
  Forall (fun l =>
            Z.of_nat (length (TrafficLane.vehicles l)) <= Int.max_int /\
            sum_Z (map (fun v => Z.quot (clock w1 - Vehicle.arrivalTime v) ticks_per_second)
                       (TrafficLane.vehicles l)) <= Int.max_int)
         (IntersectionController.lanes c1) ->
  Forall (lane_ok (clock w1)) (IntersectionController.lanes c1).
Proof.
  intros Hreach Hrun Hfit.
  destruct (lanes_at_selection c w c1 w1 Hreach Hrun) as (Harr & Hden & _).
  unfold arrived in Harr. rewrite Forall_forall in *.
  intros l Hl. destruct (Hfit l Hl) as [Hlen Htot].
  split; [exact Hlen|now apply Hden|now apply Harr|exact Htot].
Qed.

(** ** What the controller selects *)

(** C1. Whenever some lane holds a vehicle with the emergency flag,
    [findNextGreenDirection] returns the direction of the first such lane
    in the order of the vector (North, East, South, West in a
    controller), whatever the queues, densities and scores of the lanes
    are; the controller is unchanged and the detection is printed. *)
Theorem emergency_preemption c w pre l post
    (Hlanes : IntersectionController.lanes c = pre ++ l :: post)
    (Hpre : Forall (fun l' => has_emergency l' = false) pre)
    (Hl : has_emergency l = true) :
  IntersectionController.findNextGreenDirection c w =
    Returns (TrafficLane.direction l) c
            (with_console (emergency_message (TrafficLane.direction l)) w) /\
  (controller_reachable c ->
   map TrafficLane.direction (IntersectionController.lanes c) = [NORTH; EAST; SOUTH; WEST]).
Proof.
  split.
  - rewrite findNextGreenDirection_run, Hlanes.
    now rewrite (find_first_emergency pre l post Hpre Hl).
  - intros Hc. exact (inv_directions c (controller_reachable_inv c Hc)).
Qed.

(** C10. [findNextGreenDirection] always returns, and the controller it
    returns is the one it was called on: lanes, pedestrian signals,
    traffic signal and counters are untouched. It neither lets time pass
    nor commands a lamp. *)
Theorem findNextGreenDirection_read_only c w :
  exists d w',
    IntersectionController.findNextGreenDirection c w = Returns d c w' /\
    clock w' = clock w /\ lamps w' = lamps w.
Proof.
  rewrite findNextGreenDirection_run.
  destruct (find _ _); eexists _, _; split; try reflexivity; split; reflexivity.
Qed.





(** *** The scenarios of the specification *)

Lemma scenario_B_lanes :
  IntersectionController.lanes scenario_B =
  [TrafficLane.mk NORTH [waiting 1 false 50; waiting 2 false 50] 0]
    ++ TrafficLane.mk EAST [waiting 3 true 0] 5
    :: [TrafficLane.new SOUTH; TrafficLane.new WEST].
Proof. reflexivity. Qed.

Lemma scenario_B_north_no_emergency :
  Forall (fun l' => has_emergency l' = false)
         [TrafficLane.mk NORTH [waiting 1 false 50; waiting 2 false 50] 0].
Proof. repeat constructor. Qed.

Lemma scenario_B_east_emergency :
  has_emergency (TrafficLane.mk EAST [waiting 3 true 0] 5) = true.
Proof. reflexivity. Qed.

Lemma emergency_preemption_witness :
  IntersectionController.findNextGreenDirection scenario_B scenario_world =
    Returns EAST scenario_B (with_console (emergency_message EAST) scenario_world) /\
  (controller_reachable scenario_B ->
   map TrafficLane.direction (IntersectionController.lanes scenario_B)
   = [NORTH; EAST; SOUTH; WEST]).
Proof.
  exact (emergency_preemption scenario_B scenario_world _ _ _
           scenario_B_lanes scenario_B_north_no_emergency scenario_B_east_emergency).
Defined.





(** Scenario A: the average wait is the double nearest to 16/3, the score
    is 24 and North is selected. *)
Example scenario_A_selects_north :
  spec_score 100000
    (TrafficLane.mk NORTH [waiting 1 false 4; waiting 2 false 10; waiting 3 false 2] 5)
    = Double.of_Z 24 /\
  IntersectionController.findNextGreenDirection scenario_A scenario_world =
    Returns NORTH scenario_A scenario_world.
Proof. split; vm_compute; reflexivity. Qed.

(** Scenario B: North scores 100 and East, with its emergency vehicle, is
    selected all the same. *)
Example scenario_B_selects_east :
  spec_score 100000 (TrafficLane.mk NORTH [waiting 1 false 50; waiting 2 false 50] 0)
    = Double.of_Z 100 /\
  exists w',
    IntersectionController.findNextGreenDirection scenario_B scenario_world =
      Returns EAST scenario_B w'.
Proof. split; [vm_compute; reflexivity|]. eexists. vm_compute. reflexivity. Qed.

(** * Further properties of the code *)

(** ** More on lanes, vehicles and pedestrian signals *)

(** X1. [hasEmergencyVehicle] answers whether some queued vehicle has the
    emergency flag, wherever in the queue it stands, and the lane it ran
    on keeps its queue: the traversal consumes a copy. *)
Theorem hasEmergencyVehicle_spec l w :
  exists b,
    TrafficLane.hasEmergencyVehicle l w = Returns b l w /\
    (b = true <->
     exists v, In v (TrafficLane.vehicles l) /\ Vehicle.emergency v = true).
Proof.
  exists (has_emergency l). split; [apply hasEmergencyVehicle_run|].
  unfold has_emergency. apply existsb_exists.
Qed.

(** X2. The queue length as the lane reports it: one more after
    [addVehicle], one less after [processVehicle], and [hasVehicles]
    holds exactly when it is not zero, for a queue whose length fits an
    [int]. *)
Theorem queue_length_accounting l w
    (Hlen : Z.of_nat (length (TrafficLane.vehicles l)) < Int.max_int) :
  let n := Z.of_nat (length (TrafficLane.vehicles l)) in
  TrafficLane.getQueueLength l w = Returns n l w /\
  TrafficLane.hasVehicles l w = Returns (negb (n =? 0)) l w /\
  (forall v,
      (TrafficLane.addVehicle v;; TrafficLane.getQueueLength) l w =
      Returns (n + 1) (TrafficLane.set_vehicles (TrafficLane.vehicles l ++ [v]) l) w) /\
  (TrafficLane.vehicles l <> [] ->
   (TrafficLane.processVehicle;; TrafficLane.getQueueLength) l w =
   Returns (n - 1) (TrafficLane.set_vehicles (tail (TrafficLane.vehicles l)) l) w).
Proof.
  cbv zeta.
  assert (Hfit : forall k, (k <= S (length (TrafficLane.vehicles l)))%nat ->
                           Int.wrap (Z.of_nat k) = Z.of_nat k).
  { intros k Hk. apply wrap_id.
    unfold Int.in_range, Int.min_int, Int.max_int in *. lia. }
  split; [|split; [|split]].
  - rewrite getQueueLength_run. now rewrite Hfit by lia.
  - rewrite hasVehicles_run. do 2 f_equal.
    destruct (TrafficLane.vehicles l); reflexivity.
  - intros v. unfold bind. rewrite addVehicle_run, getQueueLength_run.
    cbn [TrafficLane.vehicles TrafficLane.set_vehicles].
    rewrite length_app. cbn [length]. rewrite Hfit by lia. f_equal. lia.
  - intros Hne. destruct (TrafficLane.vehicles l) as [|v q] eqn:Hq; [congruence|].
    unfold bind. rewrite (processVehicle_front v q) by exact Hq.
    rewrite getQueueLength_run.
    cbn [TrafficLane.vehicles TrafficLane.set_vehicles tail length] in *.
    rewrite Hfit by lia. f_equal. lia.
Qed.

Lemma three_vehicles_fit :
  Z.of_nat (length (TrafficLane.vehicles
    (TrafficLane.mk NORTH [waiting 1 false 4; waiting 2 false 10; waiting 3 false 2] 5)))
  < Int.max_int.
Proof. vm_compute. reflexivity. Qed.

Lemma queue_length_accounting_witness :
  TrafficLane.getQueueLength
    (TrafficLane.mk NORTH [waiting 1 false 4; waiting 2 false 10; waiting 3 false 2] 5)
    scenario_world =
  Returns 3
    (TrafficLane.mk NORTH [waiting 1 false 4; waiting 2 false 10; waiting 3 false 2] 5)
    scenario_world.
Proof.
  exact (proj1 (queue_length_accounting
                  (TrafficLane.mk NORTH
                     [waiting 1 false 4; waiting 2 false 10; waiting 3 false 2] 5)
                  scenario_world three_vehicles_fit)).
Defined.

(** X3. A vehicle that is asked [ms] milliseconds after its construction
    has waited the whole seconds in [ms]: nothing under a second, and
    never less than at an earlier instant. *)
Theorem waiting_time_elapsed vid isEmergency ms (w : World)
    (Hms : 0 <= ms) (Hfit : ms / 1000 <= Int.max_int) :
  (let* v := Vehicle.new vid isEmergency in
   sleep_for ms;;
   call_on v Vehicle.getWaitingTime) tt w =
  Returns (ms / 1000) tt
          {| clock := clock w + ms; console := console w; lamps := lamps w |} /\
  (ms < 1000 -> ms / 1000 = 0) /\
  (forall ms', 0 <= ms' <= ms -> ms' / 1000 <= ms / 1000).
Proof.
  split; [|split].
  - cbv [bind Vehicle.new system_clock_now ret sleep_for call_on
           Vehicle.getWaitingTime gets].
    cbn [clock Vehicle.arrivalTime]. f_equal.
    replace (clock w + ms - clock w) with ms by lia. unfold ticks_per_second.
    rewrite Z.quot_div_nonneg by lia.
    apply wrap_id.
    assert (0 <= ms / 1000) by (apply Z.div_pos; lia).
    unfold Int.in_range, Int.min_int, Int.max_int in *. lia.
  - intros Hlt. apply Z.div_small. lia.
  - intros ms' Hms'. apply Z.div_le_mono; lia.
Qed.

Lemma two_and_a_half_seconds : 0 <= 2500.
Proof. lia. Qed.

Lemma two_seconds_fit : 2500 / 1000 <= Int.max_int.
Proof. vm_compute. discriminate. Qed.

Lemma waiting_time_elapsed_witness :
  (let* v := Vehicle.new 7 false in
   sleep_for 2500;;
   call_on v Vehicle.getWaitingTime) tt scenario_world =
  Returns (2500 / 1000) tt
          {| clock := clock scenario_world + 2500; console := console scenario_world;
             lamps := lamps scenario_world |}.
Proof.
  exact (proj1 (waiting_time_elapsed 7 false 2500 scenario_world
                  two_and_a_half_seconds two_seconds_fit)).
Defined.

(** X4. The crossing protocol of a pedestrian signal: a request that is
    granted and ended leaves the signal as constructed, whatever it was
    before; a request made while the signal shows WALK survives
    [endCrossing]; requesting twice is requesting once; and only
    [grantCrossing] shows WALK. *)
Theorem pedestrian_crossing_protocol p w :
  (PedestrianSignal.requestCrossing;; PedestrianSignal.grantCrossing;;
   PedestrianSignal.endCrossing) p w = Returns tt PedestrianSignal.new w /\
  (PedestrianSignal.grantCrossing;; PedestrianSignal.requestCrossing;;
   PedestrianSignal.endCrossing;; PedestrianSignal.isRequested) p w =
    Returns true {| PedestrianSignal.state := DONT_WALK;
                    PedestrianSignal.request := true |} w /\
  (PedestrianSignal.requestCrossing;; PedestrianSignal.requestCrossing) p w =
    PedestrianSignal.requestCrossing p w /\
  (PedestrianSignal.grantCrossing;; PedestrianSignal.getState) p w =
    Returns WALK {| PedestrianSignal.state := WALK;
                    PedestrianSignal.request := false |} w /\
  (forall p',
      PedestrianSignal.requestCrossing p w = Returns tt p' w \/
      PedestrianSignal.endCrossing p w = Returns tt p' w ->
      PedestrianSignal.state p' = WALK -> PedestrianSignal.state p = WALK).
Proof.
  repeat split; try reflexivity.
  intros p' [[= <-]|[= <-]]; cbn; [auto|discriminate].
Qed.

(** X5. The names of the directions: the enumerators are 0 to 3 and
    converting back gives the direction, no two directions share a name,
    and an integer that is no enumerator is printed as Unknown. *)
Theorem direction_names :
  (forall d, Direction_of_int (Direction_to_int d) = Some d) /\
  (forall i d, Direction_of_int i = Some d -> Direction_to_int d = i) /\
  (forall d d',
      IntersectionController.directionToString d =
      IntersectionController.directionToString d' -> d = d') /\
  (forall d,
      IntersectionController.directionToString_int (Direction_to_int d) =
      IntersectionController.directionToString d) /\
  (forall i, ~ 0 <= i < 4 ->
             IntersectionController.directionToString_int i = "Unknown").
Proof.
  split; [|split; [|split; [|split]]].
  - now intros [].
  - intros i d. destruct i as [|[[|[]|]|[|[]|]|]|]; cbn; intros [= <-]; reflexivity.
  - intros [] []; cbn; congruence.
  - now intros [].
  - intros i Hi. destruct i as [|[[|[]|]|[|[]|]|]|]; cbn; try reflexivity; lia.
Qed.

(** ** More on the signal *)

Lemma lights_inv_new : lights_inv TrafficSignal.new.
Proof. split; intros []; cbn; intros; (reflexivity || lia). Qed.

Lemma lights_after_changeLight d s :
  signal_inv s -> lights_inv s ->
  forall d', light (after_changeLight d s) d' = Some (if decide (d' = d) then GREEN else RED).
Proof.
  intros [Hlen Hcur _ _ _ _ _] [Hothers _] d'.
  pose proof (Direction_to_int_range d) as Hd.
  unfold light, after_changeLight.
  cbn [TrafficSignal.lightStates TrafficSignal.set_lightStates
       TrafficSignal.set_currentGreenDirection].
  destruct (0 <=? TrafficSignal.currentGreenDirection s) eqn:Hc.
  - apply Z.leb_le in Hc.
    rewrite light_insert by (rewrite ?length_insert; auto; lia).
    case_decide as Heq.
    + apply Direction_to_int_inj in Heq. subst d'. now rewrite decide_True.
    + rewrite decide_False by congruence.
      rewrite light_insert by (auto; lia).
      case_decide as Heq'; [reflexivity|]. apply Hothers. congruence.
  - apply Z.leb_gt in Hc.
    rewrite light_insert by (auto; lia).
    case_decide as Heq.
    + apply Direction_to_int_inj in Heq. subst d'. now rewrite decide_True.
    + rewrite decide_False by congruence. apply Hothers.
      pose proof (Direction_to_int_range d'). lia.
Qed.

Lemma lights_after_setYellow s :
  signal_inv s -> lights_inv s ->
  forall d,
    light (after_setYellow s) d =
    Some (if decide (Direction_to_int d = TrafficSignal.currentGreenDirection s)
          then YELLOW else RED).
Proof.
  intros [Hlen Hcur _ _ _ _ _] [Hothers _] d.
  pose proof (Direction_to_int_range d) as Hd.
  unfold light, after_setYellow.
  destruct (0 <=? TrafficSignal.currentGreenDirection s) eqn:Hc.
  - apply Z.leb_le in Hc. cbn [TrafficSignal.lightStates TrafficSignal.set_lightStates].
    rewrite light_insert by (auto; lia).
    case_decide as Heq.
    + now rewrite decide_True by congruence.
    + rewrite decide_False by congruence. apply Hothers. congruence.
  - apply Z.leb_gt in Hc. rewrite decide_False by lia. apply Hothers. lia.
Qed.

Lemma lights_inv_changeLight d s :
  signal_inv s -> lights_inv s -> lights_inv (after_changeLight d s).
Proof.
  intros Hs Hl. split; intros d' Hd'; rewrite (lights_after_changeLight d s Hs Hl);
    cbn in Hd'.
  - rewrite decide_False; [reflexivity|congruence].
  - apply Direction_to_int_inj in Hd'. subst d'. rewrite decide_True by reflexivity. now left.
Qed.

Lemma lights_inv_setYellow s :
  signal_inv s -> lights_inv s -> lights_inv (after_setYellow s).
Proof.
  intros Hs Hl.
  split; intros d Hd; rewrite (lights_after_setYellow s Hs Hl);
    rewrite currentGreenDirection_after_setYellow in Hd.
  - now rewrite decide_False.
  - rewrite decide_True by exact Hd. now right.
Qed.

Lemma signal_reachable_lights s : signal_reachable s -> lights_inv s.
Proof.
  induction 1 as [|d s w s' w' Hreach IH Hrun|s w s' w' Hreach IH Hrun].
  - apply lights_inv_new.
  - pose proof (signal_reachable_inv s Hreach) as Hs.
    rewrite changeLight_run in Hrun by assumption.
    injection Hrun as <- _. now apply lights_inv_changeLight.
  - pose proof (signal_reachable_inv s Hreach) as Hs.
    rewrite setYellow_run in Hrun by assumption.
    injection Hrun as <- _. now apply lights_inv_setYellow.
Qed.

Lemma getLightState_run d s w :
  signal_inv s ->
  exists v, TrafficSignal.getLightState d s w = Returns v s w /\ light s d = Some v.
Proof.
  intros [Hlen _ _ _ _ _ _]. pose proof (Direction_to_int_range d) as Hd.
  unfold TrafficSignal.getLightState, TrafficSignal.read_light, light.
  replace (0 <=? Direction_to_int d) with true by (symmetry; apply Z.leb_le; lia).
  destruct (lookup_lt_is_Some_2 (TrafficSignal.lightStates s)
              (Z.to_nat (Direction_to_int d)) ltac:(lia)) as [v Hv].
  rewrite Hv. now exists v.
Qed.

(** X6. In every state of the signal reachable from its constructor by
    [changeLight] and [setYellow], every light but that of the current
    green direction is red, that one is green or yellow, and
    [getLightState] returns the light of any direction: its index is
    within the vector. *)
Theorem lights_of_reachable_signal s (Hs : signal_reachable s) :
  (forall d, Direction_to_int d <> TrafficSignal.currentGreenDirection s ->
             light s d = Some RED) /\
  (forall d, Direction_to_int d = TrafficSignal.currentGreenDirection s ->
             light s d = Some GREEN \/ light s d = Some YELLOW) /\
  (forall d w, exists v,
      TrafficSignal.getLightState d s w = Returns v s w /\ light s d = Some v).
Proof.
  destruct (signal_reachable_lights s Hs) as [Hothers Hcurrent].
  split; [exact Hothers|split; [exact Hcurrent|]].
  intros d w. apply getLightState_run. now apply signal_reachable_inv.
Qed.

Lemma lights_of_reachable_signal_witness :
  (forall d, Direction_to_int d <> TrafficSignal.currentGreenDirection TrafficSignal.new ->
             light TrafficSignal.new d = Some RED) /\
  (forall d, Direction_to_int d = TrafficSignal.currentGreenDirection TrafficSignal.new ->
             light TrafficSignal.new d = Some GREEN \/
             light TrafficSignal.new d = Some YELLOW) /\
  (forall d w, exists v,
      TrafficSignal.getLightState d TrafficSignal.new w = Returns v TrafficSignal.new w /\
      light TrafficSignal.new d = Some v).
Proof. exact (lights_of_reachable_signal TrafficSignal.new signal_new). Defined.

Lemma after_setYellow_twice s :
  signal_inv s -> after_setYellow (after_setYellow s) = after_setYellow s.
Proof.
  intros [Hlen Hcur _ _ _ _ _]. unfold after_setYellow at 1.
  rewrite currentGreenDirection_after_setYellow. unfold after_setYellow.
  destruct (0 <=? TrafficSignal.currentGreenDirection s) eqn:Hc; [|reflexivity].
  destruct s as [ls cur b y lo hi].
  cbn [TrafficSignal.set_lightStates TrafficSignal.lightStates
       TrafficSignal.currentGreenDirection TrafficSignal.baseGreenTime
       TrafficSignal.yellowTime TrafficSignal.minGreenTime TrafficSignal.maxGreenTime].
  now rewrite list_insert_insert_eq.
Qed.

(** X7. [setYellow] on a reachable signal turns the light of the current
    green direction yellow and leaves every other light red, so that no
    direction is green; the current direction stays what it was; a second
    call gives the same signal; and when no direction was green yet the
    call changes nothing and commands no lamp. *)
Theorem setYellow_effect s w (Hs : signal_reachable s) :
  exists s' w',
    TrafficSignal.setYellow s w = Returns tt s' w' /\
    (forall d,
        light s' d =
        Some (if decide (Direction_to_int d = TrafficSignal.currentGreenDirection s)
              then YELLOW else RED)) /\
    greens s' = [] /\
    TrafficSignal.currentGreenDirection s' = TrafficSignal.currentGreenDirection s /\
    (exists w'', TrafficSignal.setYellow s' w' = Returns tt s' w'') /\
    (TrafficSignal.currentGreenDirection s < 0 -> s' = s /\ w' = w).
Proof.
  pose proof (signal_reachable_inv s Hs) as Hinv.
  pose proof (signal_reachable_lights s Hs) as Hl.
  exists (after_setYellow s), (with_lamps (setYellow_commands s (clock w)) w).
  split; [now apply setYellow_run|].
  split; [now apply lights_after_setYellow|].
  split; [|split; [apply currentGreenDirection_after_setYellow|split]].
  - assert (Hno : forall d, light (after_setYellow s) d <> Some GREEN).
    { intros d. rewrite (lights_after_setYellow s Hinv Hl). now case_decide. }
    unfold greens, allDirections.
    rewrite !filter_cons_False by apply Hno. reflexivity.
  - eexists. rewrite setYellow_run by now apply signal_inv_setYellow.
    now rewrite after_setYellow_twice.
  - intros Hneg. unfold after_setYellow, setYellow_commands.
    replace (0 <=? _) with false by (symmetry; apply Z.leb_gt; exact Hneg).
    split; [reflexivity|apply with_lamps_nil].
Qed.

Lemma setYellow_effect_witness :
  exists s' w',
    TrafficSignal.setYellow TrafficSignal.new scenario_world = Returns tt s' w' /\
    (forall d,
        light s' d =
        Some (if decide (Direction_to_int d =
                         TrafficSignal.currentGreenDirection TrafficSignal.new)
              then YELLOW else RED)) /\
    greens s' = [] /\
    TrafficSignal.currentGreenDirection s' =
      TrafficSignal.currentGreenDirection TrafficSignal.new /\
    (exists w'', TrafficSignal.setYellow s' w' = Returns tt s' w'') /\
    (TrafficSignal.currentGreenDirection TrafficSignal.new < 0 ->
     s' = TrafficSignal.new /\ w' = scenario_world).
Proof. exact (setYellow_effect TrafficSignal.new scenario_world signal_new). Defined.

(** ** The status display *)

(** X8. [displayQueueStatus] on a controller reachable from the
    constructor returns and leaves the controller, the clock and the
    lamps as they were: each lane's direction has its pedestrian signal
    in the map. Where the signal of the first lane's direction is missing,
    [map::at] throws [out_of_range] and the controller is unchanged. *)
Theorem displayQueueStatus_read_only :
  (forall c w,
      controller_reachable c ->
      exists w',
        IntersectionController.displayQueueStatus c w = Returns tt c w' /\
        clock w' = clock w /\ lamps w' = lamps w) /\
  (forall c w l ls,
      IntersectionController.lanes c = l :: ls ->
      IntersectionController.pedestrianSignals c !! TrafficLane.direction l = None ->
      exists w',
        IntersectionController.displayQueueStatus c w =
        Throws (out_of_range "map::at") c w').
Proof.
  split.
  - intros c w Hc. apply controller_reachable_inv in Hc.
    destruct (wp_returns _ _ _ _ (displayQueueStatus_wp False c w Hc))
      as ([] & c' & w' & Hrun & -> & Hclock & Hlamps).
    now exists w'.
  - intros c w l ls Hlanes Hmissing.
    assert (Hl : IntersectionController.lanes c !! 0%nat = Some l) by now rewrite Hlanes.
    unfold IntersectionController.displayQueueStatus.
    erewrite bind_run by reflexivity.
    erewrite bind_run by reflexivity.
    rewrite Hlanes. cbn [length seq for_each].
    unfold bind at 1.
    erewrite bind_run
      by exact (call_lane_pure 0 _ c _ l _ _ Hl (getDirection_run _ _)).
    erewrite bind_run
      by exact (call_lane_pure 0 _ c _ l _ _ Hl (getQueueLength_run _ _)).
    erewrite bind_run
      by exact (call_lane_pure 0 _ c _ l _ _ Hl (getAverageWaitTime_run _ _)).
    erewrite bind_run
      by exact (call_lane_pure 0 _ c _ l _ _ Hl (getTrafficDensity_run _ _)).
    erewrite bind_run by reflexivity.
    unfold bind at 1.
    unfold IntersectionController.ped_at_const, bind, gets, throw.
    rewrite Hmissing. eexists. reflexivity.
Qed.

(** ** Traffic generation *)

Lemma generateTraffic_loops :
  IntersectionController.generateTraffic =
  (let* n := gets (fun c => length (IntersectionController.lanes c)) in
   for_each (seq 0 n) generateTraffic_lane;;
   let* keys := gets IntersectionController.ped_keys in
   for_each keys generateTraffic_ped).
Proof. reflexivity. Qed.

Lemma wp_uniform_int_range oof a b c w
    (Q : Z -> IntersectionController -> World -> Prop) :
  a <= b ->
  (forall x g, a <= x <= b -> Q x (IntersectionController.set_rng g c) w) ->
  wp oof (IntersectionController.uniform_int a b) c w Q.
Proof.
  intros Hab H. eapply wp_run; [apply uniform_int_run|]. apply H.
  pose proof (Z.mod_pos_bound (Z.of_N (IntersectionController.rng c O)) (b - a + 1)).
  lia.
Qed.

Lemma set_trafficDensity_same l :
  TrafficLane.set_trafficDensity (TrafficLane.trafficDensity l) l = l.
Proof. now destruct l. Qed.

(** One lane of the first loop. *)
Lemma generateTraffic_lane_wp i c w l :
  IntersectionController.lanes c !! i = Some l ->
  0 <= TrafficLane.trafficDensity l <= 10 ->
  wp False (generateTraffic_lane i) c w
     (fun _ c' w' =>
        w' = w /\
        exists g n' l',
          c' = IntersectionController.mk
                 (<[i := l']> (IntersectionController.lanes c))
                 (IntersectionController.pedestrianSignals c)
                 (IntersectionController.signal c)
                 g n'
                 (IntersectionController.totalVehiclesProcessed c)
                 (IntersectionController.totalWaitTime c)
                 (IntersectionController.cycleCounter c) /\
          arrival (clock w) (IntersectionController.vehicleCounter c) l n' l').
Proof.
  intros Hl Hden.
  assert (Hlt : (i < length (IntersectionController.lanes c))%nat)
    by (eapply lookup_lt_Some, Hl).
  unfold generateTraffic_lane. cbv zeta.
  apply wp_bind, wp_uniform_int. intros dc g.
  apply wp_bind.
  apply wp_conseq with
    (Q := fun _ c' w' =>
            w' = w /\
            exists g1 d,
              0 <= d <= 10 /\
              c' = IntersectionController.mk
                     (<[i := TrafficLane.set_trafficDensity d l]>
                        (IntersectionController.lanes c))
                     (IntersectionController.pedestrianSignals c)
                     (IntersectionController.signal c)
                     g1 (IntersectionController.vehicleCounter c)
                     (IntersectionController.totalVehiclesProcessed c)
                     (IntersectionController.totalWaitTime c)
                     (IntersectionController.cycleCounter c)).
  - destruct (dc =? 0).
    + apply wp_bind, wp_rng_next. intros r g'.
      eapply wp_call_lane; [lia|rewrite Nat2Z.id; exact Hl|].
      eapply wp_run; [apply setTrafficDensity_run|].
      split; [reflexivity|]. eexists _, _. split; [|rewrite Nat2Z.id; reflexivity].
      apply clamp_bounds. lia.
    + split; [reflexivity|]. exists g, (TrafficLane.trafficDensity l).
      split; [exact Hden|]. rewrite set_trafficDensity_same.
      rewrite list_insert_id by exact Hl. now destruct c.
  - cbn beta. intros _ c1 w1 (-> & g1 & d & Hd & ->).
    set (l1 := TrafficLane.set_trafficDensity d l).
    assert (Hl1 : forall g n,
               IntersectionController.lanes
                 (IntersectionController.mk
                    (<[i := l1]> (IntersectionController.lanes c))
                    (IntersectionController.pedestrianSignals c)
                    (IntersectionController.signal c) g n
                    (IntersectionController.totalVehiclesProcessed c)
                    (IntersectionController.totalWaitTime c)
                    (IntersectionController.cycleCounter c)) !! Z.to_nat (Z.of_nat i)
               = Some l1).
    { intros g2 n. rewrite Nat2Z.id. cbn. now apply list_lookup_insert_eq. }
    apply wp_bind. eapply wp_call_lane; [lia|apply Hl1|].
    eapply wp_run; [apply getTrafficDensity_run|].
    cbn [IntersectionController.lanes IntersectionController.set_lanes
         IntersectionController.pedestrianSignals IntersectionController.signal
         IntersectionController.rng IntersectionController.vehicleCounter
         IntersectionController.totalVehiclesProcessed
         IntersectionController.totalWaitTime IntersectionController.cycleCounter].
    rewrite Nat2Z.id, list_insert_insert_eq.
    change (TrafficLane.trafficDensity l1) with d.
    apply wp_bind, wp_uniform_int_range; [lia|]. intros a g2 Ha.
    cbn [IntersectionController.lanes IntersectionController.set_rng
         IntersectionController.pedestrianSignals IntersectionController.signal
         IntersectionController.rng IntersectionController.vehicleCounter
         IntersectionController.totalVehiclesProcessed
         IntersectionController.totalWaitTime IntersectionController.cycleCounter].
    assert (Hsub : Int.sub 10 d = 10 - d).
    { apply wrap_id. unfold Int.in_range, Int.min_int, Int.max_int. lia. }
    rewrite Hsub.
    destruct (10 - d <=? a) eqn:Harr.
    + apply wp_bind, wp_uniform_int. intros e g3.
      apply wp_bind. eapply wp_run; [reflexivity|].
      apply wp_bind. eapply wp_run; [reflexivity|].
      apply wp_bind. eapply wp_run; [reflexivity|].
      eapply wp_call_lane; [lia|apply Hl1|].
      eapply wp_run; [apply addVehicle_run|].
      split; [reflexivity|]. eexists _, _, _. split.
      * cbn. rewrite Nat2Z.id, list_insert_insert_eq. reflexivity.
      * apply arrival_one. exact Hd.
    + split; [reflexivity|]. eexists _, _, _. split; [reflexivity|].
      apply arrival_none. apply Z.leb_gt in Harr. lia.
Qed.

Lemma arrival_density now n l n' l' :
  arrival now n l n' l' -> 0 <= TrafficLane.trafficDensity l' <= 10.
Proof. intros [d Hd|d e Hd]; cbn; lia. Qed.

(** The first loop, from the lane at index [a] on. *)
Lemma generateTraffic_lanes_wp k :
  forall a c w,
    (a + k = length (IntersectionController.lanes c))%nat ->
    Forall (fun l => 0 <= TrafficLane.trafficDensity l <= 10)
           (IntersectionController.lanes c) ->
    wp False (for_each (seq a k) generateTraffic_lane) c w
       (fun _ c' w' =>
          w' = w /\
          IntersectionController.pedestrianSignals c' =
            IntersectionController.pedestrianSignals c /\
          IntersectionController.signal c' = IntersectionController.signal c /\
          IntersectionController.totalVehiclesProcessed c' =
            IntersectionController.totalVehiclesProcessed c /\
          IntersectionController.totalWaitTime c' =
            IntersectionController.totalWaitTime c /\
          IntersectionController.cycleCounter c' =
            IntersectionController.cycleCounter c /\
          take a (IntersectionController.lanes c') =
            take a (IntersectionController.lanes c) /\
          arrivals (clock w)
            (IntersectionController.vehicleCounter c)
            (drop a (IntersectionController.lanes c))
            (IntersectionController.vehicleCounter c')
            (drop a (IntersectionController.lanes c'))).
Proof.
  induction k as [|k IH]; intros a c w Hlen Hden; cbn [seq for_each].
  - unfold wp, ret. repeat (split; [reflexivity|]).
    rewrite drop_ge by lia. constructor.
  - destruct (lookup_lt_is_Some_2 (IntersectionController.lanes c) a ltac:(lia))
      as [l Hl].
    apply wp_bind.
    eapply wp_conseq.
    { apply (generateTraffic_lane_wp a c w l Hl).
      rewrite Forall_lookup in Hden. exact (Hden a l Hl). }
    cbn beta. intros _ c1 w1 (-> & g & n1 & l1 & -> & Harr).
    eapply wp_conseq.
    { apply (IH (S a)).
      - cbn. rewrite length_insert. lia.
      - cbn. apply Forall_insert; [exact Hden|]. eapply arrival_density, Harr. }
    cbn beta.
    cbn [IntersectionController.lanes IntersectionController.pedestrianSignals
         IntersectionController.signal IntersectionController.vehicleCounter
         IntersectionController.totalVehiclesProcessed
         IntersectionController.totalWaitTime IntersectionController.cycleCounter].
    intros _ c2 w2 (-> & Hp & Hs & Htp & Htw & Hcc & Htake & Harrs).
    repeat (split; [assumption || reflexivity|]).
    assert (Hl2 : IntersectionController.lanes c2 !! a = Some l1).
    { rewrite <- (lookup_take_lt _ (S a)) by lia. rewrite Htake.
      rewrite lookup_take_lt by lia. apply list_lookup_insert_eq. lia. }
    split.
    + apply (f_equal (take a)) in Htake. rewrite !take_take in Htake.
      rewrite Nat.min_l in Htake by lia. rewrite Htake.
      apply take_insert_ge. lia.
    + rewrite (drop_S _ _ _ Hl), (drop_S _ _ _ Hl2).
      rewrite drop_insert_lt in Harrs by lia.
      econstructor; eassumption.
Qed.

Lemma requested_more_refl p : requested_more p p.
Proof. destruct p; cbn; auto. Qed.

Lemma requested_more_trans p1 p2 p3 :
  requested_more p1 p2 -> requested_more p2 p3 -> requested_more p1 p3.
Proof.
  destruct p1, p2, p3; cbn; try tauto.
  intros [H1 H2] [H3 H4]. split; [congruence|auto].
Qed.

(** One pedestrian signal of the second loop. *)
Lemma generateTraffic_ped_wp dir c w :
  is_Some (IntersectionController.pedestrianSignals c !! dir) ->
  wp False (generateTraffic_ped dir) c w
     (fun _ c' w' =>
        w' = w /\
        IntersectionController.lanes c' = IntersectionController.lanes c /\
        IntersectionController.vehicleCounter c' = IntersectionController.vehicleCounter c /\
        IntersectionController.signal c' = IntersectionController.signal c /\
        IntersectionController.totalVehiclesProcessed c' =
          IntersectionController.totalVehiclesProcessed c /\
        IntersectionController.totalWaitTime c' =
          IntersectionController.totalWaitTime c /\
        IntersectionController.cycleCounter c' =
          IntersectionController.cycleCounter c /\
        forall d, requested_more (IntersectionController.pedestrianSignals c !! d)
                                 (IntersectionController.pedestrianSignals c' !! d)).
Proof.
  intros [p Hp]. unfold generateTraffic_ped.
  apply wp_bind, wp_uniform_int. intros x g.
  apply wp_when; intros _.
  - apply wp_call_ped. eapply wp_run; [reflexivity|].
    repeat (split; [reflexivity|]).
    intros d. cbn [IntersectionController.pedestrianSignals
                   IntersectionController.set_pedestrianSignals
                   IntersectionController.set_rng].
    destruct (decide (dir = d)) as [<-|Hne].
    + rewrite lookup_insert_eq, Hp. cbn. auto.
    + rewrite lookup_insert_ne by exact Hne. apply requested_more_refl.
  - repeat (split; [reflexivity|]). intros d. apply requested_more_refl.
Qed.

Lemma requested_more_is_Some p p' :
  requested_more p p' -> is_Some p -> is_Some p'.
Proof. destruct p, p'; cbn; try tauto; eauto. Qed.

(** [generateTraffic] returns, prints nothing, lets no time pass and
    makes of the controller what [traffic_generated] says. *)
Lemma generateTraffic_run c w :
  Forall (fun l => 0 <= TrafficLane.trafficDensity l <= 10)
         (IntersectionController.lanes c) ->
  exists c',
    IntersectionController.generateTraffic c w = Returns tt c' w /\
    traffic_generated (clock w) c c'.
Proof.
  intros Hden.
  assert (Hwp : wp False IntersectionController.generateTraffic c w
                   (fun _ c' w' => w' = w /\ traffic_generated (clock w) c c')).
  { rewrite generateTraffic_loops.
    apply wp_bind. eapply wp_run; [reflexivity|].
    apply wp_bind. eapply wp_conseq; [apply generateTraffic_lanes_wp; [reflexivity|exact Hden]|].
    cbn beta. intros _ c1 w1 (-> & Hp & Hs & Htp & Htw & Hcc & _ & Harrs).
    rewrite !drop_0 in Harrs.
    apply wp_bind. eapply wp_run; [reflexivity|].
    set (P := fun (c' : IntersectionController) (w' : World) =>
                w' = w /\
                IntersectionController.lanes c' = IntersectionController.lanes c1 /\
                IntersectionController.vehicleCounter c' =
                  IntersectionController.vehicleCounter c1 /\
                IntersectionController.signal c' = IntersectionController.signal c1 /\
                IntersectionController.totalVehiclesProcessed c' =
                  IntersectionController.totalVehiclesProcessed c1 /\
                IntersectionController.totalWaitTime c' =
                  IntersectionController.totalWaitTime c1 /\
                IntersectionController.cycleCounter c' =
                  IntersectionController.cycleCounter c1 /\
                forall d, requested_more (IntersectionController.pedestrianSignals c1 !! d)
                                         (IntersectionController.pedestrianSignals c' !! d)).
    eapply wp_conseq; [apply (wp_for_each False P)|].
    - intros dir c2 w2 Hdir (-> & Hl2 & Hn2 & Hs2 & Htp2 & Htw2 & Hcc2 & Hp2).
      eapply wp_conseq.
      { apply generateTraffic_ped_wp.
        apply (requested_more_is_Some _ _ (Hp2 dir)).
        unfold IntersectionController.ped_keys in Hdir.
        apply list_elem_of_filter in Hdir. apply Hdir. }
      cbn beta. intros _ c3 w3 (-> & Hl3 & Hn3 & Hs3 & Htp3 & Htw3 & Hcc3 & Hp3).
      unfold P. repeat (split; [congruence|]).
      intros d. eapply requested_more_trans; [apply Hp2|apply Hp3].
    - unfold P. repeat (split; [reflexivity|]). intros d. apply requested_more_refl.
    - cbn beta. intros _ c2 w2 (-> & Hl2 & Hn2 & Hs2 & Htp2 & Htw2 & Hcc2 & Hp2).
      split; [reflexivity|]. split; try congruence.
      intros d. rewrite <- Hp. apply Hp2. }
  destruct (wp_returns _ _ _ _ Hwp) as ([] & c' & w' & Hrun & -> & Hgen).
  now exists c'.
Qed.

(** ** The cycle, step by step *)

Lemma findNextGreenDirection_selected c w :
  exists w',
    IntersectionController.findNextGreenDirection c w =
      Returns (selected (clock w) c) c w' /\
    clock w' = clock w /\ lamps w' = lamps w.
Proof.
  rewrite findNextGreenDirection_run. unfold selected.
  destruct (find _ _); eexists; repeat split.
Qed.

(** The signal part of a cycle and what it leaves. *)
Lemma signal_phase_run {B} oof nextDir c w (rest : M IntersectionController B) Q :
  controller_inv c ->
  (forall w',
      clock w' = clock w + yellow_hold c ->
      lamps w' = lamps w ++ cycle_commands (IntersectionController.signal c) nextDir (clock w) ->
      wp oof rest
         (IntersectionController.set_signal
            (after_changeLight nextDir (after_setYellow (IntersectionController.signal c))) c)
         w' Q) ->
  wp oof
    (let* cur := call IntersectionController.signal_ TrafficSignal.getCurrentGreenDirection in
     when (0 <=? cur)
       (call IntersectionController.signal_ TrafficSignal.setYellow;;
        let* cur := call IntersectionController.signal_ TrafficSignal.getCurrentGreenDirection in
        cout [Text "Yellow light for ";
              Text (IntersectionController.directionToString_int cur); Text LF];;
        let* y := call IntersectionController.signal_ TrafficSignal.getYellowTime in
        sleep_for (y * ticks_per_second));;
     call IntersectionController.signal_ (TrafficSignal.changeLight nextDir);;
     rest)
    c w Q.
Proof.
  intros Hinv Hrest. pose proof (inv_signal c Hinv) as Hsig.
  unfold yellow_hold in Hrest.
  destruct c as [ls ps s g vc tp tw cc].
  cbn [IntersectionController.signal IntersectionController.set_signal
       IntersectionController.lanes IntersectionController.pedestrianSignals
       IntersectionController.rng IntersectionController.vehicleCounter
       IntersectionController.totalVehiclesProcessed
       IntersectionController.totalWaitTime IntersectionController.cycleCounter] in *.
  apply wp_bind, wp_call_signal. eapply wp_run; [reflexivity|].
  cbn [IntersectionController.signal IntersectionController.set_signal
       IntersectionController.lanes IntersectionController.pedestrianSignals
       IntersectionController.rng IntersectionController.vehicleCounter
       IntersectionController.totalVehiclesProcessed
       IntersectionController.totalWaitTime IntersectionController.cycleCounter].
  apply wp_bind.
  apply wp_conseq with
    (Q := fun _ c' w' =>
            c' = IntersectionController.mk ls ps (after_setYellow s) g vc tp tw cc /\
            clock w' = clock w + (if 0 <=? TrafficSignal.currentGreenDirection s
                                  then TrafficSignal.yellowTime s * ticks_per_second
                                  else 0) /\
            lamps w' = lamps w ++ setYellow_commands s (clock w)).
  - apply wp_when; intros Hcur.
    + apply wp_bind, wp_call_signal.
      eapply wp_run; [apply setYellow_run; exact Hsig|].
      cbn [IntersectionController.signal IntersectionController.set_signal
           IntersectionController.lanes IntersectionController.pedestrianSignals
           IntersectionController.rng IntersectionController.vehicleCounter
           IntersectionController.totalVehiclesProcessed
           IntersectionController.totalWaitTime IntersectionController.cycleCounter].
      apply wp_bind, wp_call_signal. eapply wp_run; [reflexivity|].
      cbn [IntersectionController.signal IntersectionController.set_signal
           IntersectionController.lanes IntersectionController.pedestrianSignals
           IntersectionController.rng IntersectionController.vehicleCounter
           IntersectionController.totalVehiclesProcessed
           IntersectionController.totalWaitTime IntersectionController.cycleCounter].
      apply wp_bind. eapply wp_run; [reflexivity|].
      apply wp_bind, wp_call_signal. eapply wp_run; [reflexivity|].
      cbn [IntersectionController.signal IntersectionController.set_signal
           IntersectionController.lanes IntersectionController.pedestrianSignals
           IntersectionController.rng IntersectionController.vehicleCounter
           IntersectionController.totalVehiclesProcessed
           IntersectionController.totalWaitTime IntersectionController.cycleCounter].
      eapply wp_run; [reflexivity|].
      rewrite Hcur. cbn [clock lamps with_lamps].
      split; [reflexivity|split; [|reflexivity]].
      unfold after_setYellow. rewrite Hcur. reflexivity.
    + rewrite Hcur. unfold after_setYellow, setYellow_commands. rewrite Hcur.
      cbv beta iota.
      split; [reflexivity|split; [lia|symmetry; apply app_nil_r]].
  - cbn beta. intros _ c1 w1 (-> & Hclock1 & Hlamps1).
    apply wp_bind, wp_call_signal.
    eapply wp_run; [apply changeLight_run; now apply signal_inv_setYellow|].
    cbn [IntersectionController.signal IntersectionController.set_signal
         IntersectionController.lanes IntersectionController.pedestrianSignals
         IntersectionController.rng IntersectionController.vehicleCounter
         IntersectionController.totalVehiclesProcessed
         IntersectionController.totalWaitTime IntersectionController.cycleCounter].
    apply Hrest.
    + cbn [clock with_lamps]. exact Hclock1.
    + unfold cycle_commands. cbn [lamps with_lamps clock].
      rewrite Hlamps1, Hclock1, <- app_assoc.
      destruct (0 <=? TrafficSignal.currentGreenDirection s);
        [reflexivity|now rewrite Z.add_0_r].
Qed.

Lemma green_time_run lane s w :
  signal_inv s ->
  TrafficSignal.calculateAdaptiveGreenTime lane s w = Returns (green_time lane) s w.
Proof.
  intros [_ _ _ Hb _ Hlo Hhi].
  rewrite calculateAdaptiveGreenTime_run, green_time_no_overflow, Hb, Hlo, Hhi.
  reflexivity.
Qed.

Lemma green_time_bounds lane : 10 <= green_time lane <= 60.
Proof. apply clamp_bounds. lia. Qed.

Lemma leaving_at_most_30 lane : (leaving lane <= 30)%nat.
Proof.
  unfold leaving. pose proof (green_time_bounds lane) as Hg.
  assert (Z.quot (green_time lane) 2 <= 30) by (apply Z.quot_le_upper_bound; lia).
  lia.
Qed.

(** The end of a cycle: the selected lane is drained, the statistics are
    shown and the cycle pauses. *)
Lemma drain_phase_run oof fuel d lane c w :
  controller_inv c ->
  IntersectionController.lanes c !! Z.to_nat (Direction_to_int d) = Some lane ->
  oof \/ (30 < fuel)%nat ->
  wp oof
     (IntersectionController.processVehicles fuel d (green_time lane);;
      IntersectionController.displayStats;;
      sleep_for 500) c w
     (fun _ c' w' =>
        c' = drained (clock w) d
               (take (leaving lane) (TrafficLane.vehicles lane))
               (drop (leaving lane) (TrafficLane.vehicles lane)) lane c /\
        clock w' = clock w + 500 /\ lamps w' = lamps w).
Proof.
  intros Hinv Hlane Hfuel.
  pose proof (green_time_bounds lane) as Hg.
  pose proof (leaving_at_most_30 lane) as Hk.
  assert (Hcp : 0 <= Z.quot (green_time lane) 2 <= 30).
  { split; [apply Z.quot_pos; lia|apply Z.quot_le_upper_bound; lia]. }
  apply wp_bind.
  apply wp_conseq with
    (Q := fun _ c' w' =>
            c' = drained (clock w) d
                   (take (leaving lane) (TrafficLane.vehicles lane))
                   (drop (leaving lane) (TrafficLane.vehicles lane)) lane c /\
            clock w' = clock w /\ lamps w' = lamps w).
  - unfold IntersectionController.processVehicles, Int.div.
    rewrite wrap_id by (unfold Int.in_range, Int.min_int, Int.max_int; lia).
    unfold wp, bind.
    rewrite (processVehicles_loop_run fuel d _ 0 c w lane _ (leaving lane) Hlane eq_refl);
      [|unfold Int.max_int; lia|lia|unfold leaving; now rewrite Z.sub_0_r].
    destruct (leaving lane <? fuel)%nat eqn:Hlt.
    + cbn. repeat split.
    + destruct Hfuel as [Hoof|Hfuel]; [exact Hoof|].
      apply Nat.ltb_ge in Hlt. lia.
  - cbn beta. intros _ c1 w1 (-> & Hclock & Hlamps).
    apply wp_bind. eapply wp_conseq; [apply displayStats_wp|].
    cbn beta. intros _ c2 w2 (-> & Hclock2 & Hlamps2).
    eapply wp_run; [reflexivity|]. cbn [clock lamps].
    split; [reflexivity|split; congruence].
Qed.

(** The pedestrian part of a cycle and what it leaves. *)
Lemma crossing_phase_run {B} oof d c w (rest : M IntersectionController B) Q :
  is_Some (IntersectionController.pedestrianSignals c !! d) ->
  (forall w',
      clock w' = clock w + crossing_hold c d ->
      lamps w' = lamps w ->
      wp oof rest
         (IntersectionController.set_pedestrianSignals
            (<[d := crossed (ped_of c d)]> (IntersectionController.pedestrianSignals c)) c)
         w' Q) ->
  wp oof
    (let* req := call (IntersectionController.ped_at d) PedestrianSignal.isRequested in
     when req
       (call (IntersectionController.ped_at d) PedestrianSignal.grantCrossing;;
        cout [Text "Pedestrians WALK on ";
              Text (IntersectionController.directionToString d); Text LF];;
        sleep_for (3 * ticks_per_second);;
        call (IntersectionController.ped_at d) PedestrianSignal.endCrossing);;
     rest)
    c w Q.
Proof.
  intros [p Hp] Hrest. unfold crossing_hold, crossed, ped_of in Hrest.
  destruct c as [ls ps s g vc tp tw cc].
  cbn [IntersectionController.signal IntersectionController.set_pedestrianSignals
       IntersectionController.lanes IntersectionController.pedestrianSignals
       IntersectionController.rng IntersectionController.vehicleCounter
       IntersectionController.totalVehiclesProcessed
       IntersectionController.totalWaitTime IntersectionController.cycleCounter] in *.
  rewrite Hp in Hrest. cbn [default from_option id] in Hrest.
  apply wp_bind, wp_call_ped. eapply wp_run; [reflexivity|].
  cbn [IntersectionController.signal IntersectionController.set_pedestrianSignals
       IntersectionController.lanes IntersectionController.pedestrianSignals
       IntersectionController.rng IntersectionController.vehicleCounter
       IntersectionController.totalVehiclesProcessed
       IntersectionController.totalWaitTime IntersectionController.cycleCounter].
  rewrite Hp. cbn [default from_option id]. rewrite (insert_id ps d p Hp).
  apply wp_bind.
  destruct (PedestrianSignal.request p) eqn:Hreq; cbn [when].
  - apply wp_bind, wp_call_ped. eapply wp_run; [reflexivity|].
    apply wp_bind. eapply wp_run; [reflexivity|].
    apply wp_bind. eapply wp_run; [reflexivity|].
    apply wp_call_ped. eapply wp_run; [reflexivity|].
    cbn [IntersectionController.signal IntersectionController.set_pedestrianSignals
         IntersectionController.lanes IntersectionController.pedestrianSignals
         IntersectionController.rng IntersectionController.vehicleCounter
         IntersectionController.totalVehiclesProcessed
         IntersectionController.totalWaitTime IntersectionController.cycleCounter].
    rewrite lookup_insert_eq. cbn [default from_option id]. rewrite insert_insert_eq.
    apply Hrest; reflexivity.
  - unfold wp at 1, ret. rewrite <- (insert_id ps d p Hp) at 1.
    apply Hrest; [lia|reflexivity].
Qed.

Lemma traffic_generated_inv now c c' :
  controller_inv c -> traffic_generated now c c' ->
  forall w, IntersectionController.generateTraffic c w = Returns tt c' w ->
  controller_inv c'.
Proof.
  intros Hinv _ w Hrun.
  pose proof (generateTraffic_wp True c w Hinv) as Hwp.
  now destruct (wp_returned _ _ _ _ _ _ _ Hwp Hrun) as (Hinv' & _).
Qed.

(** The statements of a cycle before the selection: they return, and all
    they change is what [generateTraffic] changes and the cycle counter. *)
Lemma cycle_prologue_run c w :
  controller_inv c ->
  exists c1 w1,
    cycle_prologue c w = Returns tt c1 w1 /\
    traffic_generated (clock w)
      (IntersectionController.set_cycleCounter
         (Int.add (IntersectionController.cycleCounter c) 1) c) c1 /\
    controller_inv c1 /\
    clock w1 = clock w /\ lamps w1 = lamps w.
Proof.
  intros Hinv.
  set (c0 := IntersectionController.set_cycleCounter
               (Int.add (IntersectionController.cycleCounter c) 1) c).
  assert (Hinv0 : controller_inv c0) by now apply inv_set_cycleCounter.
  set (w0 := {| clock := clock w;
                console := console w ++
                  [Text (LF +:+ "=== Traffic Cycle #");
                   Num (IntersectionController.cycleCounter c0);
                   Text (" ===" +:+ LF)];
                lamps := lamps w |}).
  destruct (generateTraffic_run c0 w0 (inv_density c0 Hinv0)) as (c1 & Hgen & Htg).
  pose proof (traffic_generated_inv _ _ _ Hinv0 Htg w0 Hgen) as Hinv1.
  destruct (wp_returns _ _ _ _ (displayQueueStatus_wp False c1 w0 Hinv1))
    as ([] & c3 & w3 & Hshow & -> & Hclock3 & Hlamps3).
  exists c1, w3. split; [|split; [exact Htg|split; [exact Hinv1|split; assumption]]].
  unfold cycle_prologue.
  erewrite bind_run by reflexivity.
  erewrite bind_run by reflexivity.
  erewrite bind_run by reflexivity.
  erewrite bind_run by exact Hgen.
  exact Hshow.
Qed.

(** One cycle, from the controller [c] at the instant [clock w]: [c1] is
    the controller as the statements before the selection leave it and
    [d] the direction that [findNextGreenDirection] returns there; the
    cycle ends as [cycle_end] says. *)
Lemma processCycle_wp_at oof fuel c w c1 w1 d w2 :
  controller_inv c -> oof \/ (30 < fuel)%nat ->
  cycle_prologue c w = Returns tt c1 w1 ->
  IntersectionController.findNextGreenDirection c1 w1 = Returns d c1 w2 ->
  d = selected (clock w) c1 /\
  traffic_generated (clock w)
    (IntersectionController.set_cycleCounter
       (Int.add (IntersectionController.cycleCounter c) 1) c) c1 /\
  controller_inv c1 /\
  exists lane,
    IntersectionController.lanes c1 !! Z.to_nat (Direction_to_int d) = Some lane /\
    wp oof (IntersectionController.processCycle fuel) c w
       (fun _ c' w' =>
          c' = cycle_end (clock w) d lane c1 /\
          clock w' = clock w + yellow_hold c1 + crossing_hold c1 d + 500 /\
          lamps w' = lamps w ++ cycle_commands (IntersectionController.signal c) d (clock w)).
Proof.
  intros Hinv Hfuel Hpro Hfind.
  destruct (cycle_prologue_run c w Hinv) as (c1' & w1' & Hpro' & Htg & Hinv1 & Hclock1 & Hlamps1).
  rewrite Hpro in Hpro'. injection Hpro' as <- <-.
  destruct (findNextGreenDirection_selected c1 w1) as (w4 & Hsel & Hclock4 & Hlamps4).
  rewrite Hfind in Hsel. injection Hsel as Hd <-. rewrite Hclock1 in Hd.
  split; [exact Hd|]. split; [exact Htg|]. split; [exact Hinv1|].
  pose proof (Direction_to_int_range d) as Hdr.
  destruct (inv_lane_lookup c1 (Z.to_nat (Direction_to_int d)) Hinv1 ltac:(lia))
    as (lane & Hlane & _).
  exists lane. split; [exact Hlane|].
  unfold IntersectionController.processCycle.
  unfold cycle_prologue in Hpro.
  apply bind_returns in Hpro as ([] & ca & wa & Ha & Hpro). apply wp_bind. eapply wp_run; [exact Ha|].
  apply bind_returns in Hpro as (n & cb & wb & Hb & Hpro). apply wp_bind. eapply wp_run; [exact Hb|].
  apply bind_returns in Hpro as ([] & cc & wc & Hc & Hpro). apply wp_bind. eapply wp_run; [exact Hc|].
  apply bind_returns in Hpro as ([] & cd & wd & Hd' & Hpro). apply wp_bind. eapply wp_run; [exact Hd'|].
  apply wp_bind. eapply wp_run; [exact Hpro|].
  apply wp_bind. eapply wp_run; [exact Hfind|].
  apply signal_phase_run; [exact Hinv1|]. intros w5 Hclock5 Hlamps5.
  set (c5 := IntersectionController.set_signal
               (after_changeLight d (after_setYellow (IntersectionController.signal c1))) c1).
  assert (Hinv5 : controller_inv c5).
  { apply inv_set_signal; [exact Hinv1|].
    apply signal_inv_changeLight, signal_inv_setYellow, inv_signal, Hinv1. }
  assert (Hlane5 : IntersectionController.lanes c5 !! Z.to_nat (Direction_to_int d)
                   = Some lane) by exact Hlane.
  apply wp_bind. eapply wp_call_lane; [lia|exact Hlane5|].
  eapply wp_run; [reflexivity|].
  rewrite (set_lanes_insert_same c5 _ lane Hlane5).
  apply wp_bind, wp_call_signal.
  eapply wp_run; [apply green_time_run, inv_signal, Hinv5|].
  replace (IntersectionController.set_signal (IntersectionController.signal c5) c5)
    with c5 by now destruct c1.
  apply wp_bind. eapply wp_run; [reflexivity|].
  apply crossing_phase_run; [apply inv_peds, Hinv5|].
  cbn [clock lamps]. intros w6 Hclock6 Hlamps6.
  set (c6 := IntersectionController.set_pedestrianSignals _ c5).
  assert (Hinv6 : controller_inv c6) by (apply inv_set_ped; exact Hinv5).
  eapply wp_conseq;
    [apply (drain_phase_run oof fuel d lane c6 w6 Hinv6); [exact Hlane|exact Hfuel]|].
  cbn beta. intros _ c7 w7 (-> & Hclock7 & Hlamps7).
  split; [|split].
  - unfold cycle_end. rewrite Hclock6, Hclock5, Hclock4, Hclock1. reflexivity.
  - rewrite Hclock7, Hclock6, Hclock5, Hclock4, Hclock1. reflexivity.
  - rewrite Hlamps7, Hlamps6, Hlamps5, Hlamps4, Hlamps1, Hclock4, Hclock1.
    rewrite (tg_signal _ _ _ Htg). reflexivity.
Qed.

(** The same for the cycle on its own: the traffic is generated, a
    direction is selected in what results, and the cycle ends as
    [cycle_end] says. *)
Lemma processCycle_wp_exact oof fuel c w :
  controller_inv c -> oof \/ (30 < fuel)%nat ->
  exists c1 lane,
    traffic_generated (clock w)
      (IntersectionController.set_cycleCounter
         (Int.add (IntersectionController.cycleCounter c) 1) c) c1 /\
    controller_inv c1 /\
    IntersectionController.lanes c1 !! Z.to_nat (Direction_to_int (selected (clock w) c1))
      = Some lane /\
    wp oof (IntersectionController.processCycle fuel) c w
       (fun _ c' w' =>
          c' = cycle_end (clock w) (selected (clock w) c1) lane c1 /\
          clock w' =
            clock w + yellow_hold c1 + crossing_hold c1 (selected (clock w) c1) + 500 /\
          lamps w' = lamps w ++ cycle_commands (IntersectionController.signal c)
                                  (selected (clock w) c1) (clock w)).
Proof.
  intros Hinv Hfuel.
  destruct (cycle_prologue_run c w Hinv) as (c1 & w1 & Hpro & _).
  destruct (findNextGreenDirection_selected c1 w1) as (w2 & Hsel & _).
  destruct (processCycle_wp_at oof fuel c w c1 w1 _ w2 Hinv Hfuel Hpro Hsel)
    as (Hd & Htg & Hinv1 & lane & Hlane & Hwp).
  rewrite Hd in Hlane, Hwp.
  exists c1, lane. repeat (split; [assumption|]). exact Hwp.
Qed.

(** The cycle returns when its loop is given more than 30 iterations. *)
Lemma processCycle_run fuel c w :
  controller_inv c -> (30 < fuel)%nat ->
  exists c1 lane w',
    traffic_generated (clock w)
      (IntersectionController.set_cycleCounter
         (Int.add (IntersectionController.cycleCounter c) 1) c) c1 /\
    controller_inv c1 /\
    IntersectionController.lanes c1 !! Z.to_nat (Direction_to_int (selected (clock w) c1))
      = Some lane /\
    IntersectionController.processCycle fuel c w =
      Returns tt (cycle_end (clock w) (selected (clock w) c1) lane c1) w' /\
    clock w' = clock w + yellow_hold c1 + crossing_hold c1 (selected (clock w) c1) + 500 /\
    lamps w' = lamps w ++ cycle_commands (IntersectionController.signal c)
                            (selected (clock w) c1) (clock w).
Proof.
  intros Hinv Hfuel.
  destruct (processCycle_wp_exact False fuel c w Hinv ltac:(now right))
    as (c1 & lane & Htg & Hinv1 & Hlane & Hwp).
  destruct (wp_returns _ _ _ _ Hwp) as ([] & c' & w' & Hrun & -> & Hclock & Hlamps).
  exists c1, lane, w'. repeat (split; [assumption|]). exact Hlamps.
Qed.

(** A cycle that returned, whatever its loop was given. *)
Lemma processCycle_returned fuel c w c' w' :
  controller_inv c ->
  IntersectionController.processCycle fuel c w = Returns tt c' w' ->
  exists c1 lane,
    traffic_generated (clock w)
      (IntersectionController.set_cycleCounter
         (Int.add (IntersectionController.cycleCounter c) 1) c) c1 /\
    controller_inv c1 /\
    IntersectionController.lanes c1 !! Z.to_nat (Direction_to_int (selected (clock w) c1))
      = Some lane /\
    c' = cycle_end (clock w) (selected (clock w) c1) lane c1 /\
    clock w' = clock w + yellow_hold c1 + crossing_hold c1 (selected (clock w) c1) + 500 /\
    lamps w' = lamps w ++ cycle_commands (IntersectionController.signal c)
                            (selected (clock w) c1) (clock w).
Proof.
  intros Hinv Hrun.
  destruct (processCycle_wp_exact True fuel c w Hinv ltac:(now left))
    as (c1 & lane & Htg & Hinv1 & Hlane & Hwp).
  pose proof (wp_returned _ _ _ _ _ _ _ Hwp Hrun) as (Hc & Hclock & Hlamps).
  exists c1, lane. repeat (split; [assumption|]). exact Hlamps.
Qed.

(** The cycle with its selection: what [processCycle_run] says, for the
    controller [c1] in which the cycle calls [findNextGreenDirection] and
    the direction [d] that the call returns. *)
Lemma processCycle_at fuel c w :
  controller_inv c -> (30 < fuel)%nat ->
  exists c1 d lane w',
    cycle_selects c w c1 d /\
    d = selected (clock w) c1 /\
    traffic_generated (clock w)
      (IntersectionController.set_cycleCounter
         (Int.add (IntersectionController.cycleCounter c) 1) c) c1 /\
    controller_inv c1 /\
    IntersectionController.lanes c1 !! Z.to_nat (Direction_to_int d) = Some lane /\
    IntersectionController.processCycle fuel c w =
      Returns tt (cycle_end (clock w) d lane c1) w' /\
    clock w' = clock w + yellow_hold c1 + crossing_hold c1 d + 500 /\
    lamps w' = lamps w ++ cycle_commands (IntersectionController.signal c) d (clock w).
Proof.
  intros Hinv Hfuel.
  destruct (cycle_prologue_run c w Hinv) as (c1 & w1 & Hpro & _).
  destruct (findNextGreenDirection_selected c1 w1) as (w2 & Hsel & _).
  destruct (processCycle_wp_at False fuel c w c1 w1 _ w2 Hinv ltac:(now right) Hpro Hsel)
    as (Hd & Htg & Hinv1 & lane & Hlane & Hwp).
  destruct (wp_returns _ _ _ _ Hwp) as ([] & c' & w' & Hrun & -> & Hclock & Hlamps).
  eexists c1, _, lane, w'.
  split; [exists w1, w2; split; [exact Hpro|exact Hsel]|].
  repeat (split; [assumption|]). exact Hlamps.
Qed.

(** The selection of a cycle is that of the cycle: a cycle that returned
    selected, and it has one selection only. *)
Lemma cycle_selects_returned fuel c w c' w' :
  IntersectionController.processCycle fuel c w = Returns tt c' w' ->
  exists c1 d, cycle_selects c w c1 d.
Proof.
  intros Hrun.
  destruct (processCycle_prologue fuel c w c' w' Hrun) as (c1 & w1 & d & w2 & Hpro & Hsel).
  now exists c1, d, w1, w2.
Qed.

Lemma cycle_selects_unique c w c1 d c1' d' :
  cycle_selects c w c1 d -> cycle_selects c w c1' d' -> c1' = c1 /\ d' = d.
Proof.
  intros (w1 & w2 & Hpro & Hsel) (w1' & w2' & Hpro' & Hsel').
  rewrite Hpro in Hpro'. injection Hpro' as <- <-.
  rewrite Hsel in Hsel'. now injection Hsel' as <- _.
Qed.

(** ** What a cycle keeps *)

Lemma queued_cons l ls :
  queued (l :: ls) = Z.of_nat (length (TrafficLane.vehicles l)) + queued ls.
Proof. reflexivity. Qed.

Lemma queued_app ls ms : queued (ls ++ ms) = queued ls + queued ms.
Proof.
  induction ls as [|l ls IH]; [reflexivity|].
  cbn [app]. rewrite !queued_cons, IH. lia.
Qed.

Lemma queued_insert ls i l l' :
  ls !! i = Some l ->
  queued (<[i := l']> ls) =
  queued ls - Z.of_nat (length (TrafficLane.vehicles l))
            + Z.of_nat (length (TrafficLane.vehicles l')).
Proof.
  intros Hl. rewrite insert_take_drop by (eapply lookup_lt_Some, Hl).
  rewrite <- (take_drop_middle ls i l Hl) at 3.
  rewrite !queued_app, !queued_cons. lia.
Qed.

Lemma arrival_count now n l n' l' :
  arrival now n l n' l' ->
  Int.wrap n' =
  Int.wrap (n + (Z.of_nat (length (TrafficLane.vehicles l'))
                 - Z.of_nat (length (TrafficLane.vehicles l)))).
Proof.
  intros [d Hd|d e Hd]; cbn [TrafficLane.vehicles TrafficLane.set_vehicles
                             TrafficLane.set_trafficDensity].
  - f_equal. lia.
  - rewrite length_app. cbn [length]. unfold Int.add.
    rewrite (wrap_id (Int.wrap _)) by apply wrap_range. f_equal. lia.
Qed.

Lemma arrivals_count now n ls n' ls' :
  arrivals now n ls n' ls' ->
  Int.wrap n' = Int.wrap (n + (queued ls' - queued ls)).
Proof.
  induction 1 as [n|n l n1 l' ls n' ls' Harr _ IH].
  - f_equal. lia.
  - rewrite IH, !queued_cons. apply arrival_count in Harr.
    rewrite <- wrap_add_l, Harr, wrap_add_l. f_equal. lia.
Qed.

Lemma processed_count {X} (passed : list X) n :
  Int.wrap (fold_left (fun n _ => Int.add n 1) passed n) =
  Int.wrap (n + Z.of_nat (length passed)).
Proof.
  revert n. induction passed as [|x passed IH]; intros n; cbn [fold_left length].
  - f_equal. lia.
  - rewrite IH. unfold Int.add. rewrite wrap_add_l. f_equal. lia.
Qed.

(** What every controller reachable from the constructor satisfies
    besides [controller_inv]: no pedestrian signal shows WALK, only the
    light of the current green direction is not red, and every vehicle
    that was counted on arrival is queued or was counted as processed. *)
Lemma controller_reachable_more c :
  controller_reachable c ->
  peds_idle c /\
  lights_inv (IntersectionController.signal c) /\
  Int.wrap (IntersectionController.vehicleCounter c) =
  Int.wrap (IntersectionController.totalVehiclesProcessed c
            + queued (IntersectionController.lanes c)).
Proof.
  induction 1 as [entropy|fuel c w c' w' Hreach (Hidle & Hlights & Hcount) Hrun].
  - split; [|split].
    + intros d p. cbn.
      destruct d; vm_compute; intros [= <-]; reflexivity.
    + apply lights_inv_new.
    + reflexivity.
  - pose proof (controller_reachable_inv c Hreach) as Hinv.
    destruct (processCycle_returned fuel c w c' w' Hinv Hrun)
      as (c1 & lane & [Harrs Hpeds Hsig Htp Htw Hcc] & Hinv1 & Hlane & -> & _).
    cbn [IntersectionController.lanes IntersectionController.set_cycleCounter
         IntersectionController.pedestrianSignals IntersectionController.signal
         IntersectionController.vehicleCounter
         IntersectionController.totalVehiclesProcessed] in *.
    set (d := selected (clock w) c1) in *.
    assert (Hidle1 : peds_idle c1).
    { intros d' p' Hp'. specialize (Hpeds d'). rewrite Hp' in Hpeds.
      destruct (IntersectionController.pedestrianSignals c !! d') as [p|] eqn:Hp;
        [|contradiction].
      destruct Hpeds as [-> _]. eapply Hidle, Hp. }
    split; [|split].
    + intros d' p'. unfold cycle_end, drained.
      cbn [IntersectionController.pedestrianSignals
           IntersectionController.set_pedestrianSignals
           IntersectionController.set_signal].
      destruct (decide (d = d')) as [<-|Hne].
      * rewrite lookup_insert_eq. intros [= <-]. unfold crossed, ped_of.
        destruct (inv_peds c1 Hinv1 d) as [p Hp]. rewrite Hp. cbn [default from_option id].
        destruct (PedestrianSignal.request p); [reflexivity|eapply Hidle1, Hp].
      * rewrite lookup_insert_ne by exact Hne. apply Hidle1.
    + unfold cycle_end, drained.
      cbn [IntersectionController.signal IntersectionController.set_pedestrianSignals
           IntersectionController.set_signal].
      rewrite Hsig.
      apply lights_inv_changeLight;
        [apply signal_inv_setYellow, inv_signal, Hinv|].
      apply lights_inv_setYellow; [apply inv_signal, Hinv|exact Hlights].
    + unfold cycle_end, drained.
      cbn [IntersectionController.lanes IntersectionController.vehicleCounter
           IntersectionController.totalVehiclesProcessed
           IntersectionController.set_pedestrianSignals
           IntersectionController.set_signal].
      rewrite (queued_insert _ _ lane _ Hlane).
      cbn [TrafficLane.vehicles TrafficLane.set_vehicles].
      rewrite <- wrap_add_l, processed_count, wrap_add_l.
      rewrite length_take, length_drop.
      apply arrivals_count in Harrs. rewrite Harrs, Htp.
      rewrite <- wrap_add_l, Hcount, wrap_add_l. f_equal. lia.
Qed.

Lemma arrival_in_range now n l n' l' :
  arrival now n l n' l' -> Int.in_range n -> Int.in_range n'.
Proof. intros [d Hd|d e Hd] Hn; [exact Hn|apply wrap_range]. Qed.

Lemma arrivals_in_range now n ls n' ls' :
  arrivals now n ls n' ls' -> Int.in_range n -> Int.in_range n'.
Proof.
  induction 1 as [n|n l n1 l' ls n' ls' Harr _ IH]; intros Hn; [exact Hn|].
  eapply IH, arrival_in_range; eassumption.
Qed.

Lemma vehicleCounter_in_range c :
  controller_reachable c -> Int.in_range (IntersectionController.vehicleCounter c).
Proof.
  induction 1 as [entropy|fuel c w c' w' Hreach IH Hrun].
  - split; vm_compute; discriminate.
  - pose proof (controller_reachable_inv c Hreach) as Hinv.
    destruct (processCycle_returned fuel c w c' w' Hinv Hrun)
      as (c1 & lane & [Harrs _ _ _ _ _] & _ & _ & -> & _).
    unfold cycle_end, drained. cbn [IntersectionController.vehicleCounter].
    eapply arrivals_in_range; [exact Harrs|exact IH].
Qed.

(** What a lane is after one pass of [generateTraffic], said without the
    vehicle counter. *)
Lemma arrivals_lanes now n ls n' ls' :
  arrivals now n ls n' ls' ->
  Forall2 (fun l l' =>
             TrafficLane.direction l' = TrafficLane.direction l /\
             0 <= TrafficLane.trafficDensity l' <= 10 /\
             (TrafficLane.vehicles l' = TrafficLane.vehicles l \/
              exists v, TrafficLane.vehicles l' = TrafficLane.vehicles l ++ [v] /\
                        Vehicle.arrivalTime v = now)) ls ls'.
Proof.
  induction 1 as [n|n l n1 l' ls n' ls' Harr _ IH]; constructor; [|exact IH].
  destruct Harr as [d Hd|d e Hd]; cbn.
  - split; [reflexivity|split; [lia|now left]].
  - split; [reflexivity|split; [lia|right]]. eexists. split; reflexivity.
Qed.

(** ** Traffic generation and the cycle, as the program shows them *)

(** X9. [generateTraffic] on a reachable controller returns without
    printing, without letting time pass and without commanding a lamp.
    Lane by lane, in their order, the density stays in [[0,10]] and either
    no vehicle arrives, which a density of 10 excludes, or exactly one is
    appended at the tail, constructed at the present instant with the next
    value of [vehicleCounter] as its identifier; no vehicle leaves. The
    signal, the statistics and the cycle counter are untouched, and a
    pedestrian signal keeps its state and a request it has. *)
Theorem generateTraffic_spec c w (Hc : controller_reachable c) :
  exists c',
    IntersectionController.generateTraffic c w = Returns tt c' w /\
    traffic_generated (clock w) c c' /\
    Forall2 (fun l l' =>
               TrafficLane.direction l' = TrafficLane.direction l /\
               0 <= TrafficLane.trafficDensity l' <= 10 /\
               (TrafficLane.vehicles l' = TrafficLane.vehicles l \/
                exists v, TrafficLane.vehicles l' = TrafficLane.vehicles l ++ [v] /\
                          Vehicle.arrivalTime v = clock w))
            (IntersectionController.lanes c) (IntersectionController.lanes c').
Proof.
  apply controller_reachable_inv in Hc.
  destruct (generateTraffic_run c w (inv_density c Hc)) as (c' & Hrun & Htg).
  exists c'. split; [exact Hrun|split; [exact Htg|]].
  eapply arrivals_lanes, tg_lanes, Htg.
Qed.

Lemma generateTraffic_spec_witness :
  exists c',
    IntersectionController.generateTraffic
      (IntersectionController.new (fun _ => 5%N)) scenario_world =
      Returns tt c' scenario_world /\
    traffic_generated (clock scenario_world)
      (IntersectionController.new (fun _ => 5%N)) c' /\
    Forall2 (fun l l' =>
               TrafficLane.direction l' = TrafficLane.direction l /\
               0 <= TrafficLane.trafficDensity l' <= 10 /\
               (TrafficLane.vehicles l' = TrafficLane.vehicles l \/
                exists v, TrafficLane.vehicles l' = TrafficLane.vehicles l ++ [v] /\
                          Vehicle.arrivalTime v = clock scenario_world))
            (IntersectionController.lanes (IntersectionController.new (fun _ => 5%N)))
            (IntersectionController.lanes c').
Proof.
  exact (generateTraffic_spec (IntersectionController.new (fun _ => 5%N)) scenario_world
           (controller_new _)).
Defined.

Lemma allDirections_lookup i d :
  allDirections !! i = Some d -> Z.to_nat (Direction_to_int d) = i.
Proof.
  destruct i as [|[|[|[|i]]]]; cbn; intros [= <-]; reflexivity.
Qed.

Lemma yellow_hold_of c :
  controller_inv c ->
  yellow_hold c =
  if 0 <=? TrafficSignal.currentGreenDirection (IntersectionController.signal c)
  then 3000 else 0.
Proof.
  intros Hinv. unfold yellow_hold. rewrite (inv_yellow _ (inv_signal c Hinv)).
  reflexivity.
Qed.

(** The second cycle of the run of [scenario_entropy]: when it selects a
    direction, a vehicle has joined every lane, that of East being an
    emergency vehicle behind an ordinary one, and pedestrians wait at
    East and at South; East is selected. *)
Lemma scenario_selection2_run :
  cycle_prologue scenario_cycle2.1 scenario_cycle2.2 =
    Returns tt scenario_selection2.1 scenario_selection2.2.
Proof. vm_compute. reflexivity. Qed.

Lemma scenario_selection2_lanes :
  IntersectionController.lanes scenario_selection2.1 =
  [TrafficLane.mk NORTH [Vehicle.mk 5 false 103500] 5]
    ++ TrafficLane.mk EAST [Vehicle.mk 2 false 100000; Vehicle.mk 6 true 103500] 5
    :: [TrafficLane.mk SOUTH [Vehicle.mk 3 false 100000; Vehicle.mk 7 false 103500] 5;
        TrafficLane.mk WEST [Vehicle.mk 4 false 100000; Vehicle.mk 8 false 103500] 5].
Proof. vm_compute. reflexivity. Qed.

Example scenario_selection2_selects :
  cycle_selects scenario_cycle2.1 scenario_cycle2.2 scenario_selection2.1 EAST /\
  PedestrianSignal.request (ped_of scenario_cycle2.1 EAST) = true /\
  PedestrianSignal.request (ped_of scenario_cycle2.1 SOUTH) = true.
Proof.
  split; [|split; vm_compute; reflexivity].
  eexists scenario_selection2.2, _. split; [exact scenario_selection2_run|].
  rewrite findNextGreenDirection_run, scenario_selection2_lanes. reflexivity.
Qed.

(** X10. A cycle of a reachable controller returns, and the time it takes
    on the clock is 500 ms, plus 3 s of yellow if a direction was green
    when it began, plus 3 s if the pedestrian signal of the direction
    that [findNextGreenDirection] returned in this cycle had a request
    when it was called: the green time that is calculated and printed is
    not waited for. *)
Theorem cycle_duration fuel c w (Hc : controller_reachable c) (Hfuel : (30 < fuel)%nat) :
  exists c1 d c' w',
    cycle_selects c w c1 d /\
    IntersectionController.processCycle fuel c w = Returns tt c' w' /\
    clock w' =
      clock w
      + (if 0 <=? TrafficSignal.currentGreenDirection (IntersectionController.signal c)
         then 3000 else 0)
      + (if PedestrianSignal.request (ped_of c1 d) then 3000 else 0)
      + 500 /\
    500 <= clock w' - clock w <= 6500.
Proof.
  apply controller_reachable_inv in Hc.
  destruct (processCycle_at fuel c w Hc Hfuel)
    as (c1 & d & lane & w' & Hsel & _ & Htg & Hinv1 & Hlane & Hrun & Hclock & _).
  eexists c1, d, _, w'. split; [exact Hsel|split; [exact Hrun|]].
  rewrite (yellow_hold_of c1 Hinv1), (tg_signal _ _ _ Htg) in Hclock.
  cbn [IntersectionController.signal IntersectionController.set_cycleCounter] in Hclock.
  unfold crossing_hold, ticks_per_second in Hclock.
  split.
  - rewrite Hclock. now destruct (PedestrianSignal.request _).
  - rewrite Hclock.
    destruct (0 <=? _), (PedestrianSignal.request _); lia.
Qed.

Lemma cycle_duration_witness :
  exists c1 d c' w',
    cycle_selects scenario_cycle2.1 scenario_cycle2.2 c1 d /\
    IntersectionController.processCycle 31 scenario_cycle2.1 scenario_cycle2.2 =
      Returns tt c' w' /\
    clock w' =
      clock scenario_cycle2.2
      + (if 0 <=? TrafficSignal.currentGreenDirection
                    (IntersectionController.signal scenario_cycle2.1)
         then 3000 else 0)
      + (if PedestrianSignal.request (ped_of c1 d) then 3000 else 0)
      + 500 /\
    500 <= clock w' - clock scenario_cycle2.2 <= 6500.
Proof.
  exact (cycle_duration 31 scenario_cycle2.1 scenario_cycle2.2
           scenario_cycle2_reachable enough_fuel).
Defined.

(** X11. When a cycle of a reachable controller has returned, the light
    of the direction that [findNextGreenDirection] returned in this
    cycle is green and every other light is red: yellow is only seen
    within a cycle. That direction is the current green direction. *)
Theorem lights_after_cycle fuel c w (Hc : controller_reachable c)
    (Hfuel : (30 < fuel)%nat) :
  exists c1 d c' w',
    cycle_selects c w c1 d /\
    IntersectionController.processCycle fuel c w = Returns tt c' w' /\
    TrafficSignal.currentGreenDirection (IntersectionController.signal c') =
      Direction_to_int d /\
    (forall d', light (IntersectionController.signal c') d' =
                Some (if decide (d' = d) then GREEN else RED)) /\
    greens (IntersectionController.signal c') = [d].
Proof.
  pose proof (controller_reachable_inv c Hc) as Hinv.
  destruct (controller_reachable_more c Hc) as (_ & Hlights & _).
  destruct (processCycle_at fuel c w Hinv Hfuel)
    as (c1 & d & lane & w' & Hsel & _ & Htg & Hinv1 & Hlane & Hrun & _).
  eexists c1, d, _, w'. split; [exact Hsel|split; [exact Hrun|]].
  unfold cycle_end, drained.
  cbn [IntersectionController.signal IntersectionController.set_pedestrianSignals
       IntersectionController.set_signal].
  rewrite (tg_signal _ _ _ Htg).
  cbn [IntersectionController.signal IntersectionController.set_cycleCounter].
  pose proof (inv_signal c Hinv) as Hs.
  split; [reflexivity|split].
  - apply lights_after_changeLight;
      [now apply signal_inv_setYellow|now apply lights_inv_setYellow].
  - apply greens_after_changeLight. now apply signal_inv_setYellow.
Qed.

Lemma lights_after_cycle_witness :
  exists c1 d c' w',
    cycle_selects scenario_cycle2.1 scenario_cycle2.2 c1 d /\
    IntersectionController.processCycle 31 scenario_cycle2.1 scenario_cycle2.2 =
      Returns tt c' w' /\
    TrafficSignal.currentGreenDirection (IntersectionController.signal c') =
      Direction_to_int d /\
    (forall d', light (IntersectionController.signal c') d' =
                Some (if decide (d' = d) then GREEN else RED)) /\
    greens (IntersectionController.signal c') = [d].
Proof.
  exact (lights_after_cycle 31 scenario_cycle2.1 scenario_cycle2.2
           scenario_cycle2_reachable enough_fuel).
Defined.

(** X12. Pedestrians in a cycle of a reachable controller, [d] being the
    direction that [findNextGreenDirection] returned in this cycle and
    [c1] the controller it was called on: when the cycle has returned no
    pedestrian signal shows WALK, the request of [d] is cleared, and the
    signal of every other direction is as it was in [c1], so that a
    request for a direction other than [d] that was pending when the
    cycle began is still pending. *)
Theorem pedestrians_after_cycle fuel c w (Hc : controller_reachable c)
    (Hfuel : (30 < fuel)%nat) :
  exists c1 d c' w',
    cycle_selects c w c1 d /\
    IntersectionController.processCycle fuel c w = Returns tt c' w' /\
    (forall d' p, IntersectionController.pedestrianSignals c' !! d' = Some p ->
                  PedestrianSignal.state p = DONT_WALK) /\
    PedestrianSignal.request (ped_of c' d) = false /\
    (forall d', d' <> d ->
                IntersectionController.pedestrianSignals c' !! d' =
                IntersectionController.pedestrianSignals c1 !! d') /\
    (forall d', d' <> d ->
                PedestrianSignal.request (ped_of c d') = true ->
                PedestrianSignal.request (ped_of c' d') = true).
Proof.
  pose proof (controller_reachable_inv c Hc) as Hinv.
  destruct (processCycle_at fuel c w Hinv Hfuel)
    as (c1 & d & lane & w' & Hsel & _ & Htg & Hinv1 & Hlane & Hrun & _).
  assert (Hc' : controller_reachable (cycle_end (clock w) d lane c1))
    by (eapply controller_cycle; eassumption).
  destruct (controller_reachable_more _ Hc') as (Hidle & _).
  eexists c1, d, _, w'. split; [exact Hsel|split; [exact Hrun|]].
  split; [exact Hidle|].
  assert (Hother : forall d', d' <> d ->
            IntersectionController.pedestrianSignals (cycle_end (clock w) d lane c1) !! d' =
            IntersectionController.pedestrianSignals c1 !! d').
  { intros d' Hne. unfold cycle_end, drained.
    cbn [IntersectionController.pedestrianSignals
         IntersectionController.set_pedestrianSignals IntersectionController.set_signal].
    now rewrite lookup_insert_ne by congruence. }
  split; [|split; [exact Hother|]].
  - unfold ped_of at 1, cycle_end, drained.
    cbn [IntersectionController.pedestrianSignals
         IntersectionController.set_pedestrianSignals IntersectionController.set_signal].
    rewrite lookup_insert_eq. cbn [default from_option id]. unfold crossed.
    destruct (PedestrianSignal.request (ped_of c1 d)) eqn:Hreq; [reflexivity|exact Hreq].
  - intros d' Hne Hreq. unfold ped_of in *. rewrite (Hother d' Hne).
    pose proof (tg_peds _ _ _ Htg d') as Hmore.
    cbn [IntersectionController.pedestrianSignals
         IntersectionController.set_cycleCounter] in Hmore.
    destruct (IntersectionController.pedestrianSignals c !! d') as [p|],
             (IntersectionController.pedestrianSignals c1 !! d') as [p1|];
      cbn in *; try contradiction; try discriminate.
    now apply Hmore.
Qed.

Lemma pedestrians_after_cycle_witness :
  exists c1 d c' w',
    cycle_selects scenario_cycle2.1 scenario_cycle2.2 c1 d /\
    IntersectionController.processCycle 31 scenario_cycle2.1 scenario_cycle2.2 =
      Returns tt c' w' /\
    (forall d' p, IntersectionController.pedestrianSignals c' !! d' = Some p ->
                  PedestrianSignal.state p = DONT_WALK) /\
    PedestrianSignal.request (ped_of c' d) = false /\
    (forall d', d' <> d ->
                IntersectionController.pedestrianSignals c' !! d' =
                IntersectionController.pedestrianSignals c1 !! d') /\
    (forall d', d' <> d ->
                PedestrianSignal.request (ped_of scenario_cycle2.1 d') = true ->
                PedestrianSignal.request (ped_of c' d') = true).
Proof.
  exact (pedestrians_after_cycle 31 scenario_cycle2.1 scenario_cycle2.2
           scenario_cycle2_reachable enough_fuel).
Defined.

(** X13. Vehicles in a cycle of a reachable controller, [d] being the
    direction that [findNextGreenDirection] returned in this cycle,
    [c1] the controller it was called on and [lane] the lane of [d] in
    [c1]: only that lane loses vehicles, from its head, and as many as
    half its green time allows or as it holds, so at most 30 and, when
    it holds that many, at least 5; every other lane is as it was in
    [c1]. *)
Theorem vehicles_leave_selected_lane fuel c w (Hc : controller_reachable c)
    (Hfuel : (30 < fuel)%nat) :
  exists c1 d lane c' w',
    cycle_selects c w c1 d /\
    IntersectionController.lanes c1 !! Z.to_nat (Direction_to_int d) = Some lane /\
    TrafficLane.direction lane = d /\
    IntersectionController.processCycle fuel c w = Returns tt c' w' /\
    IntersectionController.lanes c' =
      <[Z.to_nat (Direction_to_int d) :=
          TrafficLane.set_vehicles
            (drop (leaving lane) (TrafficLane.vehicles lane)) lane]>
        (IntersectionController.lanes c1) /\
    Z.of_nat (leaving lane) =
      Z.min (Z.quot (green_time lane) 2) (Z.of_nat (length (TrafficLane.vehicles lane))) /\
    10 <= green_time lane <= 60 /\
    (leaving lane <= 30)%nat /\
    (Nat.min 5 (length (TrafficLane.vehicles lane)) <= leaving lane)%nat.
Proof.
  pose proof (controller_reachable_inv c Hc) as Hinv.
  destruct (processCycle_at fuel c w Hinv Hfuel)
    as (c1 & d & lane & w' & Hsel & _ & Htg & Hinv1 & Hlane & Hrun & _).
  pose proof (green_time_bounds lane) as Hg.
  assert (Hq : 5 <= Z.quot (green_time lane) 2 <= 30).
  { split; [apply Z.quot_le_lower_bound; lia|apply Z.quot_le_upper_bound; lia]. }
  eexists c1, d, lane, _, w'.
  split; [exact Hsel|split; [exact Hlane|split; [|split; [exact Hrun|]]]].
  - destruct (inv_lane c1 Hinv1 _ _ Hlane) as [_ Hdir].
    apply allDirections_lookup in Hdir.
    apply (f_equal Z.of_nat) in Hdir.
    pose proof (Direction_to_int_range d).
    pose proof (Direction_to_int_range (TrafficLane.direction lane)).
    rewrite !Z2Nat.id in Hdir by lia.
    destruct (TrafficLane.direction lane), d; cbn in Hdir; congruence.
  - split; [reflexivity|]. unfold leaving.
    split; [lia|split; [exact Hg|split; lia]].
Qed.

Lemma vehicles_leave_selected_lane_witness :
  exists c1 d lane c' w',
    cycle_selects scenario_cycle2.1 scenario_cycle2.2 c1 d /\
    IntersectionController.lanes c1 !! Z.to_nat (Direction_to_int d) = Some lane /\
    TrafficLane.direction lane = d /\
    IntersectionController.processCycle 31 scenario_cycle2.1 scenario_cycle2.2 =
      Returns tt c' w' /\
    IntersectionController.lanes c' =
      <[Z.to_nat (Direction_to_int d) :=
          TrafficLane.set_vehicles
            (drop (leaving lane) (TrafficLane.vehicles lane)) lane]>
        (IntersectionController.lanes c1) /\
    Z.of_nat (leaving lane) =
      Z.min (Z.quot (green_time lane) 2) (Z.of_nat (length (TrafficLane.vehicles lane))) /\
    10 <= green_time lane <= 60 /\
    (leaving lane <= 30)%nat /\
    (Nat.min 5 (length (TrafficLane.vehicles lane)) <= leaving lane)%nat.
Proof.
  exact (vehicles_leave_selected_lane 31 scenario_cycle2.1 scenario_cycle2.2
           scenario_cycle2_reachable enough_fuel).
Defined.

(** X14. Every vehicle that [generateTraffic] counted is queued in a
    lane or was counted by [processVehicles]: in every reachable
    controller [vehicleCounter] is [totalVehiclesProcessed] plus the
    number of queued vehicles, as an [int], that is modulo 2^32, and
    exactly so whenever that sum fits an [int]. *)
Theorem vehicles_conserved c (Hc : controller_reachable c) :
  IntersectionController.vehicleCounter c =
    Int.wrap (IntersectionController.totalVehiclesProcessed c
              + queued (IntersectionController.lanes c)) /\
  (Int.in_range (IntersectionController.totalVehiclesProcessed c
                 + queued (IntersectionController.lanes c)) ->
   IntersectionController.vehicleCounter c =
   IntersectionController.totalVehiclesProcessed c
   + queued (IntersectionController.lanes c)).
Proof.
  destruct (controller_reachable_more c Hc) as (_ & _ & Hcount).
  rewrite (wrap_id _ (vehicleCounter_in_range c Hc)) in Hcount.
  split; [exact Hcount|]. intros Hr. now rewrite wrap_id in Hcount.
Qed.

Lemma vehicles_conserved_witness :
  IntersectionController.vehicleCounter (IntersectionController.new (fun _ => 5%N)) =
    Int.wrap (IntersectionController.totalVehiclesProcessed
                (IntersectionController.new (fun _ => 5%N))
              + queued (IntersectionController.lanes
                          (IntersectionController.new (fun _ => 5%N)))) /\
  (Int.in_range (IntersectionController.totalVehiclesProcessed
                   (IntersectionController.new (fun _ => 5%N))
                 + queued (IntersectionController.lanes
                             (IntersectionController.new (fun _ => 5%N)))) ->
   IntersectionController.vehicleCounter (IntersectionController.new (fun _ => 5%N)) =
   IntersectionController.totalVehiclesProcessed (IntersectionController.new (fun _ => 5%N))
   + queued (IntersectionController.lanes (IntersectionController.new (fun _ => 5%N)))).
Proof.
  exact (vehicles_conserved (IntersectionController.new (fun _ => 5%N)) (controller_new _)).
Defined.

(** ** Runs of cycles *)

Lemma ids_fresh_weaken n n' vs :
  n <= n' -> Forall (fun v => 1 <= Vehicle.id v <= n) vs ->
  Forall (fun v => 1 <= Vehicle.id v <= n') vs.
Proof. intros Hle Hvs. eapply Forall_impl; [exact Hvs|]. cbn. intros v Hv. lia. Qed.

(** A vehicle with a new identifier among vehicles with older ones. *)
Lemma ids_fresh_middle n pre post v :
  0 <= n -> ids_fresh n (pre ++ post) -> Vehicle.id v = n + 1 ->
  ids_fresh (n + 1) ((pre ++ [v]) ++ post).
Proof.
  intros Hn [Hrange Hdup] Hv. split.
  - apply Forall_app in Hrange as [Hpre Hpost].
    repeat (apply Forall_app; split);
      try (eapply ids_fresh_weaken; [|eassumption]; lia).
    apply Forall_singleton. lia.
  - assert (Hnew : forall u, u ∈ pre ++ post -> Vehicle.id u <> n + 1).
    { intros u Hu. rewrite Forall_forall in Hrange. specialize (Hrange u Hu). lia. }
    rewrite !fmap_app in *. cbn [fmap list_fmap].
    apply NoDup_app in Hdup as (Hpre & Hdisj & Hpost).
    apply NoDup_app. split; [|split].
    + apply NoDup_app. split; [exact Hpre|split; [|apply NoDup_singleton]].
      intros x Hx ->%list_elem_of_singleton.
      apply list_elem_of_fmap in Hx as (u & Hxu & Hu).
      apply (Hnew u); [apply elem_of_app; now left|congruence].
    + intros x Hx Hx'. apply elem_of_app in Hx as [Hx|Hx]; [now apply (Hdisj x)|].
      apply list_elem_of_singleton in Hx. subst x.
      apply list_elem_of_fmap in Hx' as (u & Hxu & Hu).
      apply (Hnew u); [apply elem_of_app; now right|congruence].
    + exact Hpost.
Qed.

Lemma arrivals_fresh now n ls n' ls' :
  arrivals now n ls n' ls' ->
  forall pre,
    0 <= n -> n + Z.of_nat (length ls) <= Int.max_int ->
    ids_fresh n (pre ++ queued_vehicles ls) ->
    n <= n' <= n + Z.of_nat (length ls) /\
    ids_fresh n' (pre ++ queued_vehicles ls').
Proof.
  induction 1 as [n|n l n1 l' ls n' ls' Harr _ IH]; intros pre Hn Hmax Hfresh.
  - cbn. split; [lia|exact Hfresh].
  - unfold queued_vehicles in *. cbn [map concat length] in *.
    destruct Harr as [d Hd|d e Hd];
      cbn [TrafficLane.vehicles TrafficLane.set_vehicles TrafficLane.set_trafficDensity].
    + rewrite app_assoc in *.
      destruct (IH (pre ++ TrafficLane.vehicles l) Hn ltac:(lia) Hfresh) as [Hle Hf].
      split; [lia|exact Hf].
    + assert (Hadd : Int.add n 1 = n + 1).
      { apply wrap_id. unfold Int.in_range, Int.min_int, Int.max_int in *. lia. }
      rewrite Hadd in *. rewrite !app_assoc in *.
      destruct (IH ((pre ++ TrafficLane.vehicles l) ++ [Vehicle.mk (n + 1) e now])
                  ltac:(lia) ltac:(lia)) as [Hle Hf].
      { apply ids_fresh_middle; [exact Hn|exact Hfresh|reflexivity]. }
      split; [lia|exact Hf].
Qed.

Lemma queued_vehicles_insert ls i l l' :
  ls !! i = Some l ->
  queued_vehicles ls =
    queued_vehicles (take i ls) ++ TrafficLane.vehicles l ++ queued_vehicles (drop (S i) ls) /\
  queued_vehicles (<[i := l']> ls) =
    queued_vehicles (take i ls) ++ TrafficLane.vehicles l' ++ queued_vehicles (drop (S i) ls).
Proof.
  intros Hl. unfold queued_vehicles. split.
  - rewrite <- (take_drop_middle ls i l Hl) at 1.
    now rewrite map_app, concat_app.
  - rewrite insert_take_drop by (eapply lookup_lt_Some, Hl).
    now rewrite map_app, concat_app.
Qed.

(** The vehicles that stay when the head of a lane leaves. *)
Lemma drained_fresh n ls i l k :
  ls !! i = Some l ->
  ids_fresh n (queued_vehicles ls) ->
  ids_fresh n (queued_vehicles
                 (<[i := TrafficLane.set_vehicles (drop k (TrafficLane.vehicles l)) l]> ls)).
Proof.
  intros Hl [Hrange Hdup].
  destruct (queued_vehicles_insert ls i l
              (TrafficLane.set_vehicles (drop k (TrafficLane.vehicles l)) l) Hl)
    as [Hold Hnew].
  rewrite Hnew. rewrite Hold in Hrange, Hdup.
  cbn [TrafficLane.vehicles TrafficLane.set_vehicles].
  split.
  - apply Forall_app in Hrange as [Hpre Hrest]. apply Forall_app in Hrest as [Hq Hpost].
    repeat (apply Forall_app; split); try assumption. now apply Forall_drop.
  - eapply sublist_NoDup; [exact Hdup|].
    apply fmap_sublist. apply sublist_app; [reflexivity|].
    apply sublist_app; [apply sublist_drop|reflexivity].
Qed.

Lemma cycleCounter_in_range c :
  controller_reachable c -> Int.in_range (IntersectionController.cycleCounter c).
Proof.
  induction 1 as [entropy|fuel c w c' w' Hreach IH Hrun].
  - split; vm_compute; discriminate.
  - pose proof (controller_reachable_inv c Hreach) as Hinv.
    destruct (processCycle_returned fuel c w c' w' Hinv Hrun)
      as (c1 & lane & [_ _ _ _ _ Hcc] & _ & _ & -> & _).
    unfold cycle_end, drained.
    cbn [IntersectionController.cycleCounter IntersectionController.set_pedestrianSignals
         IntersectionController.set_signal].
    rewrite Hcc. apply wrap_range.
Qed.

(** One cycle of a run. *)
Lemma processCycle_step fuel c w :
  controller_reachable c -> (30 < fuel)%nat ->
  exists c' w' k,
    IntersectionController.processCycle fuel c w = Returns tt c' w' /\
    controller_reachable c' /\
    IntersectionController.cycleCounter c' =
      Int.add (IntersectionController.cycleCounter c) 1 /\
    0 <= TrafficSignal.currentGreenDirection (IntersectionController.signal c') /\
    0 <= k <= 1 /\
    clock w' =
      clock w + 500 + 3000 * k
      + (if 0 <=? TrafficSignal.currentGreenDirection (IntersectionController.signal c)
         then 3000 else 0) /\
    (0 <= IntersectionController.vehicleCounter c ->
     IntersectionController.vehicleCounter c + 4 <= Int.max_int ->
     ids_fresh (IntersectionController.vehicleCounter c)
               (queued_vehicles (IntersectionController.lanes c)) ->
     IntersectionController.vehicleCounter c <= IntersectionController.vehicleCounter c'
       <= IntersectionController.vehicleCounter c + 4 /\
     ids_fresh (IntersectionController.vehicleCounter c')
               (queued_vehicles (IntersectionController.lanes c'))).
Proof.
  intros Hc Hfuel. pose proof (controller_reachable_inv c Hc) as Hinv.
  destruct (processCycle_run fuel c w Hinv Hfuel)
    as (c1 & lane & w' & Htg & Hinv1 & Hlane & Hrun & Hclock & _).
  set (d := selected (clock w) c1) in *.
  exists (cycle_end (clock w) d lane c1), w',
         (if PedestrianSignal.request (ped_of c1 d) then 1 else 0).
  split; [exact Hrun|].
  split; [eapply controller_cycle; eassumption|].
  split; [exact (tg_cycle _ _ _ Htg)|].
  split; [cbn; pose proof (Direction_to_int_range d); lia|].
  split; [destruct (PedestrianSignal.request _); lia|].
  split.
  - rewrite Hclock, (yellow_hold_of c1 Hinv1), (tg_signal _ _ _ Htg).
    cbn [IntersectionController.signal IntersectionController.set_cycleCounter].
    unfold crossing_hold, ticks_per_second.
    destruct (PedestrianSignal.request _); lia.
  - intros Hn Hmax Hfresh.
    pose proof (tg_lanes _ _ _ Htg) as Harrs.
    cbn [IntersectionController.lanes IntersectionController.vehicleCounter
         IntersectionController.set_cycleCounter] in Harrs.
    destruct (arrivals_fresh _ _ _ _ _ Harrs [] Hn) as [Hle Hf];
      [rewrite (inv_lanes c Hinv); cbn; lia|exact Hfresh|].
    rewrite (inv_lanes c Hinv) in Hle. cbn [app] in Hf.
    unfold cycle_end, drained.
    cbn [IntersectionController.lanes IntersectionController.vehicleCounter
         IntersectionController.set_pedestrianSignals IntersectionController.set_signal].
    split; [cbn in Hle; lia|]. now apply drained_fresh.
Qed.

(** A run of [n] cycles from a reachable controller. *)
Lemma run_from fuel n :
  (30 < fuel)%nat ->
  forall c w,
    controller_reachable c ->
    exists c' w' k,
      IntersectionController.run fuel n c w = Returns tt c' w' /\
      controller_reachable c' /\
      IntersectionController.cycleCounter c' =
        Int.wrap (IntersectionController.cycleCounter c + Z.of_nat n) /\
      0 <= k <= Z.of_nat n /\
      clock w' =
        clock w + 500 * Z.of_nat n + 3000 * k
        + 3000 * (if 0 <=? TrafficSignal.currentGreenDirection
                             (IntersectionController.signal c)
                  then Z.of_nat n else Z.of_nat (pred n)) /\
      (0 <= IntersectionController.vehicleCounter c ->
       IntersectionController.vehicleCounter c + 4 * Z.of_nat n <= Int.max_int ->
       ids_fresh (IntersectionController.vehicleCounter c)
                 (queued_vehicles (IntersectionController.lanes c)) ->
       IntersectionController.vehicleCounter c <= IntersectionController.vehicleCounter c'
         <= IntersectionController.vehicleCounter c + 4 * Z.of_nat n /\
       ids_fresh (IntersectionController.vehicleCounter c')
                 (queued_vehicles (IntersectionController.lanes c'))).
Proof.
  intros Hfuel. induction n as [|n IH]; intros c w Hc.
  - exists c, w, 0. cbn [IntersectionController.run]. split; [reflexivity|].
    split; [exact Hc|].
    split; [rewrite Z.add_0_r; symmetry; apply wrap_id, cycleCounter_in_range, Hc|].
    split; [lia|]. split; [destruct (0 <=? _); cbn; lia|].
    intros _ _ Hfresh. split; [lia|exact Hfresh].
  - destruct (processCycle_step fuel c w Hc Hfuel)
      as (c1 & w1 & k1 & Hrun1 & Hc1 & Hcc1 & Hcur1 & Hk1 & Hclock1 & Hids1).
    destruct (IH c1 w1 Hc1) as (c' & w' & k & Hrun & Hc' & Hcc & Hk & Hclock & Hids).
    exists c', w', (k1 + k).
    split; [cbn [IntersectionController.run]; unfold bind; rewrite Hrun1; exact Hrun|].
    split; [exact Hc'|].
    split.
    { rewrite Hcc, Hcc1. unfold Int.add. rewrite wrap_add_l. f_equal. lia. }
    split; [lia|]. split.
    { rewrite Hclock, Hclock1.
      replace (0 <=? TrafficSignal.currentGreenDirection (IntersectionController.signal c1))
        with true by (symmetry; apply Z.leb_le; exact Hcur1).
      destruct (0 <=? TrafficSignal.currentGreenDirection (IntersectionController.signal c));
        cbn [pred]; lia. }
    intros Hn Hmax Hfresh.
    destruct (Hids1 Hn ltac:(lia) Hfresh) as [Hle1 Hf1].
    destruct (Hids ltac:(lia) ltac:(lia) Hf1) as [Hle Hf].
    split; [lia|exact Hf].
Qed.

(** X15. The vehicles queued after any number [n] of cycles from the
    constructor, as long as four vehicles per cycle do not exhaust [int],
    have distinct identifiers, each between 1 and [vehicleCounter], and
    [vehicleCounter] is at most [4 n]: at most one vehicle arrives per
    lane and cycle, and each takes the next identifier. *)
Theorem vehicle_ids_distinct fuel n entropy w
    (Hfuel : (30 < fuel)%nat) (Hn : 4 * Z.of_nat n <= Int.max_int) :
  exists c' w',
    IntersectionController.run fuel n (IntersectionController.new entropy) w =
      Returns tt c' w' /\
    0 <= IntersectionController.vehicleCounter c' <= 4 * Z.of_nat n /\
    Forall (fun v => 1 <= Vehicle.id v <= IntersectionController.vehicleCounter c')
           (queued_vehicles (IntersectionController.lanes c')) /\
    NoDup (Vehicle.id <$> queued_vehicles (IntersectionController.lanes c')).
Proof.
  destruct (run_from fuel n Hfuel (IntersectionController.new entropy) w (controller_new _))
    as (c' & w' & k & Hrun & _ & _ & _ & _ & Hids).
  destruct Hids as [Hle [Hrange Hdup]].
  - cbn. lia.
  - cbn. lia.
  - split; constructor.
  - exists c', w'. split; [exact Hrun|]. cbn in Hle. split; [lia|split; assumption].
Qed.

Lemma twenty_cycles_fit : 4 * Z.of_nat 20 <= Int.max_int.
Proof. vm_compute. discriminate. Qed.

Lemma vehicle_ids_distinct_witness :
  exists c' w',
    IntersectionController.run 31 20 (IntersectionController.new (fun _ => 5%N))
      scenario_world = Returns tt c' w' /\
    0 <= IntersectionController.vehicleCounter c' <= 4 * Z.of_nat 20 /\
    Forall (fun v => 1 <= Vehicle.id v <= IntersectionController.vehicleCounter c')
           (queued_vehicles (IntersectionController.lanes c')) /\
    NoDup (Vehicle.id <$> queued_vehicles (IntersectionController.lanes c')).
Proof.
  exact (vehicle_ids_distinct 31 20 (fun _ => 5%N) scenario_world
           enough_fuel twenty_cycles_fit).
Defined.

(** X16. [main] returns, whatever the random generator outputs: its
    twenty cycles neither throw nor index a vector out of range. It
    leaves a controller that counted 20 cycles, and on the clock it took
    the 20 pauses of 500 ms, the 19 yellow holds of 3 s (the first cycle
    finds no direction green) and 3 s for each of the at most 20
    crossings it granted. *)
Theorem main_returns fuel entropy w (Hfuel : (30 < fuel)%nat) :
  exists c' w' crossings,
    IntersectionController.main fuel entropy w = Returns tt c' w' /\
    controller_reachable c' /\
    IntersectionController.cycleCounter c' = 20 /\
    0 <= crossings <= 20 /\
    clock w' = clock w + 67000 + 3000 * crossings.
Proof.
  unfold IntersectionController.main. cbv zeta.
  destruct (run_from fuel 20 Hfuel (IntersectionController.new entropy) w (controller_new _))
    as (c' & w' & k & Hrun & Hc' & Hcc & Hk & Hclock & _).
  exists c', w', k. split; [exact Hrun|]. split; [exact Hc'|].
  split; [rewrite Hcc; reflexivity|]. split; [lia|].
  rewrite Hclock. cbn. lia.
Qed.

Lemma main_returns_witness :
  exists c' w' crossings,
    IntersectionController.main 31 (fun _ => 5%N) scenario_world = Returns tt c' w' /\
    controller_reachable c' /\
    IntersectionController.cycleCounter c' = 20 /\
    0 <= crossings <= 20 /\
    clock w' = clock scenario_world + 67000 + 3000 * crossings.
Proof. exact (main_returns 31 (fun _ => 5%N) scenario_world enough_fuel). Defined.

(** ** Emergencies and statistics in a cycle *)

(** X17. Emergency vehicles in a cycle of a reachable controller: when
    the lanes hold an emergency vehicle as the cycle calls
    [findNextGreenDirection], the call returns the direction of the first
    such lane, which is the one that turns green and is drained, from
    its head and by as many vehicles as any selected lane; the emergency
    vehicle leaves with them only if it stands among them, it does not
    pass the vehicles before it. The other lanes keep their queues. *)
Theorem emergency_lane_served fuel c w c1 w1 pre l post
    (Hc : controller_reachable c) (Hfuel : (30 < fuel)%nat)
    (Hpro : cycle_prologue c w = Returns tt c1 w1)
    (Hlanes : IntersectionController.lanes c1 = pre ++ l :: post)
    (Hpre : Forall (fun l' => has_emergency l' = false) pre)
    (Hl : has_emergency l = true) :
  exists c' w',
    cycle_selects c w c1 (TrafficLane.direction l) /\
    IntersectionController.processCycle fuel c w = Returns tt c' w' /\
    TrafficSignal.currentGreenDirection (IntersectionController.signal c') =
      Direction_to_int (TrafficLane.direction l) /\
    light (IntersectionController.signal c') (TrafficLane.direction l) = Some GREEN /\
    IntersectionController.lanes c' =
      pre ++ TrafficLane.set_vehicles
               (drop (leaving l) (TrafficLane.vehicles l)) l :: post /\
    (Nat.min 5 (length (TrafficLane.vehicles l)) <= leaving l)%nat.
Proof.
  pose proof (controller_reachable_inv c Hc) as Hinv.
  destruct (controller_reachable_more c Hc) as (_ & Hlights & _).
  assert (Hsel : IntersectionController.findNextGreenDirection c1 w1 =
                 Returns (TrafficLane.direction l) c1
                         (with_console (emergency_message (TrafficLane.direction l)) w1)).
  { rewrite findNextGreenDirection_run, Hlanes.
    now rewrite (find_first_emergency pre l post Hpre Hl). }
  destruct (processCycle_wp_at False fuel c w c1 w1 _ _ Hinv ltac:(now right) Hpro Hsel)
    as (_ & Htg & Hinv1 & lane & Hlane & Hwp).
  destruct (wp_returns _ _ _ _ Hwp) as ([] & c' & w' & Hrun & -> & _).
  eexists _, w'. split; [eexists _, _; split; [exact Hpro|exact Hsel]|].
  split; [exact Hrun|].
  assert (Hat : IntersectionController.lanes c1 !! length pre = Some l).
  { rewrite Hlanes. now rewrite list_lookup_middle. }
  assert (Hidx : Z.to_nat (Direction_to_int (TrafficLane.direction l)) = length pre).
  { apply allDirections_lookup. exact (proj2 (inv_lane c1 Hinv1 _ _ Hat)). }
  rewrite Hidx in Hlane. rewrite Hat in Hlane. injection Hlane as <-.
  unfold cycle_end, drained.
  cbn [IntersectionController.signal IntersectionController.lanes
       IntersectionController.set_pedestrianSignals IntersectionController.set_signal].
  pose proof (inv_signal c Hinv) as Hs.
  assert (Hsig : IntersectionController.signal c1 = IntersectionController.signal c)
    by exact (tg_signal _ _ _ Htg).
  rewrite Hsig.
  split; [reflexivity|split; [|split]].
  - rewrite lights_after_changeLight;
      [|now apply signal_inv_setYellow|now apply lights_inv_setYellow].
    now rewrite decide_True.
  - rewrite Hidx, Hlanes.
    replace (length pre) with (length pre + 0)%nat at 1 by lia.
    now rewrite insert_app_r.
  - pose proof (green_time_bounds l) as Hg.
    assert (5 <= Z.quot (green_time l) 2) by (apply Z.quot_le_lower_bound; lia).
    unfold leaving. lia.
Qed.

Lemma scenario_selection2_north :
  Forall (fun l' => has_emergency l' = false)
         [TrafficLane.mk NORTH [Vehicle.mk 5 false 103500] 5].
Proof. repeat constructor. Qed.

Lemma scenario_selection2_east :
  has_emergency
    (TrafficLane.mk EAST [Vehicle.mk 2 false 100000; Vehicle.mk 6 true 103500] 5) = true.
Proof. reflexivity. Qed.

Lemma emergency_lane_served_witness :
  exists c' w',
    cycle_selects scenario_cycle2.1 scenario_cycle2.2 scenario_selection2.1
      (TrafficLane.direction
         (TrafficLane.mk EAST [Vehicle.mk 2 false 100000; Vehicle.mk 6 true 103500] 5)) /\
    IntersectionController.processCycle 31 scenario_cycle2.1 scenario_cycle2.2 =
      Returns tt c' w' /\
    TrafficSignal.currentGreenDirection (IntersectionController.signal c') =
      Direction_to_int
        (TrafficLane.direction
           (TrafficLane.mk EAST [Vehicle.mk 2 false 100000; Vehicle.mk 6 true 103500] 5)) /\
    light (IntersectionController.signal c')
      (TrafficLane.direction
         (TrafficLane.mk EAST [Vehicle.mk 2 false 100000; Vehicle.mk 6 true 103500] 5))
      = Some GREEN /\
    IntersectionController.lanes c' =
      [TrafficLane.mk NORTH [Vehicle.mk 5 false 103500] 5]
        ++ TrafficLane.set_vehicles
             (drop (leaving (TrafficLane.mk EAST [Vehicle.mk 2 false 100000;
                                                  Vehicle.mk 6 true 103500] 5))
                   (TrafficLane.vehicles
                      (TrafficLane.mk EAST [Vehicle.mk 2 false 100000;
                                            Vehicle.mk 6 true 103500] 5)))
             (TrafficLane.mk EAST [Vehicle.mk 2 false 100000; Vehicle.mk 6 true 103500] 5)
        :: [TrafficLane.mk SOUTH [Vehicle.mk 3 false 100000; Vehicle.mk 7 false 103500] 5;
            TrafficLane.mk WEST [Vehicle.mk 4 false 100000; Vehicle.mk 8 false 103500] 5] /\
    (Nat.min 5 (length (TrafficLane.vehicles
                          (TrafficLane.mk EAST [Vehicle.mk 2 false 100000;
                                                Vehicle.mk 6 true 103500] 5)))
     <= leaving (TrafficLane.mk EAST [Vehicle.mk 2 false 100000;
                                     Vehicle.mk 6 true 103500] 5))%nat.
Proof.
  exact (emergency_lane_served 31 scenario_cycle2.1 scenario_cycle2.2
           scenario_selection2.1 scenario_selection2.2 _ _ _
           scenario_cycle2_reachable enough_fuel scenario_selection2_run
           scenario_selection2_lanes scenario_selection2_north scenario_selection2_east).
Defined.

Lemma fold_left_in_range {X} (f : Z -> X -> Z) (xs : list X) n :
  (forall m x, Int.in_range (f m x)) -> Int.in_range n ->
  Int.in_range (fold_left f xs n).
Proof.
  intros Hf. revert n. induction xs as [|x xs IH]; intros n Hn; cbn; [exact Hn|].
  apply IH, Hf.
Qed.

Lemma statistics_in_range c :
  controller_reachable c ->
  Int.in_range (IntersectionController.totalVehiclesProcessed c) /\
  Int.in_range (IntersectionController.totalWaitTime c).
Proof.
  induction 1 as [entropy|fuel c w c' w' Hreach [IHp IHw] Hrun].
  - split; split; vm_compute; discriminate.
  - pose proof (controller_reachable_inv c Hreach) as Hinv.
    destruct (processCycle_returned fuel c w c' w' Hinv Hrun)
      as (c1 & lane & [_ _ _ Htp Htw _] & _ & _ & -> & _).
    unfold cycle_end, drained.
    cbn [IntersectionController.totalVehiclesProcessed IntersectionController.totalWaitTime
         IntersectionController.set_pedestrianSignals IntersectionController.set_signal].
    rewrite Htp, Htw.
    split; (apply fold_left_in_range; [intros; apply wrap_range|assumption]).
Qed.

(** X18. The statistics of a cycle of a reachable controller, [d] being
    the direction that [findNextGreenDirection] returned in this cycle,
    [c1] the controller it was called on and [lane] the lane of [d] in
    [c1]: [totalVehiclesProcessed] grows by the number of vehicles that
    left that lane and [totalWaitTime] by the sum of their waiting times,
    in [int] arithmetic; the waiting times are taken at the instant the
    lane is drained, after the yellow hold and the crossing hold of the
    cycle, that is 500 ms before the cycle ends. *)
Theorem statistics_of_cycle fuel c w (Hc : controller_reachable c)
    (Hfuel : (30 < fuel)%nat) :
  exists c1 d lane c' w',
    cycle_selects c w c1 d /\
    IntersectionController.lanes c1 !! Z.to_nat (Direction_to_int d) = Some lane /\
    IntersectionController.processCycle fuel c w = Returns tt c' w' /\
    IntersectionController.totalVehiclesProcessed c' =
      Int.wrap (IntersectionController.totalVehiclesProcessed c
                + Z.of_nat (leaving lane)) /\
    IntersectionController.totalWaitTime c' =
      Int.wrap (IntersectionController.totalWaitTime c
                + sum_Z (map (waitingTime (clock w' - 500))
                             (take (leaving lane) (TrafficLane.vehicles lane)))).
Proof.
  pose proof (controller_reachable_inv c Hc) as Hinv.
  destruct (statistics_in_range c Hc) as [Hp Hw].
  destruct (processCycle_at fuel c w Hinv Hfuel)
    as (c1 & d & lane & w' & Hsel & _ & Htg & Hinv1 & Hlane & Hrun & Hclock & _).
  eexists c1, d, lane, _, w'.
  split; [exact Hsel|split; [exact Hlane|split; [exact Hrun|]]].
  unfold cycle_end, drained.
  cbn [IntersectionController.totalVehiclesProcessed IntersectionController.totalWaitTime
       IntersectionController.set_pedestrianSignals IntersectionController.set_signal].
  rewrite (tg_processed _ _ _ Htg), (tg_wait _ _ _ Htg).
  cbn [IntersectionController.totalVehiclesProcessed IntersectionController.totalWaitTime
       IntersectionController.set_cycleCounter].
  split.
  - rewrite <- (wrap_id (fold_left _ _ _))
      by (apply fold_left_in_range; [intros; apply wrap_range|exact Hp]).
    rewrite processed_count, length_take. f_equal. unfold leaving. lia.
  - rewrite fold_add_wrap by (apply wrap_id; exact Hw).
    replace (clock w' - 500)
      with (clock w + yellow_hold c1 + crossing_hold c1 d) by lia.
    reflexivity.
Qed.

Lemma statistics_of_cycle_witness :
  exists c1 d lane c' w',
    cycle_selects scenario_cycle2.1 scenario_cycle2.2 c1 d /\
    IntersectionController.lanes c1 !! Z.to_nat (Direction_to_int d) = Some lane /\
    IntersectionController.processCycle 31 scenario_cycle2.1 scenario_cycle2.2 =
      Returns tt c' w' /\
    IntersectionController.totalVehiclesProcessed c' =
      Int.wrap (IntersectionController.totalVehiclesProcessed scenario_cycle2.1
                + Z.of_nat (leaving lane)) /\
    IntersectionController.totalWaitTime c' =
      Int.wrap (IntersectionController.totalWaitTime scenario_cycle2.1
                + sum_Z (map (waitingTime (clock w' - 500))
                             (take (leaving lane) (TrafficLane.vehicles lane)))).
Proof.
  exact (statistics_of_cycle 31 scenario_cycle2.1 scenario_cycle2.2
           scenario_cycle2_reachable enough_fuel).
Defined.
